(** * Battleships WebSocket server (server.js): a shallow embedding

    The development follows [class BattleshipsServer]: the placement
    validator ([validateShipPlacement], [validateShipContinuity]), the
    registry / wait queue / session map kept by the server object, and the
    message handlers.  Every handler is a function from the server state to
    the new state and the list of envelopes handed to [ws.send]. *)

From stdpp Require Import gmap strings list fin_maps sorting.
From Stdlib Require Import ZArith Lia.

Local Set Warnings "-clear-no-such-hyp".

Local Open Scope Z_scope.

(** ** Placement validator *)

(** A board cell [[row, col]].  The coordinates are integers, as the client
    sends them ([parseInt] of a cell of the page, [Math.floor] of a draw).
    The validator never tests a coordinate for being an integer, so what is
    proved below about the fleets it accepts is proved of fleets with
    integer coordinates, and says nothing of a fleet with a coordinate such
    as 4.5. *)
Definition Cell : Type := Z * Z.

Module Ship.
(** [{ type, positions: [[row, col], ...] }] *)
Record t := mk { type : string; positions : list Cell }.
End Ship.

Module Expected.
(** One entry of [expectedShips]: [{ length, count }]. *)
Record t := mk { length : Z; count : Z }.
End Expected.

(** [Object.entries(expectedShips)]: the own properties of the literal, in
    insertion order. *)
Definition expectedShips_entries : list (string * Expected.t) :=
  [ ("carrier",    Expected.mk 5 1);
    ("battleship", Expected.mk 4 1);
    ("cruiser",    Expected.mk 3 1);
    ("submarine",  Expected.mk 3 1);
    ("destroyer",  Expected.mk 2 1) ].

Definition expectedShips : gmap string Expected.t :=
  list_to_map expectedShips_entries.

(** [expectedShips] is an object literal, so [expectedShips[k]] also finds
    the properties inherited from [Object.prototype].  Those are functions
    (and [__proto__], the prototype object itself); this is the value of
    [.length] on each of them: the declared arity of the function, nothing
    ([undefined]) on the prototype object. *)
Definition ObjectPrototype_length (k : string) : option Z :=
  if bool_decide (k ∈ ["constructor"; "hasOwnProperty"; "isPrototypeOf";
                       "propertyIsEnumerable"; "__lookupGetter__";
                       "__lookupSetter__"]) then Some 1
  else if bool_decide (k ∈ ["__defineGetter__"; "__defineSetter__"]) then Some 2
  else if bool_decide (k ∈ ["toString"; "toLocaleString"; "valueOf"]) then Some 0
  else None.

(** [expectedShips[ship.type]?.length]; [None] is [undefined]. *)
Definition expectedLength (k : string) : option Z :=
  match expectedShips !! k with
  | Some e => Some (Expected.length e)
  | None => ObjectPrototype_length k
  end.

(** The comparator [(a, b) => a[0] - b[0] || a[1] - b[1]]. *)
Definition compareCells (a b : Cell) : Z :=
  if bool_decide (a.1 - b.1 = 0) then a.2 - b.2 else a.1 - b.1.

(** [a] may stand before [b] in an array sorted with [compareCells]. *)
Definition cellLe (a b : Cell) : Prop := compareCells a b <= 0.

Global Instance cellLe_dec : RelDecision cellLe :=
  λ a b, decide (compareCells a b <= 0).

(** [positions.sort(compareCells)].  The comparator is a total order on
    cells, so the sorted array is determined by its contents; the merge sort
    of the library stands for the engine's. *)
Definition sortCells (positions : list Cell) : list Cell :=
  merge_sort cellLe positions.

(** The [for (let i = 1; ...)] loop of [validateShipContinuity]: [prev] is
    [positions[i - 1]], the list holds [positions[i]] onwards. *)
Fixpoint continuityLoop (isHorizontal : bool) (prev : Cell) (rest : list Cell)
  : bool :=
  match rest with
  | [] => true
  | curr :: rest' =>
      if isHorizontal then
        if bool_decide (curr.2 - prev.2 ≠ 1) then false
        else continuityLoop isHorizontal curr rest'
      else
        if bool_decide (curr.1 - prev.1 ≠ 1) then false
        else continuityLoop isHorizontal curr rest'
  end.

(** [validateShipContinuity(positions)].  The sort is in place: the second
    component is the array as the call leaves it. *)
Definition validateShipContinuity (positions : list Cell) : bool * list Cell :=
  if bool_decide (Z.of_nat (length positions) <= 1) then (true, positions)
  else
    let positions := sortCells positions in
    match positions with
    | [] => (true, positions)
    | first :: rest =>
        let isHorizontal := forallb (λ pos, bool_decide (pos.1 = first.1)) positions in
        let isVertical := forallb (λ pos, bool_decide (pos.2 = first.2)) positions in
        if negb isHorizontal && negb isVertical then (false, positions)
        else (continuityLoop isHorizontal first rest, positions)
    end.

(** The inner [for (const position of ship.positions)] loop.  [None] is the
    [return false]; otherwise the set of occupied cells after the loop.  The
    set holds the keys [`${row},${col}`], which determine the cell. *)
Fixpoint positionsLoop (occupiedCells : gset Cell) (positions : list Cell)
  : option (gset Cell) :=
  match positions with
  | [] => Some occupiedCells
  | position :: positions' =>
      if bool_decide (position ∈ occupiedCells) then None
      else
        let occupiedCells := {[ position ]} ∪ occupiedCells in
        let '(row, col) := position in
        if bool_decide (row < 0) || bool_decide (row >= 10)
           || bool_decide (col < 0) || bool_decide (col >= 10)
        then None
        else positionsLoop occupiedCells positions'
  end.

(** The outer [for (const ship of ships)] loop.  [None] is a [return false];
    otherwise the counters and the ships as the in-place sorts left them.
    [shipCounts] holds numbers under the five kinds; what the source stores
    under any other key is never read. *)
Fixpoint shipsLoop (shipCounts : gmap string Z) (occupiedCells : gset Cell)
    (ships : list Ship.t) : option (gmap string Z * list Ship.t) :=
  match ships with
  | [] => Some (shipCounts, [])
  | ship :: ships' =>
      let shipCounts :=
        <[ Ship.type ship := default 0 (shipCounts !! Ship.type ship) + 1 ]> shipCounts in
      match expectedLength (Ship.type ship) with
      | None => None
      | Some expectedLength =>
          if bool_decide (expectedLength = 0)
             || bool_decide (Z.of_nat (length (Ship.positions ship)) ≠ expectedLength)
          then None
          else
            match positionsLoop occupiedCells (Ship.positions ship) with
            | None => None
            | Some occupiedCells =>
                let '(ok, sorted) := validateShipContinuity (Ship.positions ship) in
                if negb ok then None
                else
                  match shipsLoop shipCounts occupiedCells ships' with
                  | None => None
                  | Some (shipCounts, ships') =>
                      Some (shipCounts, Ship.mk (Ship.type ship) sorted :: ships')
                  end
            end
      end
  end.

(** The final [for (const [type, expected] of Object.entries(expectedShips))]. *)
Definition countsLoop (shipCounts : gmap string Z) : bool :=
  forallb (λ '(type, expected),
             negb (bool_decide (shipCounts !! type ≠ Some (Expected.count expected))))
          expectedShips_entries.

(** [validateShipPlacement(ships)]: the verdict, and [ships] as the call
    leaves the array when the verdict is [true]. *)
Definition validateShipPlacement_run (ships : list Ship.t)
  : option (list Ship.t) :=
  match shipsLoop ∅ ∅ ships with
  | None => None
  | Some (shipCounts, ships') =>
      if countsLoop shipCounts then Some ships' else None
  end.

Definition validateShipPlacement (ships : list Ship.t) : bool :=
  match validateShipPlacement_run ships with Some _ => true | None => false end.

(** Fleets used as examples. *)
Definition row_of (r c : Z) (n : nat) : list Cell :=
  (λ i : nat, (r, c + Z.of_nat i)) <$> seq 0 n.
Definition col_of (r c : Z) (n : nat) : list Cell :=
  (λ i : nat, (r + Z.of_nat i, c)) <$> seq 0 n.

Definition fleet_rows : list Ship.t :=
  [ Ship.mk "carrier" (row_of 0 0 5);
    Ship.mk "battleship" (row_of 1 0 4);
    Ship.mk "cruiser" (row_of 2 0 3);
    Ship.mk "submarine" (row_of 3 0 3);
    Ship.mk "destroyer" (row_of 4 0 2) ].

Definition fleet_with_constructor : list Ship.t :=
  fleet_rows ++ [ Ship.mk "constructor" [(9, 9)] ].

(** ** Server state *)

(** A connection ([ws]) and a [uuidv4()] value.  Player objects are shared
    between the registry, the wait queue and the sessions; a reference to
    one is modelled by its [id], and the objects live in [heap]. *)
Definition Conn : Type := nat.
Definition Uuid : Type := nat.

Module Player.
Record t := mk {
  id : Uuid;
  name : string;
  ws : Conn;
  gameId : option Uuid;
  ships : option (list Ship.t);
  setupComplete : bool
}.
Definition set_gameId (g : Uuid) (p : t) : t :=
  mk (id p) (name p) (ws p) (Some g) (ships p) (setupComplete p).
Definition set_setup (s : list Ship.t) (p : t) : t :=
  mk (id p) (name p) (ws p) (gameId p) (Some s) true.
End Player.

Inductive Status := setup | in_progress | finished.

Global Instance Status_eq_dec : EqDecision Status.
Proof. solve_decision. Defined.

Module Game.
Record t := mk {
  id : Uuid;
  players : list Uuid;
  currentTurn : Z;
  status : Status;
  winner : option Uuid
}.
Definition set_status (st : Status) (g : t) : t :=
  mk (id g) (players g) (currentTurn g) st (winner g).
Definition set_currentTurn (n : Z) (g : t) : t :=
  mk (id g) (players g) n (status g) (winner g).
Definition set_winner (w : Uuid) (g : t) : t :=
  mk (id g) (players g) (currentTurn g) (status g) (Some w).
End Game.

(** The fields of the server object, the player objects they refer to, and
    the next value [uuidv4()] returns (it never returns a value twice). *)
Record Server := mkServer {
  waitingPlayers : list Uuid;
  activeGames : gmap Uuid Game.t;
  players : gmap Conn Uuid;
  heap : gmap Uuid Player.t;
  uuidNext : Uuid
}.

Definition set_waitingPlayers (w : list Uuid) (s : Server) : Server :=
  mkServer w (activeGames s) (players s) (heap s) (uuidNext s).
Definition set_activeGames (a : gmap Uuid Game.t) (s : Server) : Server :=
  mkServer (waitingPlayers s) a (players s) (heap s) (uuidNext s).
Definition set_players (p : gmap Conn Uuid) (s : Server) : Server :=
  mkServer (waitingPlayers s) (activeGames s) p (heap s) (uuidNext s).
Definition set_heap (h : gmap Uuid Player.t) (s : Server) : Server :=
  mkServer (waitingPlayers s) (activeGames s) (players s) h (uuidNext s).

(** [uuidv4()] *)
Definition uuidv4 (s : Server) : Uuid * Server :=
  (uuidNext s,
   mkServer (waitingPlayers s) (activeGames s) (players s) (heap s) (S (uuidNext s))).

(** The constructor: empty queue, no sessions, no players. *)
Definition initial : Server := mkServer [] ∅ ∅ ∅ 0%nat.

(** ** Wire messages *)

(** Client to server, by [message.type]; [unknown] is any other type. *)
Inductive ClientMessage :=
  | join_game (playerName : string)
  | setup_complete (ships : list Ship.t)
  | fire (coordinates : Cell)
  | fire_result (coordinates : Cell) (result : string) (shipSunk : option string)
  | unknown (type : string).

(** Server to client: [{ type, ...data }]. *)
Inductive Envelope :=
  | game_start (gameId : Uuid) (opponentName : string) (turnOrder : string)
  | opponent_fire (coordinates : Cell)
  | shot_result (coordinates : Cell) (result : string) (shipSunk : option string)
  | turn_change (isYourTurn : bool)
  | game_end (winner : string) (reason : option string)
  | error (message : string).

(** One [ws.send]: the connection and what is sent on it. *)
Definition Out : Type := Conn * Envelope.

(** ** Array helpers *)

(** [arr.findIndex(p => p.id === id)]: the index, or [-1]. *)
Definition findIndex (id : Uuid) (arr : list Uuid) : Z :=
  match list_find (λ p, p = id) arr with
  | Some (i, _) => Z.of_nat i
  | None => -1
  end.

(** [arr.find(pred)]: the element, or [undefined]. *)
Definition find (P : Uuid → Prop) `{∀ x, Decision (P x)} (arr : list Uuid)
  : option Uuid :=
  snd <$> list_find P arr.

(** [arr[i]] for a number [i]: [undefined] out of range. *)
Definition at_index (arr : list Uuid) (i : Z) : option Uuid :=
  if bool_decide (0 <= i) then arr !! Z.to_nat i else None.

(** [arr.splice(i, 1)] for [0 <= i]. *)
Definition splice1 (i : Z) (arr : list Uuid) : list Uuid :=
  delete (Z.to_nat i) arr.

(** The player registered for a connection: [this.players.get(ws)]. *)
Definition players_get (s : Server) (ws : Conn) : option Player.t :=
  players s !! ws ≫= λ r, heap s !! r.

(** [checkAllShipsSunk(ships, defenderWs)] *)
Definition checkAllShipsSunk (ships : option (list Ship.t)) (defenderWs : Conn)
  : bool := false.

(** ** Handlers *)

Section handlers.
(** [ws.readyState === WebSocket.OPEN], as found while one event is
    handled.  It only decides whether an envelope goes out; no handler
    reads it to change the state. *)
Variable readyOpen : Conn → bool.

(** [sendMessage(ws, type, data)] *)
Definition sendMessage (ws : Conn) (envelope : Envelope) : list Out :=
  if readyOpen ws then [(ws, envelope)] else [].

(** [sendError(ws, message)] *)
Definition sendError (ws : Conn) (message : string) : list Out :=
  sendMessage ws (error message).

(** A [TypeError] raised inside a handler ([.ws] of [undefined]) reaches
    the [catch] of the connection's message listener. *)
Definition caught (ws : Conn) : list Out :=
  sendError ws "Invalid message format".

(** [sendMessage(p.ws, type, data)] for a player reference [p].  A
    reference of a reachable state never dangles ([wf]); the [None] branch
    only makes the function total. *)
Definition sendTo (s : Server) (p : Uuid) (envelope : Envelope) : list Out :=
  match heap s !! p with
  | Some player => sendMessage (Player.ws player) envelope
  | None => []
  end.

(** [game.players.forEach((p, index) => sendMessage(p.ws, 'turn_change',
    { isYourTurn: index === game.currentTurn }))] *)
Definition announceTurn (s : Server) (game : Game.t) : list Out :=
  mjoin (imap (λ (index : nat) p,
                 sendTo s p (turn_change
                   (bool_decide (Z.of_nat index = Game.currentTurn game))))
              (Game.players game)).

(** [createGame(player1, player2)] *)
Definition createGame (s : Server) (player1 player2 : Uuid)
  : Server * list Out :=
  let '(gameId, s) := uuidv4 s in
  let game := Game.mk gameId [player1; player2] 0 setup None in
  let s := set_heap (alter (Player.set_gameId gameId) player1 (heap s)) s in
  let s := set_heap (alter (Player.set_gameId gameId) player2 (heap s)) s in
  let s := set_activeGames (<[gameId := game]> (activeGames s)) s in
  let name_of p := default "" (Player.name <$> heap s !! p) in
  (s,
   sendTo s player1 (game_start gameId (name_of player2) "first")
   ++ sendTo s player2 (game_start gameId (name_of player1) "second")).

(** [handleJoinGame(ws, message)] *)
Definition handleJoinGame (s : Server) (ws : Conn) (playerName : string)
  : Server * list Out :=
  let '(playerId, s) := uuidv4 s in
  let playerData := Player.mk playerId playerName ws None None false in
  let s := set_heap (<[playerId := playerData]> (heap s)) s in
  let s := set_players (<[ws := playerId]> (players s)) s in
  match waitingPlayers s with
  | opponent :: rest => createGame (set_waitingPlayers rest s) playerId opponent
  | [] => (set_waitingPlayers (waitingPlayers s ++ [playerId]) s, [])
  end.

(** [handleSetupComplete(ws, message)] *)
Definition handleSetupComplete (s : Server) (ws : Conn) (ships : list Ship.t)
  : Server * list Out :=
  match players_get s ws with
  | None => (s, sendError ws "Player not in a game")
  | Some player =>
      match Player.gameId player with
      | None => (s, sendError ws "Player not in a game")
      | Some gameId =>
          match activeGames s !! gameId with
          | None => (s, sendError ws "Game not found")
          | Some game =>
              match validateShipPlacement_run ships with
              | None => (s, sendError ws "Invalid ship placement")
              | Some ships =>
                  let s := set_heap (<[Player.id player := Player.set_setup ships player]>
                                       (heap s)) s in
                  let allReady :=
                    forallb (λ p, default false (Player.setupComplete <$> heap s !! p))
                            (Game.players game) in
                  if allReady then
                    let game := Game.set_status in_progress game in
                    let s := set_activeGames (<[gameId := game]> (activeGames s)) s in
                    (s, announceTurn s game)
                  else (s, [])
              end
          end
      end
  end.

(** [handleFire(ws, message)] *)
Definition handleFire (s : Server) (ws : Conn) (coordinates : Cell)
  : Server * list Out :=
  match players_get s ws with
  | None => (s, sendError ws "Player not in a game")
  | Some player =>
      match Player.gameId player with
      | None => (s, sendError ws "Player not in a game")
      | Some gameId =>
          match activeGames s !! gameId with
          | None => (s, sendError ws "Game not in progress")
          | Some game =>
              if bool_decide (Game.status game ≠ in_progress)
              then (s, sendError ws "Game not in progress")
              else
                let playerIndex := findIndex (Player.id player) (Game.players game) in
                if bool_decide (playerIndex ≠ Game.currentTurn game)
                then (s, sendError ws "Not your turn")
                else
                  match at_index (Game.players game) (1 - playerIndex) with
                  | None => (s, caught ws)
                  | Some opponent => (s, sendTo s opponent (opponent_fire coordinates))
                  end
          end
      end
  end.

(** [endGame(game, winnerId)]; [ws] is the connection whose listener a
    [TypeError] would reach. *)
Definition endGame (s : Server) (game : Game.t) (winnerId : Uuid) (ws : Conn)
  : Server * list Out :=
  let game := Game.set_winner winnerId (Game.set_status finished game) in
  let s := set_activeGames (<[Game.id game := game]> (activeGames s)) s in
  match find (λ p, p = winnerId) (Game.players game) with
  | None => (s, caught ws)
  | Some winner =>
      let winnerName := default "" (Player.name <$> heap s !! winner) in
      match find (λ p, p ≠ winnerId) (Game.players game) with
      | None => (s, sendTo s winner (game_end winnerName None) ++ caught ws)
      | Some loser =>
          (set_activeGames (delete (Game.id game) (activeGames s)) s,
           sendTo s winner (game_end winnerName None)
           ++ sendTo s loser (game_end winnerName None))
      end
  end.

(** [handleFireResult(ws, message)] *)
Definition handleFireResult (s : Server) (ws : Conn) (coordinates : Cell)
    (result : string) (shipSunk : option string) : Server * list Out :=
  match players_get s ws with
  | None => (s, sendError ws "Player not in a game")
  | Some player =>
      match Player.gameId player with
      | None => (s, sendError ws "Player not in a game")
      | Some gameId =>
          match activeGames s !! gameId with
          | None => (s, sendError ws "Game not found")
          | Some game =>
              let playerIndex := findIndex (Player.id player) (Game.players game) in
              match at_index (Game.players game) (1 - playerIndex) with
              | None => (s, caught ws)
              | Some opponent =>
                  let relayed := sendTo s opponent (shot_result coordinates result shipSunk) in
                  if bool_decide (result = "hit")
                     && checkAllShipsSunk (Player.ships player) ws
                  then
                    let '(s, out) := endGame s game opponent ws in
                    (s, relayed ++ out)
                  else
                    let game := Game.set_currentTurn (1 - Game.currentTurn game) game in
                    let s := set_activeGames (<[gameId := game]> (activeGames s)) s in
                    (s, relayed ++ announceTurn s game)
              end
          end
      end
  end.

(** [handleDisconnection(ws)] *)
Definition handleDisconnection (s : Server) (ws : Conn) : Server * list Out :=
  match players_get s ws with
  | None => (s, [])
  | Some player =>
      let waitingIndex := findIndex (Player.id player) (waitingPlayers s) in
      let s :=
        if bool_decide (waitingIndex ≠ -1)
        then set_waitingPlayers (splice1 waitingIndex (waitingPlayers s)) s
        else s in
      let '(s, out) :=
        match Player.gameId player with
        | None => (s, [])
        | Some gameId =>
            match activeGames s !! gameId with
            | None => (s, [])
            | Some game =>
                let out :=
                  match find (λ p, p ≠ Player.id player) (Game.players game) with
                  | Some opponent =>
                      sendTo s opponent
                        (game_end (default "" (Player.name <$> heap s !! opponent))
                                  (Some "opponent_disconnected"))
                  | None => []
                  end in
                (set_activeGames (delete gameId (activeGames s)) s, out)
            end
        end in
      (set_players (delete ws (players s)) s, out)
  end.

(** [handleClientMessage(ws, message)] *)
Definition handleClientMessage (s : Server) (ws : Conn) (message : ClientMessage)
  : Server * list Out :=
  match message with
  | join_game playerName => handleJoinGame s ws playerName
  | setup_complete ships => handleSetupComplete s ws ships
  | fire coordinates => handleFire s ws coordinates
  | fire_result coordinates result shipSunk =>
      handleFireResult s ws coordinates result shipSunk
  | unknown _ => (s, sendError ws "Unknown message type")
  end.
End handlers.

(** What the listeners installed by [initializeServer] receive on a
    connection: a frame that parses to a message, one that [JSON.parse]
    rejects, or the close of the connection. *)
Inductive Event :=
  | on_message (ws : Conn) (message : ClientMessage)
  | on_garbage (ws : Conn)
  | on_close (ws : Conn).

Definition step (readyOpen : Conn → bool) (s : Server) (e : Event)
  : Server * list Out :=
  match e with
  | on_message ws message => handleClientMessage readyOpen s ws message
  | on_garbage ws => (s, sendError readyOpen ws "Invalid message format")
  | on_close ws => handleDisconnection readyOpen s ws
  end.

(** A run of the server: the events in order, each with the ready states it
    finds; the final state and everything sent. *)
Fixpoint run (s : Server) (es : list ((Conn → bool) * Event)) : Server * list Out :=
  match es with
  | [] => (s, [])
  | (readyOpen, e) :: es' =>
      let '(s1, out1) := step readyOpen s e in
      let '(s2, out2) := run s1 es' in
      (s2, out1 ++ out2)
  end.

(** The states the server can be in. *)
Inductive reachable : Server → Prop :=
  | reachable_initial : reachable initial
  | reachable_step readyOpen s e :
      reachable s → reachable (step readyOpen s e).1.

(** ** Specification-level notions and example states *)

(** The cells of a ship are those of a horizontal or of a vertical run. *)
Definition straight_run (cells : list Cell) : Prop :=
  ∃ r c, cells ≡ₚ row_of r c (length cells) ∨ cells ≡ₚ col_of r c (length cells).

(** Row and column within [0..9]. *)
Definition in_bounds (cell : Cell) : Prop :=
  0 <= cell.1 ∧ cell.1 < 10 ∧ 0 <= cell.2 ∧ cell.2 < 10.

(** The flattened cell list of a fleet. *)
Definition cells (ships : list Ship.t) : list Cell :=
  mjoin (Ship.positions <$> ships).

(** How many ships of a fleet have type [k]. *)
Definition count (k : string) (ships : list Ship.t) : nat :=
  length (filter (λ ship, Ship.type ship = k) ships).

(** What the per-ship checks of the loop body ask of one ship. *)
Definition shipOK (ship : Ship.t) : Prop :=
  ∃ n, expectedLength (Ship.type ship) = Some n ∧ n ≠ 0 ∧
       Z.of_nat (length (Ship.positions ship)) = n ∧
       (validateShipContinuity (Ship.positions ship)).1 = true.

(** The counters as the loop leaves them. *)
Fixpoint countsAfter (shipCounts : gmap string Z) (ships : list Ship.t)
  : gmap string Z :=
  match ships with
  | [] => shipCounts
  | ship :: ships' =>
      countsAfter
        (<[ Ship.type ship := default 0 (shipCounts !! Ship.type ship) + 1 ]> shipCounts)
        ships'
  end.

(** The five kinds of the inventory. *)
Definition kinds : list string := expectedShips_entries.*1.

(** The required inventory: one ship of each kind, with its length. *)
Definition inventory : list (string * nat) :=
  [ ("carrier", 5%nat); ("battleship", 4%nat); ("cruiser", 3%nat);
    ("submarine", 3%nat); ("destroyer", 2%nat) ].

(** A legal placement, in the words of the rules: five ships, one of each
    kind, each with as many cells as its kind asks, all cells on the board,
    no cell shared by two ships, each ship a straight run. *)
Definition placement_legal (ships : list Ship.t) : Prop :=
  length ships = 5%nat ∧
  Ship.type <$> ships ≡ₚ inventory.*1 ∧
  Forall (λ ship, (Ship.type ship, length (Ship.positions ship)) ∈ inventory) ships ∧
  Forall in_bounds (cells ships) ∧
  (∀ i j si sj, i ≠ j → ships !! i = Some si → ships !! j = Some sj →
                Ship.positions si ## Ship.positions sj) ∧
  Forall (λ ship, straight_run (Ship.positions ship)) ships.

(** What every reachable state satisfies: a player object is stored under
    its id; ids handed out are below [uuidNext]; the registry points to a
    player bound to the connection; the queue holds at most one player, who
    has no session; a session is stored under its id, has two distinct
    members whose [gameId] is that id, a turn in [{0, 1}], and is not
    finished; a player whose [gameId] names a live session is a member. *)
Record wf (s : Server) : Prop := mk_wf {
  wf_heap_id : ∀ p pl, heap s !! p = Some pl → Player.id pl = p;
  wf_heap_fresh : ∀ p pl, heap s !! p = Some pl → (p < uuidNext s)%nat;
  wf_gameId_fresh : ∀ p pl g,
    heap s !! p = Some pl → Player.gameId pl = Some g → (g < uuidNext s)%nat;
  wf_registry : ∀ ws p,
    players s !! ws = Some p → ∃ pl, heap s !! p = Some pl ∧ Player.ws pl = ws;
  wf_queue_length : (length (waitingPlayers s) ≤ 1)%nat;
  wf_queue : ∀ p,
    p ∈ waitingPlayers s → ∃ pl, heap s !! p = Some pl ∧ Player.gameId pl = None;
  wf_games_key : ∀ gid g,
    activeGames s !! gid = Some g → Game.id g = gid ∧ (gid < uuidNext s)%nat;
  wf_games_players : ∀ gid g,
    activeGames s !! gid = Some g →
    ∃ p0 p1 pl0 pl1,
      Game.players g = [p0; p1] ∧ p0 ≠ p1 ∧
      heap s !! p0 = Some pl0 ∧ heap s !! p1 = Some pl1 ∧
      Player.gameId pl0 = Some gid ∧ Player.gameId pl1 = Some gid;
  wf_games_turn : ∀ gid g,
    activeGames s !! gid = Some g → Game.currentTurn g = 0 ∨ Game.currentTurn g = 1;
  wf_games_open : ∀ gid g,
    activeGames s !! gid = Some g → Game.status g ≠ finished ∧ Game.winner g = None;
  wf_member : ∀ p pl gid g,
    heap s !! p = Some pl → Player.gameId pl = Some gid →
    activeGames s !! gid = Some g → p ∈ Game.players g
}.

(** The first three assignments of [handleJoinGame]: a new player object,
    registered for [ws]. *)
Definition registered (s : Server) (ws : Conn) (playerName : string) : Server :=
  set_players (<[ws := uuidNext s]> (players s))
    (set_heap (<[uuidNext s := Player.mk (uuidNext s) playerName ws None None false]> (heap s))
       (uuidv4 s).2).

(** The session a connection is in: the player registered for it, the
    session its [gameId] names, when that session is in [activeGames]. *)
Definition session_of (s : Server) (ws : Conn) : option (Player.t * Uuid * Game.t) :=
  player ← players_get s ws;
  gameId ← Player.gameId player;
  game ← activeGames s !! gameId;
  Some (player, gameId, game).

(** The connection's player is the one to move in a session in progress. *)
Definition on_turn (s : Server) (ws : Conn) : bool :=
  match session_of s ws with
  | Some (player, _, game) =>
      bool_decide (Game.status game = in_progress)
      && bool_decide (findIndex (Player.id player) (Game.players game)
                      = Game.currentTurn game)
  | None => false
  end.

(** Every connection is open. *)
Definition allOpen : Conn → bool := λ _, true.

(** "A" joins on connection 0, then "B" on connection 1. *)
Definition two_joins : list ((Conn → bool) * Event) :=
  [ (allOpen, on_message 0%nat (join_game "A"));
    (allOpen, on_message 1%nat (join_game "B")) ].

(** Both submit a fleet. *)
Definition two_setups : list ((Conn → bool) * Event) :=
  [ (allOpen, on_message 0%nat (setup_complete fleet_rows));
    (allOpen, on_message 1%nat (setup_complete fleet_rows)) ].

Definition s_waiting : Server := (run initial [(allOpen, on_message 0%nat (join_game "A"))]).1.
Definition s_setup : Server := (run initial two_joins).1.
Definition s_battle : Server := (run s_setup two_setups).1.

(** One exchange of the battle: the player on connection [shooter] fires at
    [cell], the other connection reports [result]. *)
Definition exchange (shooter defender : Conn) (cell : Cell) (result : string)
    (shipSunk : option string) : list ((Conn → bool) * Event) :=
  [ (allOpen, on_message shooter (fire cell));
    (allOpen, on_message defender (fire_result cell result shipSunk)) ].

(** "B" (connection 1, index 0) shoots at each cell of one ship of "A" in
    turn; "A" reports the hits, names the ship with the last one, and
    misses at [(9, 9)] in between. *)
Fixpoint sink (type : string) (cells : list Cell) : list ((Conn → bool) * Event) :=
  match cells with
  | [] => []
  | [cell] => exchange 1%nat 0%nat cell "hit" (Some type)
  | cell :: cells' =>
      exchange 1%nat 0%nat cell "hit" None
      ++ exchange 0%nat 1%nat (9, 9) "miss" None ++ sink type cells'
  end.

(** All of A's fleet but the destroyer's last cell. *)
Definition sink_all_but_one : list ((Conn → bool) * Event) :=
  sink "carrier" (row_of 0 0 5) ++ exchange 0%nat 1%nat (9, 9) "miss" None
  ++ sink "battleship" (row_of 1 0 4) ++ exchange 0%nat 1%nat (9, 9) "miss" None
  ++ sink "cruiser" (row_of 2 0 3) ++ exchange 0%nat 1%nat (9, 9) "miss" None
  ++ sink "submarine" (row_of 3 0 3) ++ exchange 0%nat 1%nat (9, 9) "miss" None
  ++ exchange 1%nat 0%nat (4, 0) "hit" None
  ++ exchange 0%nat 1%nat (9, 9) "miss" None
  ++ [ (allOpen, on_message 1%nat (fire (4, 1))) ].

Definition s_last_shot : Server := (run s_battle sink_all_but_one).1.

Definition is_game_end (envelope : Envelope) : bool :=
  match envelope with game_end _ _ => true | _ => false end.

Definition is_error (envelope : Envelope) : bool :=
  match envelope with error _ => true | _ => false end.

(** A relayed verdict "hit". *)
Definition is_hit (envelope : Envelope) : bool :=
  match envelope with
  | shot_result _ result _ => bool_decide (result = "hit")
  | _ => false
  end.

(** The pairing as the specification words it: the waiter at index 0 and
    told "first", the new arrival at index 1 and told "second". *)
Definition waiter_moves_first (ro : Conn → bool) (s : Server) (ws : Conn)
    (playerName : string) : Prop :=
  ∀ waiter rest, waitingPlayers s = waiter :: rest →
    ∃ gid game newcomer wpl,
      activeGames (handleJoinGame ro s ws playerName).1 !! gid = Some game ∧
      Game.players game = [waiter; newcomer] ∧
      players (handleJoinGame ro s ws playerName).1 !! ws = Some newcomer ∧
      heap s !! waiter = Some wpl ∧
      (∃ n, (Player.ws wpl, game_start gid n "first")
              ∈ (handleJoinGame ro s ws playerName).2) ∧
      (∃ n, (ws, game_start gid n "second")
              ∈ (handleJoinGame ro s ws playerName).2).

(** [p] is one of the pair of the live session [gid]. *)
Definition member (s : Server) (p gid : Uuid) : Prop :=
  ∃ game, activeGames s !! gid = Some game ∧ p ∈ Game.players game.


(** "A" and "B" are in battle and the connection of "A" closes. *)
Definition s_forfeit : Server := (run s_battle [(allOpen, on_close 0%nat)]).1.

(** A player object the server still refers to. *)
Definition live (s : Server) (p : Uuid) : Prop :=
  (∃ ws, players s !! ws = Some p) ∨ p ∈ waitingPlayers s ∨ ∃ gid, member s p gid.

(** No two live player objects are bound to the same connection. *)
Definition connection_exclusive (s : Server) : Prop :=
  ∀ p q pl ql,
    live s p → live s q → heap s !! p = Some pl → heap s !! q = Some ql →
    Player.ws pl = Player.ws ql → p = q.

(** Connection 0 sends [join_game] twice. *)
Definition s_twice : Server :=
  (run initial [ (allOpen, on_message 0%nat (join_game "A"));
                 (allOpen, on_message 0%nat (join_game "A")) ]).1.


(** The teardown as the specification words it: whenever the connection
    [ws] of a party of a session in progress closes, the one envelope sent
    is the [game_end] for the remaining party, and the session leaves
    [activeGames]. *)
Definition disconnect_ends_session (ro : Conn → bool) (s : Server) (ws : Conn)
  : Prop :=
  ∀ gid game p pl,
    activeGames s !! gid = Some game → Game.status game = in_progress →
    p ∈ Game.players game → heap s !! p = Some pl → Player.ws pl = ws →
    ∃ opponent opl,
      opponent ∈ Game.players game ∧ opponent ≠ p ∧
      heap s !! opponent = Some opl ∧
      (handleDisconnection ro s ws).2
      = [(Player.ws opl, game_end (Player.name opl) (Some "opponent_disconnected"))] ∧
      activeGames (handleDisconnection ro s ws).1 !! gid = None.

(** The battle of "A" (connection 0) and "B" (connection 1), after
    connection 0 has sent a second [join_game]. *)
Definition s_rejoined : Server :=
  (run s_battle [(allOpen, on_message 0%nat (join_game "A2"))]).1.

(** ** Further notions: the validator, the server, the client *)

(** A ship as [validateShipPlacement] leaves it: same type, the cells as
    the in-place sort of [validateShipContinuity] left them. *)
Definition sortedShip (ship : Ship.t) : Ship.t :=
  Ship.mk (Ship.type ship) (validateShipContinuity (Ship.positions ship)).2.

(** The same ship with its cells listed in another order. *)
Definition same_ship (a b : Ship.t) : Prop :=
  Ship.type a = Ship.type b ∧ Ship.positions a ≡ₚ Ship.positions b.

(** A ship mirrored on the diagonal: [[row, col]] becomes [[col, row]]. *)
Definition transposeCell (cell : Cell) : Cell := (cell.2, cell.1).
Definition transposeShip (ship : Ship.t) : Ship.t :=
  Ship.mk (Ship.type ship) (transposeCell <$> Ship.positions ship).

(** The carrier of [fleet_rows] with its cells out of order. *)
Definition fleet_shuffled : list Ship.t :=
  Ship.mk "carrier" [(0, 3); (0, 0); (0, 4); (0, 1); (0, 2)] :: drop 1 fleet_rows.

(** Only connection [c0] is open. *)
Definition onlyOpen (c0 : Conn) : Conn → bool := λ c, bool_decide (c = c0).

(** What the reachable states keep about fleets: a player marked
    [setupComplete] holds a fleet the validator accepts, any other holds
    none, and the members of a session in progress are all marked. *)
Record fleets_ok (s : Server) : Prop := mk_fleets_ok {
  fo_ships : ∀ p pl, heap s !! p = Some pl → Player.setupComplete pl = true →
    ∃ fleet, Player.ships pl = Some fleet ∧ validateShipPlacement fleet = true;
  fo_none : ∀ p pl, heap s !! p = Some pl → Player.setupComplete pl = false →
    Player.ships pl = None;
  fo_progress : ∀ gid g p,
    activeGames s !! gid = Some g → Game.status g = in_progress →
    p ∈ Game.players g →
    ∃ pl, heap s !! p = Some pl ∧ Player.setupComplete pl = true
}.

(** A run of [join_game] messages, one per connection and name given. *)
Definition joins (l : list (Conn * string)) : list ((Conn → bool) * Event) :=
  (λ cn, (allOpen, on_message cn.1 (join_game cn.2))) <$> l.

(** The messages that belong to a session. *)
Definition is_game_message (message : ClientMessage) : bool :=
  match message with
  | setup_complete _ | fire _ | fire_result _ _ _ => true
  | _ => false
  end.

(** The connection an event comes from. *)
Definition event_conn (e : Event) : Conn :=
  match e with on_message ws _ | on_garbage ws | on_close ws => ws end.


(** Four joins: "A" against "B" in session 2, "C" against "D" in session 5. *)
Definition s_two_sessions : Server :=
  (run initial (joins [(0%nat, "A"); (1%nat, "B"); (2%nat, "C"); (3%nat, "D")])).1.

(** ** The client (battleships-agent.js): boards, placement, shot verdicts

    Of [class BattleshipsAgent], the fields [ownBoard] and [placedShips] and
    the functions that compute with them.  Calls that only draw the page
    ([updateSetupBoard], [updatePlayerBoard], [showToast], the dock's
    [classList]) read these fields and write none; they are left out, the
    page being taken to hold the elements they look up. *)
Module Agent.

(** One cell of a board: [{ hasShip, isHit, shipType, shipId }].  A ship id
    is [`${type}_${Date.now()}`], kept as the pair it is built from. *)
Record BoardCell := mkCell {
  hasShip : bool;
  isHit : bool;
  shipType : option string;
  shipId : option (string * Z)
}.

(** [createEmptyBoard()]: ten rows of ten cells. *)
Definition createEmptyBoard : list (list BoardCell) :=
  replicate 10 (replicate 10 (mkCell false false None None)).

(** An entry of [placedShips]: [{ id, type, positions, orientation }]. *)
Record PlacedShip := mkShip {
  id : string * Z;
  type : string;
  positions : list Cell;
  orientation : string
}.

Record t := mk { ownBoard : list (list BoardCell); placedShips : list PlacedShip }.

(** [shipTypes] of the constructor, as [Object.entries] lists it. *)
Definition shipTypes : list (string * Expected.t) :=
  [ ("carrier",    Expected.mk 5 1);
    ("battleship", Expected.mk 4 1);
    ("cruiser",    Expected.mk 3 1);
    ("submarine",  Expected.mk 3 1);
    ("destroyer",  Expected.mk 2 1) ].

(** [arr[i]] for a number [i]: [undefined] out of range. *)
Definition at_ {A} (arr : list A) (i : Z) : option A :=
  if bool_decide (0 <= i) then arr !! Z.to_nat i else None.

(** [board[row][col]]; [None] when the row or the cell is [undefined], where
    reading or writing a field of it raises a [TypeError]. *)
Definition cellAt (board : list (list BoardCell)) (cell : Cell) : option BoardCell :=
  at_ board cell.1 ≫= λ row, at_ row cell.2.

(** The assignments [board[row][col].field = ...], as [f] on the cell. *)
Definition setCell (board : list (list BoardCell)) (cell : Cell) (f : BoardCell → BoardCell)
  : option (list (list BoardCell)) :=
  match cellAt board cell with
  | None => None
  | Some _ => Some (alter (alter f (Z.to_nat cell.2)) (Z.to_nat cell.1) board)
  end.

(** The loop [for (let i = 0; i < length; i++) if (cell(i).hasShip) return
    false] of [canPlaceShip], from index [i] with [n] rounds to go; [None]
    is a [TypeError]. *)
Fixpoint canPlaceLoop (board : list (list BoardCell)) (cellOf : Z → Cell) (i : Z) (n : nat)
  : option bool :=
  match n with
  | O => Some true
  | S n' =>
      match cellAt board (cellOf i) with
      | None => None
      | Some c =>
          if hasShip c then Some false
          else canPlaceLoop board cellOf (i + 1) n'
      end
  end.

(** The cell [i] steps from [[row, col]] in the given orientation. *)
Definition cellOf (row col : Z) (orientation : string) (i : Z) : Cell :=
  if bool_decide (orientation = "horizontal") then (row, col + i)
  else (row + i, col).

(** [canPlaceShip(row, col, length, orientation)] *)
Definition canPlaceShip (board : list (list BoardCell)) (row col length : Z) (orientation : string)
  : option bool :=
  if bool_decide (orientation = "horizontal") then
    if bool_decide (col + length > 10) then Some false
    else canPlaceLoop board (cellOf row col orientation) 0 (Z.to_nat length)
  else
    if bool_decide (row + length > 10) then Some false
    else canPlaceLoop board (cellOf row col orientation) 0 (Z.to_nat length).

(** What [placeShip] writes into a cell. *)
Definition markCell (type : string) (sid : string * Z) (c : BoardCell) : BoardCell :=
  mkCell true (isHit c) (Some type) (Some sid).

(** The loop of [placeShip]: the board and [positions] so far, and whether
    the loop ran to its end (a [TypeError] stops it where it is). *)
Fixpoint placeLoop (board : list (list BoardCell)) (cellOf : Z → Cell) (type : string)
    (sid : string * Z) (i : Z) (n : nat) (positions : list Cell)
  : list (list BoardCell) * list Cell * bool :=
  match n with
  | O => (board, positions, true)
  | S n' =>
      match setCell board (cellOf i) (markCell type sid) with
      | None => (board, positions, false)
      | Some board' =>
          placeLoop board' cellOf type sid (i + 1) n' (positions ++ [cellOf i])
      end
  end.

(** [placeShip(row, col, type, length, orientation)], [now] being what
    [Date.now()] returns; the flag tells whether it ran to its end. *)
Definition placeShip (agent : t) (row col : Z) (type : string) (length : Z)
    (orientation : string) (now : Z) : t * bool :=
  let shipId := (type, now) in
  let '(board, positions, ok) :=
    placeLoop (ownBoard agent) (cellOf row col orientation) type shipId 0
              (Z.to_nat length) [] in
  if ok then
    (mk board (placedShips agent ++ [mkShip shipId type positions orientation]), true)
  else (mk board (placedShips agent), false).

(** The statement [if (canPlaceShip(...)) placeShip(...)] that
    [handleDrop], [handleCellClick] and [randomPlacement] share: the agent
    afterwards, and whether a ship was placed. *)
Definition tryPlace (agent : t) (row col : Z) (type : string) (length : Z)
    (orientation : string) (now : Z) : t * bool :=
  match canPlaceShip (ownBoard agent) row col length orientation with
  | Some true => placeShip agent row col type length orientation now
  | _ => (agent, false)
  end.

(** [ship.positions.every(([row, col]) => board[row][col].isHit)] *)
Fixpoint everyHit (board : list (list BoardCell)) (positions : list Cell) : option bool :=
  match positions with
  | [] => Some true
  | cell :: rest =>
      match cellAt board cell with
      | None => None
      | Some c => if isHit c then everyHit board rest else Some false
      end
  end.

(** [isShipSunk(ship)] *)
Definition isShipSunk (agent : t) (ship : PlacedShip) : option bool :=
  everyHit (ownBoard agent) (positions ship).

(** The assignment [cell.isHit = true]. *)
Definition hitCell (c : BoardCell) : BoardCell :=
  mkCell (hasShip c) true (shipType c) (shipId c).

(** [handleOpponentFire(message)]: the agent afterwards and the message
    handed to [sendMessage]; no message when a [TypeError] cut it short. *)
Definition handleOpponentFire (agent : t) (coordinates : Cell)
  : t * option ClientMessage :=
  match cellAt (ownBoard agent) coordinates with
  | None => (agent, None)
  | Some cell =>
      let board :=
        alter (alter hitCell (Z.to_nat coordinates.2))
              (Z.to_nat coordinates.1) (ownBoard agent) in
      let agent := mk board (placedShips agent) in
      if hasShip cell then
        match list_find (λ s, Some (id s) = shipId cell) (placedShips agent) with
        | Some (_, ship) =>
            match isShipSunk agent ship with
            | None => (agent, None)
            | Some true =>
                (agent, Some (fire_result coordinates "hit" (Some (type ship))))
            | Some false => (agent, Some (fire_result coordinates "hit" None))
            end
        | None => (agent, Some (fire_result coordinates "hit" None))
        end
      else (agent, Some (fire_result coordinates "miss" None))
  end.

(** [completeSetup()]: the [setup_complete] message, unless a ship is
    still to be placed. *)
Definition completeSetup (agent : t) : option ClientMessage :=
  if bool_decide (length (placedShips agent) ≠ length shipTypes) then None
  else Some (setup_complete
               ((λ ship, Ship.mk (type ship) (positions ship)) <$> placedShips agent)).

(** One round of the [while] loop of [randomPlacement]: the row and the
    column drawn ([Math.floor(Math.random() * 10)]), whether the third draw
    is below 0.5, and the clock [placeShip] would read. *)
Record Draw := mkDraw { row : Z; col : Z; horizontal : bool; now : Z }.

(** The [while (!placed && attempts < 100)] loop for one ship type, from
    draw number [k] with [attempts] rounds left: the agent, the number of
    the next draw, and whether a [TypeError] ended it. *)
Fixpoint placeAttempts (draws : nat → Draw) (k : nat) (agent : t) (type : string)
    (length : Z) (attempts : nat) : t * nat * bool :=
  match attempts with
  | O => (agent, k, false)
  | S attempts' =>
      let d := draws k in
      let orientation := if horizontal d then "horizontal" else "vertical" in
      match canPlaceShip (ownBoard agent) (row d) (col d) length orientation with
      | None => (agent, S k, true)
      | Some true =>
          let '(agent, ok) :=
            placeShip agent (row d) (col d) type length orientation (now d) in
          (agent, S k, negb ok)
      | Some false => placeAttempts draws (S k) agent type length attempts'
      end
  end.

(** The [forEach] over the ship types. *)
Fixpoint placeAll (draws : nat → Draw) (k : nat) (agent : t)
    (types : list (string * Expected.t)) : t :=
  match types with
  | [] => agent
  | (type, config) :: rest =>
      let '(agent, k, thrown) :=
        placeAttempts draws k agent type (Expected.length config) 100 in
      if thrown then agent else placeAll draws k agent rest
  end.

(** [randomPlacement()], after [clearAllPlacements()] has emptied the board
    and the list of ships. *)
Definition randomPlacement (draws : nat → Draw) : t :=
  placeAll draws 0 (mk createEmptyBoard []) shipTypes.

End Agent.

(** Draws that place the five ships in the rows 0 to 4, each at its first
    attempt. *)
Definition draws_rows (k : nat) : Agent.Draw :=
  Agent.mkDraw (Z.of_nat k) 0 true 1000.

(** A board of ten rows of ten cells. *)
Definition board_shape (board : list (list Agent.BoardCell)) : Prop :=
  length board = 10%nat ∧ Forall (λ row, length row = 10%nat) board.

(** The cells [placeShip] goes through: [n] steps from [[row, col]]. *)
Definition run_cells (row col : Z) (orientation : string) (n : nat) : list Cell :=
  (λ k : nat, Agent.cellOf row col orientation (Z.of_nat k)) <$> seq 0 n.

(** All the cells of the placed ships. *)
Definition allCells (agent : Agent.t) : list Cell :=
  mjoin (Agent.positions <$> Agent.placedShips agent).

(** The cell has been shot at. *)
Definition wasHit (agent : Agent.t) (cell : Cell) : Prop :=
  ∃ c, Agent.cellAt (Agent.ownBoard agent) cell = Some c ∧ Agent.isHit c = true.

(** The fleet as [completeSetup] sends it. *)
Definition fleet_of (agent : Agent.t) : list Ship.t :=
  (λ ship, Ship.mk (Agent.type ship) (Agent.positions ship)) <$> Agent.placedShips agent.

(** What placing ships through [canPlaceShip] keeps: the board is ten by
    ten; every placed ship is a row or a column of cells; no two cells of
    the placed ships coincide; a cell of the board has a ship exactly if it
    is one of these, and then it carries the id of its ship; ids start with
    the type. *)
Record placed_ok (agent : Agent.t) : Prop := mk_placed_ok {
  ok_shape : board_shape (Agent.ownBoard agent);
  ok_runs : Forall (λ ship, ∃ r c,
                Agent.positions ship = row_of r c (length (Agent.positions ship)) ∨
                Agent.positions ship = col_of r c (length (Agent.positions ship)))
              (Agent.placedShips agent);
  ok_nodup : NoDup (allCells agent);
  ok_marks : ∀ cell c, Agent.cellAt (Agent.ownBoard agent) cell = Some c →
               Agent.hasShip c = true ↔ cell ∈ allCells agent;
  ok_ids : ∀ ship cell, ship ∈ Agent.placedShips agent →
             cell ∈ Agent.positions ship →
             ∃ c, Agent.cellAt (Agent.ownBoard agent) cell = Some c ∧
                  Agent.shipId c = Some (Agent.id ship);
  ok_types : Forall (λ ship, (Agent.id ship).1 = Agent.type ship)
               (Agent.placedShips agent)
}.

(** A placed ship as a pair of its type and its number of cells, and the
    pairs [shipTypes] asks for. *)
Definition entry_of (ship : Agent.PlacedShip) : string * Z :=
  (Agent.type ship, Z.of_nat (length (Agent.positions ship))).
Definition asked (types : list (string * Expected.t)) : list (string * Z) :=
  (λ e, (e.1, Expected.length e.2)) <$> types.

(** The board after [cell.isHit = true] at [coordinates]. *)
Definition hitBoard (board : list (list Agent.BoardCell)) (coordinates : Cell)
  : list (list Agent.BoardCell) :=
  alter (alter Agent.hitCell (Z.to_nat coordinates.2)) (Z.to_nat coordinates.1) board.

(** The agent of [randomPlacement] with the draws [draws_rows]: the five
    ships in the rows 0 to 4, from column 0. *)
Definition agent_rows : Agent.t := Agent.randomPlacement draws_rows.

(** The same after a shot at [[4, 0]], the first cell of the destroyer. *)
Definition agent_rows_shot : Agent.t := (Agent.handleOpponentFire agent_rows (4, 0)).1.

(** * Properties *)

Example fleet_rows_ok : validateShipPlacement fleet_rows = true.
Proof. vm_compute. reflexivity. Qed.

Example fleet_with_constructor_ok :
  validateShipPlacement fleet_with_constructor = true.
Proof. vm_compute. reflexivity. Qed.

(** The carrier turned by 90 degrees, and its cells given out of order. *)
Example fleet_rotated_ok :
  validateShipPlacement
    (Ship.mk "carrier" (col_of 5 9 5) :: drop 1 fleet_rows) = true ∧
  validateShipPlacement
    (Ship.mk "carrier" [(0, 3); (0, 0); (0, 4); (0, 1); (0, 2)] :: drop 1 fleet_rows)
  = true.
Proof. vm_compute. done. Qed.

(** No destroyer; two cruisers and no submarine; a bent ship; a gap; a
    shared cell; a cell off the board. *)
Example fleets_rejected :
  validateShipPlacement (take 4 fleet_rows) = false ∧
  validateShipPlacement
    (take 3 fleet_rows ++ [Ship.mk "cruiser" (row_of 3 0 3); Ship.mk "destroyer" (row_of 4 0 2)])
  = false ∧
  validateShipPlacement
    (take 4 fleet_rows ++ [Ship.mk "destroyer" [(4, 0); (5, 1)]]) = false ∧
  validateShipPlacement
    (take 4 fleet_rows ++ [Ship.mk "destroyer" [(4, 0); (4, 2)]]) = false ∧
  validateShipPlacement
    (take 4 fleet_rows ++ [Ship.mk "destroyer" [(3, 2); (4, 2)]]) = false ∧
  validateShipPlacement
    (take 4 fleet_rows ++ [Ship.mk "destroyer" [(9, 9); (9, 10)]]) = false.
Proof. vm_compute. done. Qed.

(** "A", "B" and "C" join in turn: "A" and "B" are paired on the join of
    "B", and "C" waits. *)
Example three_joins :
  let s := (run initial (two_joins ++ [(λ _, true, on_message 2%nat (join_game "C"))])).1 in
  waitingPlayers s_waiting = [0%nat] ∧
  waitingPlayers s_setup = [] ∧ dom (activeGames s_setup) = {[ 2%nat ]} ∧
  waitingPlayers s = [3%nat] ∧ dom (activeGames s) = {[ 2%nat ]} ∧
  (Player.name <$> heap s !! 3%nat) = Some "C".
Proof. vm_compute. done. Qed.

(** ** The validator, characterised *)

Lemma cellLe_spec a b : cellLe a b ↔ a.1 < b.1 ∨ (a.1 = b.1 ∧ a.2 <= b.2).
Proof. unfold cellLe, compareCells. case_bool_decide; lia. Qed.

Global Instance cellLe_total : Total cellLe.
Proof. intros a b. rewrite !cellLe_spec. lia. Qed.

Global Instance cellLe_trans : Transitive cellLe.
Proof. intros a b c. rewrite !cellLe_spec. lia. Qed.

Global Instance cellLe_antisymm : AntiSymm (=) cellLe.
Proof.
  intros [a1 a2] [b1 b2]. rewrite !cellLe_spec. simpl. intros ? ?.
  f_equal; lia.
Qed.

Lemma sortCells_unique (l sorted : list Cell) :
  Sorted cellLe sorted → sorted ≡ₚ l → sortCells l = sorted.
Proof.
  intros Hs Hp. apply (Sorted_unique cellLe).
  - apply (Sorted_merge_sort cellLe).
  - done.
  - unfold sortCells. by rewrite merge_sort_Permutation.
Qed.

Lemma row_of_cons r c n : row_of r c (S n) = (r, c) :: row_of r (c + 1) n.
Proof.
  unfold row_of. simpl. f_equal; [f_equal; lia|].
  rewrite <- fmap_S_seq, <- list_fmap_compose. apply list_fmap_ext.
  intros _ i _. simpl. f_equal. lia.
Qed.

Lemma col_of_cons r c n : col_of r c (S n) = (r, c) :: col_of (r + 1) c n.
Proof.
  unfold col_of. simpl. f_equal; [f_equal; lia|].
  rewrite <- fmap_S_seq, <- list_fmap_compose. apply list_fmap_ext.
  intros _ i _. simpl. f_equal. lia.
Qed.

Lemma row_of_length r c n : length (row_of r c n) = n.
Proof. unfold row_of. by rewrite length_fmap, length_seq. Qed.

Lemma col_of_length r c n : length (col_of r c n) = n.
Proof. unfold col_of. by rewrite length_fmap, length_seq. Qed.

Lemma row_of_sorted r c n : Sorted cellLe (row_of r c n).
Proof.
  revert c. induction n as [|n IH]; intros c; [constructor|].
  rewrite row_of_cons. constructor; [apply IH|].
  destruct n; [constructor|]. rewrite row_of_cons. constructor.
  apply cellLe_spec. simpl. lia.
Qed.

Lemma col_of_sorted r c n : Sorted cellLe (col_of r c n).
Proof.
  revert r. induction n as [|n IH]; intros r; [constructor|].
  rewrite col_of_cons. constructor; [apply IH|].
  destruct n; [constructor|]. rewrite col_of_cons. constructor.
  apply cellLe_spec. simpl. lia.
Qed.

(** The loop accepts exactly the runs that start at [prev]. *)
Lemma continuityLoop_row r c rest :
  Forall (λ pos : Cell, pos.1 = r) rest →
  continuityLoop true (r, c) rest = true ↔
  (r, c) :: rest = row_of r c (S (length rest)).
Proof.
  revert c. induction rest as [|[r' c'] rest IH]; intros c Hrow.
  - rewrite row_of_cons. done.
  - apply Forall_cons in Hrow as [Hr Hrow]. cbn [fst] in Hr. subst r'.
    cbn [continuityLoop length fst snd]. rewrite row_of_cons.
    case_bool_decide as Hd.
    + split; [done|]. rewrite row_of_cons. intros [= Hc _]. lia.
    + assert (c' = c + 1) as -> by lia. rewrite IH by done.
      split; [intros Heq; by f_equal|intros Heq; by simplify_eq].
Qed.

Lemma continuityLoop_col r c rest :
  Forall (λ pos : Cell, pos.2 = c) rest →
  continuityLoop false (r, c) rest = true ↔
  (r, c) :: rest = col_of r c (S (length rest)).
Proof.
  revert r. induction rest as [|[r' c'] rest IH]; intros r Hcol.
  - rewrite col_of_cons. done.
  - apply Forall_cons in Hcol as [Hc Hcol]. cbn [snd] in Hc. subst c'.
    cbn [continuityLoop length fst snd]. rewrite col_of_cons.
    case_bool_decide as Hd.
    + split; [done|]. rewrite col_of_cons. intros [= Hr _]. lia.
    + assert (r' = r + 1) as -> by lia. rewrite IH by done.
      split; [intros Heq; by f_equal|intros Heq; by simplify_eq].
Qed.

Lemma forallb_Forall_row (r : Z) (l : list Cell) :
  forallb (λ pos : Cell, bool_decide (pos.1 = r)) l = true ↔
  Forall (λ pos : Cell, pos.1 = r) l.
Proof.
  induction l as [|x l IH]; simpl; [by split; [constructor|]|].
  rewrite andb_true_iff, Forall_cons, IH, bool_decide_eq_true. done.
Qed.

Lemma forallb_Forall_col (c : Z) (l : list Cell) :
  forallb (λ pos : Cell, bool_decide (pos.2 = c)) l = true ↔
  Forall (λ pos : Cell, pos.2 = c) l.
Proof.
  induction l as [|x l IH]; simpl; [by split; [constructor|]|].
  rewrite andb_true_iff, Forall_cons, IH, bool_decide_eq_true. done.
Qed.

Lemma row_of_rows r c n : Forall (λ pos : Cell, pos.1 = r) (row_of r c n).
Proof. unfold row_of. apply Forall_fmap, Forall_true. done. Qed.

Lemma col_of_cols r c n : Forall (λ pos : Cell, pos.2 = c) (col_of r c n).
Proof. unfold col_of. apply Forall_fmap, Forall_true. done. Qed.

(** [validateShipContinuity] on two cells or more accepts exactly the
    straight runs, in any order. *)
Lemma validateShipContinuity_spec (positions : list Cell) :
  (2 ≤ length positions)%nat →
  (validateShipContinuity positions).1 = true ↔ straight_run positions.
Proof.
  intros Hlen. unfold validateShipContinuity.
  rewrite bool_decide_false by lia.
  pose proof (Sorted_merge_sort cellLe positions) as Hsorted.
  pose proof (merge_sort_Permutation cellLe positions) as Hperm.
  fold (sortCells positions) in Hsorted, Hperm.
  pose proof (Permutation_length Hperm) as Hl.
  destruct (sortCells positions) as [|[r c] rest] eqn:Hsort; [simpl in Hl; lia|].
  cbn [forallb fst snd]. rewrite !bool_decide_true by done. cbn [andb].
  cbn [length] in Hl.
  match goal with
  | |- context [negb ?h && negb ?v] => set (isHorizontal := h); set (isVertical := v)
  end.
  assert (Hrun : straight_run positions →
            ((r, c) :: rest = row_of r c (S (length rest)) ∧ isHorizontal = true) ∨
            ((r, c) :: rest = col_of r c (S (length rest)) ∧
             isHorizontal = false ∧ isVertical = true)).
  { intros (r0 & c0 & [Hrun|Hrun]); rewrite <- Hl in Hrun.
    - left.
      assert (Heq : sortCells positions = row_of r0 c0 (S (length rest)))
        by (apply sortCells_unique; [apply row_of_sorted|done]).
      rewrite Hsort in Heq. pose proof Heq as Heq'.
      rewrite row_of_cons in Heq'. injection Heq' as -> -> Hrest.
      split; [done|]. apply forallb_Forall_row. rewrite Hrest at 1.
      apply row_of_rows.
    - right.
      assert (Heq : sortCells positions = col_of r0 c0 (S (length rest)))
        by (apply sortCells_unique; [apply col_of_sorted|done]).
      rewrite Hsort in Heq. pose proof Heq as Heq'.
      rewrite col_of_cons in Heq'. injection Heq' as -> -> Hrest.
      split; [done|]. split.
      + subst isHorizontal. destruct rest as [|x rest']; [simpl in Hl; lia|].
        cbn [length] in Hrest. rewrite col_of_cons in Hrest.
        injection Hrest as -> _. cbn [forallb fst].
        rewrite bool_decide_false by lia. done.
      + apply forallb_Forall_col. rewrite Hrest at 1. apply col_of_cols. }
  destruct isHorizontal eqn:Hh; [|destruct isVertical eqn:Hv]; cbn [negb andb fst].
  - apply forallb_Forall_row in Hh. rewrite (continuityLoop_row _ _ _ Hh). split.
    + intros Heq. exists r, c. left. rewrite <- Hperm. cbn [length]. by rewrite <- Heq.
    + intros [[? _]|(_ & ? & _)]%Hrun; done.
  - apply forallb_Forall_col in Hv. rewrite (continuityLoop_col _ _ _ Hv). split.
    + intros Heq. exists r, c. right. rewrite <- Hperm. cbn [length]. by rewrite <- Heq.
    + intros [[_ ?]|(? & _)]%Hrun; done.
  - split; [done|]. intros [[_ ?]|(_ & _ & ?)]%Hrun; done.
Qed.

Lemma positionsLoop_Some occ ps occ' :
  positionsLoop occ ps = Some occ' ↔
  NoDup ps ∧ (∀ p, p ∈ ps → p ∉ occ) ∧ Forall in_bounds ps ∧
  occ' = list_to_set ps ∪ occ.
Proof.
  revert occ. induction ps as [|[row col] ps IH]; intros occ.
  - simpl. split.
    + intros [= <-]. repeat split; [constructor|set_solver|constructor|set_solver].
    + intros (_ & _ & _ & ->). f_equal. set_solver.
  - cbn [positionsLoop]. case_bool_decide as Hin.
    { split; [done|]. intros (_ & Hfresh & _). destruct (Hfresh (row, col)); [left|done]. }
    destruct (bool_decide (row < 0) || bool_decide (row >= 10)
              || bool_decide (col < 0) || bool_decide (col >= 10)) eqn:Hb.
    { split; [done|]. intros (_ & _ & Hbd & _). apply Forall_cons in Hbd as [Hbd _].
      unfold in_bounds in Hbd. simpl in Hbd.
      repeat (apply orb_true_iff in Hb as [Hb|Hb]);
        apply bool_decide_eq_true in Hb; lia. }
    repeat (apply orb_false_iff in Hb as [Hb ?]).
    repeat match goal with H : bool_decide _ = false |- _ =>
             apply bool_decide_eq_false in H end.
    rewrite IH. rewrite NoDup_cons, Forall_cons. split.
    + intros (Hnd & Hfresh & Hbd & ->). repeat split; try done.
      * intros Hin'. apply (Hfresh _ Hin'). set_solver.
      * intros p [->|Hp]%elem_of_cons; [done|]. intros ?. apply (Hfresh _ Hp). set_solver.
      * simpl; lia.
      * simpl; lia.
      * simpl; lia.
      * simpl; lia.
      * set_solver.
    + intros ((Hnin & Hnd) & Hfresh & (_ & Hbd) & ->). repeat split; try done.
      * intros p Hp [->%elem_of_singleton|Ho]%elem_of_union; [done|].
        apply (Hfresh p); [by right|done].
      * set_solver.
Qed.

Lemma cells_cons ship ships :
  cells (ship :: ships) = Ship.positions ship ++ cells ships.
Proof. done. Qed.

(** The outer loop goes through exactly when every ship passes its own
    checks and the cells of the fleet are distinct, free and in bounds. *)
Lemma shipsLoop_is_Some counts occ ships :
  is_Some (shipsLoop counts occ ships) ↔
  Forall shipOK ships ∧ NoDup (cells ships) ∧
  (∀ p, p ∈ cells ships → p ∉ occ) ∧ Forall in_bounds (cells ships).
Proof.
  revert counts occ. induction ships as [|ship ships IH]; intros counts occ.
  - simpl. split; [|by eauto]. intros _.
    repeat split; [constructor|constructor|by intros ? ?%elem_of_nil|constructor].
  - cbn [shipsLoop]. rewrite cells_cons, Forall_cons, NoDup_app, Forall_app.
    unfold shipOK at 1.
    destruct (expectedLength (Ship.type ship)) as [n|];
      [|split; [by intros [? ?]|by intros (((? & ? & _) & _) & _)]].
    destruct (bool_decide (n = 0)
              || bool_decide (Z.of_nat (length (Ship.positions ship)) ≠ n)) eqn:Hlen.
    { split; [by intros [? ?]|]. intros (((n' & [= <-] & Hn0 & Hl & _) & _) & _).
      apply orb_true_iff in Hlen as [Hb|Hb]; apply bool_decide_eq_true in Hb; done. }
    apply orb_false_iff in Hlen as [Hn0 Hl].
    apply bool_decide_eq_false in Hn0. apply bool_decide_eq_false in Hl.
    assert (Hl' : Z.of_nat (length (Ship.positions ship)) = n)
      by (destruct (decide (Z.of_nat (length (Ship.positions ship)) = n)); done).
    destruct (positionsLoop occ (Ship.positions ship)) as [occ1|] eqn:Hpos.
    2: { split; [by intros [? ?]|].
         intros (_ & (Hnd & Hdisj & _) & Hfresh & (Hbd & _)).
         assert (is_Some (positionsLoop occ (Ship.positions ship))) as [? Hs];
           [|congruence].
         eexists. apply positionsLoop_Some. repeat split; try done.
         intros p Hp. apply Hfresh, elem_of_app. by left. }
    apply positionsLoop_Some in Hpos as (Hnd & Hfresh & Hbd & ->).
    destruct (validateShipContinuity (Ship.positions ship)) as [ok sorted] eqn:Hcont.
    destruct ok; cbn [negb].
    2: { split; [by intros [? ?]|]. by intros (((n' & _ & _ & _ & ?) & _) & _). }
    match goal with
    | |- is_Some (match ?x with _ => _ end) ↔ _ =>
        assert (Hiff : is_Some (match x with
                                | Some (c, s') => Some (c, Ship.mk (Ship.type ship) sorted :: s')
                                | None => None end) ↔ is_Some x)
    end.
    { match goal with |- context [shipsLoop ?c ?o ships] =>
        destruct (shipsLoop c o ships) as [[? ?]|] end; split; intros [? ?]; eauto; done. }
    match goal with
    | |- is_Some ?a ↔ _ =>
        match type of Hiff with is_Some ?b ↔ _ => change a with b end
    end.
    rewrite Hiff, IH. split.
    + intros (Hok & Hnd' & Hfresh' & Hbd'). repeat split; try done.
      * exists n. done.
      * intros p Hp Hp'. apply (Hfresh' _ Hp'). set_solver.
      * intros p [Hp|Hp]%elem_of_app; [by apply Hfresh|].
        intros ?. apply (Hfresh' _ Hp). set_solver.
    + intros ((_ & Hok) & (_ & Hdisj & Hnd') & Hfresh' & (_ & Hbd')).
      repeat split; try done.
      intros p Hp [Ho|Ho]%elem_of_union.
      * apply elem_of_list_to_set in Ho. by apply (Hdisj p).
      * apply (Hfresh' p); [apply elem_of_app; by right|done].
Qed.

Lemma shipsLoop_counts counts occ ships counts' ships' :
  shipsLoop counts occ ships = Some (counts', ships') →
  counts' = countsAfter counts ships.
Proof.
  revert counts occ counts' ships'.
  induction ships as [|ship ships IH]; intros counts occ counts' ships'.
  - by intros [= <- <-].
  - cbn [shipsLoop countsAfter].
    destruct (expectedLength _); [|done].
    destruct (_ || _); [done|].
    destruct (positionsLoop _ _); [|done].
    destruct (validateShipContinuity _) as [[] ?]; [|done]. cbn [negb].
    match goal with |- context [shipsLoop ?c ?o ships] =>
      destruct (shipsLoop c o ships) as [[c' s']|] eqn:Hrec end; [|done].
    intros [= <- <-]. by eapply IH.
Qed.

Lemma count_cons k ship ships :
  count k (ship :: ships)
  = ((if decide (Ship.type ship = k) then 1 else 0) + count k ships)%nat.
Proof. unfold count. rewrite filter_cons. by case_decide. Qed.

Lemma countsAfter_lookup counts ships k :
  default 0 (countsAfter counts ships !! k)
  = default 0 (counts !! k) + Z.of_nat (count k ships) ∧
  (count k ships = 0%nat → countsAfter counts ships !! k = counts !! k) ∧
  (count k ships ≠ 0%nat → is_Some (countsAfter counts ships !! k)).
Proof.
  revert counts. induction ships as [|ship ships IH]; intros counts.
  - cbn. repeat split; [lia|done].
  - cbn [countsAfter]. rewrite count_cons.
    destruct (IH (<[Ship.type ship := default 0 (counts !! Ship.type ship) + 1]> counts))
      as (Hd & H0 & Hn).
    case_decide as Hk.
    + subst k. rewrite lookup_insert_eq in Hd, H0. simpl in Hd.
      repeat split; [lia|lia|]. intros _.
      destruct (decide (count (Ship.type ship) ships = 0%nat)) as [Hz|Hz].
      * rewrite H0 by done. eauto.
      * by apply Hn.
    + rewrite lookup_insert_ne in Hd, H0 by done.
      repeat split; [lia|done|done].
Qed.

Lemma countsAfter_one ships k :
  countsAfter ∅ ships !! k = Some 1 ↔ count k ships = 1%nat.
Proof.
  destruct (countsAfter_lookup ∅ ships k) as (Hd & H0 & Hn).
  rewrite lookup_empty in Hd, H0. simpl in Hd. split.
  - intros Hs. rewrite Hs in Hd. simpl in Hd. lia.
  - intros Hc. destruct Hn as [z Hz]; [lia|]. rewrite Hz in Hd |- *.
    simpl in Hd. f_equal. lia.
Qed.

Lemma countsLoop_spec counts :
  countsLoop counts = true ↔ ∀ k, k ∈ kinds → counts !! k = Some 1.
Proof.
  unfold countsLoop, kinds. cbn [forallb expectedShips_entries fmap list_fmap fst
                                 Expected.count].
  rewrite !andb_true_iff, !negb_true_iff, !bool_decide_eq_false. split.
  - intros (H1 & H2 & H3 & H4 & H5 & _) k Hk.
    repeat (apply elem_of_cons in Hk as [->|Hk];
            [match goal with H : ¬ (counts !! _ ≠ _) |- counts !! ?x = _ =>
               destruct (decide (counts !! x = Some 1)); [done|] end; naive_solver|]).
    by apply elem_of_nil in Hk.
  - intros H. repeat split; try (intros Hne; apply Hne, H; set_solver).
Qed.

(** [validateShipPlacement], characterised: every ship passes the checks of
    the loop body, the cells of the fleet are distinct and in bounds, and
    each of the five kinds occurs once.  Nothing bounds the number of
    ships whose type is not one of the five. *)
Theorem validateShipPlacement_spec ships :
  validateShipPlacement ships = true ↔
  Forall shipOK ships ∧ NoDup (cells ships) ∧ Forall in_bounds (cells ships) ∧
  ∀ k, k ∈ kinds → count k ships = 1%nat.
Proof.
  unfold validateShipPlacement, validateShipPlacement_run.
  pose proof (shipsLoop_is_Some ∅ ∅ ships) as Hsome.
  destruct (shipsLoop ∅ ∅ ships) as [[counts ships']|] eqn:Hloop.
  - apply shipsLoop_counts in Hloop as ->.
    destruct (proj1 Hsome) as (Hok & Hnd & _ & Hbd); [eauto|].
    destruct (countsLoop (countsAfter ∅ ships)) eqn:Hc.
    + pose proof (proj1 (countsLoop_spec _) Hc) as Hc'. split; [|done]. intros _.
      repeat split; try done. intros k Hk. by apply countsAfter_one, Hc'.
    + split; [done|]. intros (_ & _ & _ & Hcount).
      assert (countsLoop (countsAfter ∅ ships) = true); [|congruence].
      apply countsLoop_spec. intros k Hk. by apply countsAfter_one, Hcount.
  - split; [done|]. intros (Hok & Hnd & Hbd & _).
    destruct (proj2 Hsome) as [? ?]; [|done].
    repeat split; try done.
Qed.

(** ** The validator against the rules of placement *)

Lemma kinds_inventory : kinds = inventory.*1.
Proof. reflexivity. Qed.

Lemma inventory_expectedLength k n :
  (k, n) ∈ inventory → expectedLength k = Some (Z.of_nat n) ∧ (2 ≤ n)%nat.
Proof.
  unfold inventory. intros H.
  repeat (apply elem_of_cons in H as [[= -> ->]|H]; [split; [by vm_compute|lia]|]).
  by apply elem_of_nil in H.
Qed.

Lemma expectedLength_kinds :
  expectedLength "carrier" = Some 5 ∧ expectedLength "battleship" = Some 4 ∧
  expectedLength "cruiser" = Some 3 ∧ expectedLength "submarine" = Some 3 ∧
  expectedLength "destroyer" = Some 2.
Proof. by vm_compute. Qed.

Lemma kinds_expectedLength k n :
  k ∈ kinds → expectedLength k = Some (Z.of_nat n) → (k, n) ∈ inventory.
Proof.
  destruct expectedLength_kinds as (E1 & E2 & E3 & E4 & E5).
  unfold kinds. cbn. intros H He.
  repeat (apply elem_of_cons in H as [->|H];
          [rewrite ?E1, ?E2, ?E3, ?E4, ?E5 in He; injection He as Hn;
           replace n with (Z.to_nat (Z.of_nat n)) by lia; rewrite <- Hn;
           vm_compute; repeat constructor|]).
  by apply elem_of_nil in H.
Qed.

Lemma row_of_NoDup r c n : NoDup (row_of r c n).
Proof.
  unfold row_of. apply NoDup_fmap_2; [|apply NoDup_seq].
  intros i j [= ?]. lia.
Qed.

Lemma col_of_NoDup r c n : NoDup (col_of r c n).
Proof.
  unfold col_of. apply NoDup_fmap_2; [|apply NoDup_seq].
  intros i j [= ?]. lia.
Qed.

Lemma straight_run_NoDup l : straight_run l → NoDup l.
Proof.
  intros (r & c & [H|H]); rewrite H; [apply row_of_NoDup|apply col_of_NoDup].
Qed.

(** Distinct cells over the fleet: distinct within each ship and no cell
    shared by two ships. *)
Lemma cells_NoDup ships :
  NoDup (cells ships) ↔
  Forall (λ ship, NoDup (Ship.positions ship)) ships ∧
  (∀ i j si sj, i ≠ j → ships !! i = Some si → ships !! j = Some sj →
                Ship.positions si ## Ship.positions sj).
Proof.
  induction ships as [|ship ships IH].
  - split; [|constructor]. intros _. split; [constructor|]. by intros [|?] ? ? ? ? ?.
  - rewrite cells_cons, NoDup_app, Forall_cons, IH. split.
    + intros (Hnd & Hdisj & Hall & Hpair). split; [done|].
      intros [|i] [|j] si sj Hij; cbn; intros Hi Hj; simplify_eq.
      * intros p Hp Hp'. apply (Hdisj p Hp). unfold cells.
        apply list_elem_of_join. exists (Ship.positions sj). split; [done|].
        apply list_elem_of_fmap. exists sj. split; [done|].
        by eapply list_elem_of_lookup_2.
      * intros p Hp Hp'. apply (Hdisj p Hp'). unfold cells.
        apply list_elem_of_join. exists (Ship.positions si). split; [done|].
        apply list_elem_of_fmap. exists si. split; [done|].
        by eapply list_elem_of_lookup_2.
      * apply (Hpair i j); [congruence|done|done].
    + intros ((Hnd & Hall) & Hpair). repeat split; try done.
      * intros p Hp Hin. unfold cells in Hin.
        apply list_elem_of_join in Hin as (l & Hpl & Hl).
        apply list_elem_of_fmap in Hl as (sj & -> & Hsj).
        apply list_elem_of_lookup_1 in Hsj as [j Hj].
        by apply (Hpair 0%nat (S j) ship sj ltac:(done) eq_refl Hj p).
      * intros i j si sj Hij Hi Hj. apply (Hpair (S i) (S j)); [congruence|done|done].
Qed.

Lemma count_types k ships :
  count k ships = length (filter (λ t, t = k) (Ship.type <$> ships)).
Proof.
  unfold count. induction ships as [|ship ships IH]; [done|].
  rewrite fmap_cons, !filter_cons. case_decide; simpl; by rewrite IH.
Qed.

Lemma NoDup_of_counts (l : list string) :
  (∀ x, x ∈ l → length (filter (λ t, t = x) l) = 1%nat) → NoDup l.
Proof.
  induction l as [|a l IH]; [constructor|]. intros H. constructor.
  - intros Hin. specialize (H a ltac:(left)). rewrite filter_cons_True in H by done.
    simpl in H. assert (a ∈ filter (λ t, t = a) l) as Hf by (by apply list_elem_of_filter).
    destruct (filter (λ t, t = a) l); [by apply elem_of_nil in Hf|simpl in H; lia].
  - apply IH. intros x Hx. specialize (H x ltac:(by right)).
    rewrite filter_cons in H. case_decide; [|done].
    subst x. simpl in H. assert (a ∈ filter (λ t, t = a) l) as Hf
      by (by apply list_elem_of_filter).
    destruct (filter (λ t, t = a) l); [by apply elem_of_nil in Hf|simpl in H; lia].
Qed.

(** One ship of each kind and no other type: the types are the inventory,
    in some order. *)
Lemma types_inventory ships :
  Ship.type <$> ships ≡ₚ inventory.*1 ↔
  Forall (λ ship, Ship.type ship ∈ kinds) ships ∧
  ∀ k, k ∈ kinds → count k ships = 1%nat.
Proof.
  rewrite <- kinds_inventory. split.
  - intros Hperm. split.
    + apply Forall_forall. intros ship Hship. rewrite <- Hperm.
      apply list_elem_of_fmap. by exists ship.
    + intros k Hk. rewrite count_types, Hperm. revert Hk. unfold kinds. cbn.
      intros Hk. repeat (apply elem_of_cons in Hk as [->|Hk]; [by vm_compute|]).
      by apply elem_of_nil in Hk.
  - intros [Hall Hcount]. apply NoDup_Permutation.
    + apply NoDup_of_counts. intros x (ship & -> & Hship)%list_elem_of_fmap.
      rewrite <- count_types. apply Hcount.
      by apply (proj1 (Forall_forall _ _) Hall).
    + by vm_compute; repeat constructor; set_solver.
    + intros k. split.
      * intros (ship & -> & Hship)%list_elem_of_fmap.
        by apply (proj1 (Forall_forall _ _) Hall).
      * intros Hk. specialize (Hcount k Hk). rewrite count_types in Hcount.
        destruct (filter (λ t, t = k) (Ship.type <$> ships)) as [|x l] eqn:Hf;
          [done|].
        assert (x ∈ filter (λ t, t = k) (Ship.type <$> ships)) as Hx
          by (rewrite Hf; left).
        apply list_elem_of_filter in Hx as [-> Hx]. done.
Qed.

(** Every legal placement is accepted. *)
Lemma validateShipPlacement_legal ships :
  placement_legal ships → validateShipPlacement ships = true.
Proof.
  intros (_ & Htypes & Hlens & Hbd & Hpair & Hruns).
  apply validateShipPlacement_spec. repeat split; try done.
  - apply Forall_forall. intros ship Hship.
    pose proof (proj1 (Forall_forall _ _) Hlens ship Hship) as Hinv.
    pose proof (proj1 (Forall_forall _ _) Hruns ship Hship) as Hrun.
    destruct (inventory_expectedLength _ _ Hinv) as [He Hn].
    exists (Z.of_nat (length (Ship.positions ship))).
    repeat split; [done|lia|]. by apply validateShipContinuity_spec.
  - apply cells_NoDup. split; [|done].
    eapply Forall_impl; [exact Hruns|]. intros ship. apply straight_run_NoDup.
  - by apply types_inventory.
Qed.

(** An accepted fleet whose ship types are all among the five kinds is a
    legal placement. *)
Lemma validateShipPlacement_kinds_legal ships :
  Forall (λ ship, Ship.type ship ∈ kinds) ships →
  validateShipPlacement ships = true → placement_legal ships.
Proof.
  intros Hkinds (Hok & Hnd & Hbd & Hcount)%validateShipPlacement_spec.
  assert (Htypes : Ship.type <$> ships ≡ₚ inventory.*1) by (by apply types_inventory).
  assert (Hlens : Forall (λ ship, (Ship.type ship, length (Ship.positions ship))
                                  ∈ inventory) ships).
  { apply Forall_forall. intros ship Hship.
    destruct (proj1 (Forall_forall _ _) Hok ship Hship) as (n & He & _ & Hl & _).
    apply kinds_expectedLength; [by apply (proj1 (Forall_forall _ _) Hkinds)|].
    by rewrite Hl. }
  apply cells_NoDup in Hnd as [_ Hpair].
  repeat split; try done.
  - apply Permutation_length in Htypes. by rewrite length_fmap in Htypes.
  - apply Forall_forall. intros ship Hship.
    destruct (proj1 (Forall_forall _ _) Hok ship Hship) as (n & _ & _ & _ & Hc).
    pose proof (proj1 (Forall_forall _ _) Hlens ship Hship) as Hinv.
    destruct (inventory_expectedLength _ _ Hinv) as [_ Hn].
    by apply validateShipContinuity_spec.
Qed.

(** X5: among the fleets with integer coordinates that use the five kinds
    only, the validator accepts exactly the legal placements.  (Integer
    coordinates are what [Cell] holds; the validator does not test for
    them.) *)
Theorem validateShipPlacement_five_kinds ships :
  Forall (λ ship, Ship.type ship ∈ kinds) ships →
  validateShipPlacement ships = true ↔ placement_legal ships.
Proof.
  intros Hkinds. split.
  - by apply validateShipPlacement_kinds_legal.
  - apply validateShipPlacement_legal.
Qed.

(** ** Well-formed states *)

(** Name the fields of a well-formedness proof. *)
Ltac open_wf H :=
  pose proof (wf_heap_id _ H) as Hheap_id;
  pose proof (wf_heap_fresh _ H) as Hheap_fresh;
  pose proof (wf_gameId_fresh _ H) as HgameId_fresh;
  pose proof (wf_registry _ H) as Hregistry;
  pose proof (wf_queue_length _ H) as Hqueue_length;
  pose proof (wf_queue _ H) as Hqueue;
  pose proof (wf_games_key _ H) as Hgames_key;
  pose proof (wf_games_players _ H) as Hgames_players;
  pose proof (wf_games_turn _ H) as Hgames_turn;
  pose proof (wf_games_open _ H) as Hgames_open;
  pose proof (wf_member _ H) as Hmember.

Lemma wf_initial : wf initial.
Proof.
  split; simpl; intros; try done; try lia.
  all: try (by rewrite lookup_empty in *).
  by apply elem_of_nil in H.
Qed.

Lemma players_get_Some s ws player :
  players_get s ws = Some player →
  ∃ p, players s !! ws = Some p ∧ heap s !! p = Some player.
Proof.
  unfold players_get. destruct (players s !! ws) as [p|]; simpl; [|done].
  intros. by exists p.
Qed.

Lemma wf_players_get s ws player :
  wf s → players_get s ws = Some player →
  heap s !! Player.id player = Some player ∧ Player.ws player = ws ∧
  players s !! ws = Some (Player.id player).
Proof.
  intros Hwf (p & Hp & Hh)%players_get_Some.
  pose proof (wf_heap_id _ Hwf _ _ Hh) as ->.
  destruct (wf_registry _ Hwf _ _ Hp) as (pl & Hpl & Hws).
  rewrite Hh in Hpl. by simplify_eq.
Qed.

Lemma wf_handleSetupComplete ro s ws ships :
  wf s → wf (handleSetupComplete ro s ws ships).1.
Proof.
  intros Hwf. unfold handleSetupComplete.
  destruct (players_get s ws) as [player|] eqn:Hget; [|done].
  destruct (Player.gameId player) as [gid|] eqn:Hgid; [|done].
  destruct (activeGames s !! gid) as [game|] eqn:Hgame; [|done].
  destruct (validateShipPlacement_run ships) as [ships'|]; [|done].
  destruct (wf_players_get _ _ _ Hwf Hget) as (Hheap & Hws & Hreg).
  set (pid := Player.id player) in *.
  set (player' := Player.set_setup ships' player).
  assert (Hlk : ∀ p pl, <[pid := player']> (heap s) !! p = Some pl →
            ∃ pl0, heap s !! p = Some pl0 ∧ Player.id pl = Player.id pl0 ∧
                   Player.ws pl = Player.ws pl0 ∧
                   Player.gameId pl = Player.gameId pl0).
  { intros p pl. rewrite lookup_insert. case_decide as Hd.
    - intros [= <-]. subst p. exists player. done.
    - intros. by exists pl. }
  assert (Hlk' : ∀ p pl0, heap s !! p = Some pl0 →
            ∃ pl, <[pid := player']> (heap s) !! p = Some pl ∧
                  Player.id pl = Player.id pl0 ∧
                   Player.ws pl = Player.ws pl0 ∧
                   Player.gameId pl = Player.gameId pl0).
  { intros p pl0 Hp. rewrite lookup_insert. case_decide as Hd.
    - subst p. rewrite Hheap in Hp. simplify_eq. by exists player'.
    - by exists pl0. }
  assert (Hbase : wf (set_heap (<[pid := player']> (heap s)) s)).
  { open_wf Hwf. split; simpl.
    - intros p pl (pl0 & H0 & Hid & _)%Hlk. rewrite Hid. eauto.
    - intros p pl (pl0 & H0 & _)%Hlk. eauto.
    - intros p pl g (pl0 & H0 & _ & _ & Hg)%Hlk. rewrite Hg. eauto.
    - intros c p (pl0 & H0 & Hw)%Hregistry.
      destruct (Hlk' _ _ H0) as (pl & ? & ? & ? & ?). exists pl. split; congruence.
    - done.
    - intros p (pl0 & H0 & Hg)%Hqueue.
      destruct (Hlk' _ _ H0) as (pl & ? & ? & ? & ?). exists pl. split; congruence.
    - done.
    - intros g0 g Hg. destruct (Hgames_players _ _ Hg)
        as (p0 & p1 & pl0 & pl1 & ? & ? & H0 & H1 & ? & ?).
      destruct (Hlk' _ _ H0) as (pl0' & ? & ? & ? & ?).
      destruct (Hlk' _ _ H1) as (pl1' & ? & ? & ? & ?).
      exists p0, p1, pl0', pl1'. repeat split; congruence.
    - done.
    - done.
    - intros p pl g0 g (pl0 & H0 & _ & _ & Hg)%Hlk. rewrite Hg. eauto. }
  match goal with |- context [if ?b then _ else _] => destruct b end; [|done].
  simpl. open_wf Hbase. split; simpl; try done.
  - intros g0 g. rewrite lookup_insert. case_decide.
    + intros [= <-]. subst g0. simpl. destruct (wf_games_key _ Hwf _ _ Hgame). done.
    + eauto.
  - intros g0 g. rewrite lookup_insert. case_decide.
    + intros [= <-]. subst g0. simpl. eauto.
    + eauto.
  - intros g0 g. rewrite lookup_insert. case_decide.
    + intros [= <-]. subst g0. simpl. eapply wf_games_turn; eauto.
    + eauto.
  - intros g0 g. rewrite lookup_insert. case_decide.
    + intros [= <-]. subst g0. simpl. split; [done|].
      eapply wf_games_open; eauto.
    + eauto.
  - intros p pl g0 g Hp Hg. rewrite lookup_insert. case_decide.
    + intros [= <-]. subst g0. simpl. eauto.
    + eauto.
Qed.

Lemma wf_set_game s gid game game' :
  wf s → activeGames s !! gid = Some game →
  Game.id game' = Game.id game → Game.players game' = Game.players game →
  (Game.currentTurn game' = 0 ∨ Game.currentTurn game' = 1) →
  Game.status game' ≠ finished → Game.winner game' = None →
  wf (set_activeGames (<[gid := game']> (activeGames s)) s).
Proof.
  intros Hwf Hgame Hid Hpl Hturn Hst Hwin. open_wf Hwf. split; simpl; try done.
  - intros g0 g. rewrite lookup_insert. case_decide.
    + intros [= <-]. subst g0. rewrite Hid. eauto.
    + eauto.
  - intros g0 g. rewrite lookup_insert. case_decide.
    + intros [= <-]. subst g0. rewrite Hpl. eauto.
    + eauto.
  - intros g0 g. rewrite lookup_insert. case_decide.
    + by intros [= <-].
    + eauto.
  - intros g0 g. rewrite lookup_insert. case_decide.
    + by intros [= <-].
    + eauto.
  - intros p pl g0 g Hp Hg. rewrite lookup_insert. case_decide.
    + intros [= <-]. subst g0. rewrite Hpl. eauto.
    + eauto.
Qed.

Lemma flip_turn t : t = 0 ∨ t = 1 → 1 - t = 0 ∨ 1 - t = 1.
Proof. lia. Qed.

Lemma wf_handleFireResult ro s ws coordinates result shipSunk :
  wf s → wf (handleFireResult ro s ws coordinates result shipSunk).1.
Proof.
  intros Hwf. unfold handleFireResult.
  destruct (players_get s ws) as [player|] eqn:Hget; [|done].
  destruct (Player.gameId player) as [gid|] eqn:Hgid; [|done].
  destruct (activeGames s !! gid) as [game|] eqn:Hgame; [|done].
  destruct (at_index _ _) as [opponent|]; [|done].
  unfold checkAllShipsSunk. rewrite andb_false_r. simpl.
  eapply wf_set_game; eauto; simpl.
  - apply flip_turn. eapply wf_games_turn; eauto.
  - eapply wf_games_open; eauto.
  - eapply wf_games_open; eauto.
Qed.

Lemma wf_handleFire ro s ws coordinates :
  (handleFire ro s ws coordinates).1 = s.
Proof.
  unfold handleFire.
  repeat match goal with
         | |- context [match ?x with _ => _ end] => destruct x; try done
         end.
Qed.

Lemma wf_delete_game s gid :
  wf s → wf (set_activeGames (delete gid (activeGames s)) s).
Proof.
  intros Hwf. open_wf Hwf. split; simpl; try done.
  1-4: intros g0 g; rewrite lookup_delete; case_decide; [done|]; eauto.
  intros p pl g0 g Hp Hg. rewrite lookup_delete. case_decide; [done|]. eauto.
Qed.

Lemma wf_set_players_delete s ws :
  wf s → wf (set_players (delete ws (players s)) s).
Proof.
  intros Hwf. open_wf Hwf. split; simpl; try done.
  intros c p. rewrite lookup_delete. case_decide; [done|]. eauto.
Qed.

Lemma wf_set_waiting s w :
  wf s → (length w ≤ 1)%nat → (∀ p, p ∈ w → p ∈ waitingPlayers s) →
  wf (set_waitingPlayers w s).
Proof.
  intros Hwf Hlen Hsub. open_wf Hwf. split; simpl; try done. eauto.
Qed.

Lemma splice1_length i (l : list Uuid) : (length (splice1 i l) ≤ length l)%nat.
Proof.
  unfold splice1. generalize (Z.to_nat i). clear i.
  induction l as [|x l IH]; intros [|n]; simpl; try lia. specialize (IH n). lia.
Qed.

Lemma splice1_elem_of i (l : list Uuid) p : p ∈ splice1 i l → p ∈ l.
Proof.
  unfold splice1. generalize (Z.to_nat i). clear i.
  induction l as [|x l IH]; intros [|n]; simpl; try done.
  - intros. by right.
  - intros [->|?]%elem_of_cons; [left|right; eauto].
Qed.

Lemma wf_handleDisconnection ro s ws :
  wf s → wf (handleDisconnection ro s ws).1.
Proof.
  intros Hwf. unfold handleDisconnection.
  destruct (players_get s ws) as [player|] eqn:Hget; [|done].
  set (s1 := if bool_decide _ then _ else s).
  assert (Hwf1 : wf s1).
  { subst s1. case_bool_decide; [|done]. apply wf_set_waiting; [done| |].
    - pose proof (splice1_length (findIndex (Player.id player) (waitingPlayers s))
                    (waitingPlayers s)).
      pose proof (wf_queue_length _ Hwf). lia.
    - intros p. apply splice1_elem_of. }
  clearbody s1.
  destruct (Player.gameId player) as [gid|].
  - destruct (activeGames s1 !! gid) as [game|]; simpl.
    + apply (wf_set_players_delete (set_activeGames _ s1)). by apply wf_delete_game.
    + by apply wf_set_players_delete.
  - simpl. by apply wf_set_players_delete.
Qed.

Lemma wf_set_waiting_fresh s w :
  wf s → (length w ≤ 1)%nat →
  (∀ p, p ∈ w → ∃ pl, heap s !! p = Some pl ∧ Player.gameId pl = None) →
  wf (set_waitingPlayers w s).
Proof. intros Hwf Hlen Hsub. open_wf Hwf. split; simpl; done. Qed.

Lemma wf_registered s ws playerName : wf s → wf (registered s ws playerName).
Proof.
  intros Hwf. open_wf Hwf.
  set (n := uuidNext s).
  assert (Hold : ∀ p pl, heap s !! p = Some pl → <[n := Player.mk n playerName ws None None false]> (heap s) !! p = Some pl).
  { intros p pl Hp. rewrite lookup_insert_ne; [done|].
    apply Hheap_fresh in Hp. subst n. lia. }
  split; unfold registered; simpl; fold n.
  - intros p pl. rewrite lookup_insert. case_decide.
    + by intros [= <-].
    + eauto.
  - intros p pl. rewrite lookup_insert. case_decide.
    + intros _. lia.
    + intros ?%Hheap_fresh. lia.
  - intros p pl g. rewrite lookup_insert. case_decide.
    + by intros [= <-].
    + intros Hp Hg. pose proof (HgameId_fresh _ _ _ Hp Hg). lia.
  - intros c p. rewrite lookup_insert. case_decide.
    + intros [= <-]. subst c. eexists. rewrite lookup_insert_eq. done.
    + intros (pl & Hp & Hw)%Hregistry. exists pl. eauto.
  - done.
  - intros p (pl & Hp & Hg)%Hqueue. exists pl. eauto.
  - intros g0 g Hg. destruct (Hgames_key _ _ Hg). split; [done|lia].
  - intros g0 g Hg. destruct (Hgames_players _ _ Hg)
      as (p0 & p1 & pl0 & pl1 & ? & ? & H0 & H1 & ? & ?).
    exists p0, p1, pl0, pl1. repeat split; eauto.
  - done.
  - done.
  - intros p pl g0 g. rewrite lookup_insert. case_decide.
    + by intros [= <-].
    + eauto.
Qed.

Lemma wf_createGame ro s player1 player2 pl1 pl2 :
  wf s → player1 ≠ player2 →
  heap s !! player1 = Some pl1 → Player.gameId pl1 = None →
  heap s !! player2 = Some pl2 → Player.gameId pl2 = None →
  player1 ∉ waitingPlayers s → player2 ∉ waitingPlayers s →
  wf (createGame ro s player1 player2).1.
Proof.
  intros Hwf Hne H1 Hg1 H2 Hg2 Hw1 Hw2.
  open_wf Hwf.
  unfold createGame. simpl. set (gid := uuidNext s).
  set (f := Player.set_gameId gid).
  set (h' := alter f player2 (alter f player1 (heap s))).
  assert (Hn1 : h' !! player1 = Some (f pl1)).
  { subst h'. rewrite lookup_alter_ne by done. by rewrite lookup_alter_eq, H1. }
  assert (Hn2 : h' !! player2 = Some (f pl2)).
  { subst h'. rewrite lookup_alter_eq. rewrite lookup_alter_ne by done. by rewrite H2. }
  assert (Hother : ∀ p, p ≠ player1 → p ≠ player2 → h' !! p = heap s !! p).
  { intros p ? ?. subst h'. by rewrite !lookup_alter_ne. }
  assert (Hinv : ∀ p pl, h' !! p = Some pl →
             (p = player1 ∧ pl = f pl1) ∨ (p = player2 ∧ pl = f pl2) ∨
             (p ≠ player1 ∧ p ≠ player2 ∧ heap s !! p = Some pl)).
  { intros p pl Hp. destruct (decide (p = player1)) as [->|];
      [left; split; [done|congruence]|].
    destruct (decide (p = player2)) as [->|];
      [right; left; split; [done|congruence]|].
    right; right. rewrite Hother in Hp; done. }
  assert (Hfwd : ∀ p pl, heap s !! p = Some pl →
             ∃ pl', h' !! p = Some pl' ∧ Player.id pl' = Player.id pl ∧
                    Player.ws pl' = Player.ws pl ∧
                    (Player.gameId pl ≠ None → Player.gameId pl' = Player.gameId pl)).
  { intros p pl Hp. destruct (decide (p = player1)) as [->|].
    { exists (f pl1). simplify_eq. rewrite Hg1. done. }
    destruct (decide (p = player2)) as [->|].
    { exists (f pl2). simplify_eq. rewrite Hg2. done. }
    exists pl. rewrite Hother; done. }
  split; simpl.
  - intros p pl [[-> ->]|[[-> ->]|(? & ? & Hp)]]%Hinv; simpl; eauto.
  - intros p pl [[-> ->]|[[-> ->]|(? & ? & Hp)]]%Hinv;
      [apply Hheap_fresh in H1|apply Hheap_fresh in H2|apply Hheap_fresh in Hp]; lia.
  - intros p pl g [[-> ->]|[[-> ->]|(? & ? & Hp)]]%Hinv; simpl.
    + intros [= <-]. lia.
    + intros [= <-]. lia.
    + intros Hg. pose proof (HgameId_fresh _ _ _ Hp Hg). lia.
  - intros c p (pl & Hp & Hw)%Hregistry.
    destruct (Hfwd _ _ Hp) as (pl' & ? & ? & ? & ?). exists pl'. split; congruence.
  - done.
  - intros p Hp. destruct (Hqueue _ Hp) as (pl & Hpl & Hg). exists pl.
    rewrite Hother; [done| |]; intros ->; done.
  - intros g0 g. rewrite lookup_insert. case_decide.
    + intros [= <-]. subst g0. simpl. split; [done|lia].
    + intros Hg. destruct (Hgames_key _ _ Hg). split; [done|lia].
  - intros g0 g. rewrite lookup_insert. case_decide.
    + intros [= <-]. subst g0. simpl. exists player1, player2, (f pl1), (f pl2). done.
    + intros Hg. destruct (Hgames_players _ _ Hg)
        as (p0 & p1 & pl0 & pl1' & ? & ? & H0 & H1' & Hg0 & Hg1').
      destruct (Hfwd _ _ H0) as (pl0' & ? & ? & ? & Hk0).
      destruct (Hfwd _ _ H1') as (pl1'' & ? & ? & ? & Hk1).
      exists p0, p1, pl0', pl1''. repeat split; try done.
      * rewrite Hk0; [done|]. by rewrite Hg0.
      * rewrite Hk1; [done|]. by rewrite Hg1'.
  - intros g0 g. rewrite lookup_insert. case_decide.
    + intros [= <-]. by left.
    + eauto.
  - intros g0 g. rewrite lookup_insert. case_decide.
    + by intros [= <-].
    + eauto.
  - intros p pl g0 g Hp Hg. rewrite lookup_insert. case_decide.
    + intros [= <-]. subst g0. simpl.
      destruct (Hinv _ _ Hp) as [[-> ->]|[[-> ->]|(? & ? & Hp')]].
      * set_solver.
      * set_solver.
      * pose proof (HgameId_fresh _ _ _ Hp' Hg). lia.
    + intros Hgame.
      destruct (Hinv _ _ Hp) as [[-> ->]|[[-> ->]|(? & ? & Hp')]].
      * simpl in Hg. congruence.
      * simpl in Hg. congruence.
      * eauto.
Qed.

Lemma handleJoinGame_unfold ro s ws playerName :
  handleJoinGame ro s ws playerName =
  match waitingPlayers s with
  | opponent :: rest =>
      createGame ro (set_waitingPlayers rest (registered s ws playerName))
        (uuidNext s) opponent
  | [] => (set_waitingPlayers [uuidNext s] (registered s ws playerName), [])
  end.
Proof. unfold handleJoinGame, registered. simpl. by destruct (waitingPlayers s). Qed.

Lemma wf_handleJoinGame ro s ws playerName :
  wf s → wf (handleJoinGame ro s ws playerName).1.
Proof.
  intros Hwf. rewrite handleJoinGame_unfold.
  pose proof (wf_registered s ws playerName Hwf) as Hreg.
  assert (Hnew : heap (registered s ws playerName) !! uuidNext s
                 = Some (Player.mk (uuidNext s) playerName ws None None false)).
  { unfold registered. simpl. by rewrite lookup_insert_eq. }
  destruct (waitingPlayers s) as [|opponent rest] eqn:Hq.
  - simpl. apply wf_set_waiting_fresh; [done|simpl; lia|].
    intros p ->%list_elem_of_singleton. eexists. split; [exact Hnew|done].
  - pose proof (wf_queue_length _ Hwf) as Hlen. rewrite Hq in Hlen.
    destruct rest; [|simpl in Hlen; lia].
    destruct (wf_queue _ Hwf opponent) as (pl & Hpl & Hg); [rewrite Hq; set_solver|].
    pose proof (wf_heap_fresh _ Hwf _ _ Hpl) as Hlt.
    eapply wf_createGame.
    + apply wf_set_waiting_fresh; [done|simpl; lia|]. by intros p ?%elem_of_nil.
    + intros ?. lia.
    + exact Hnew.
    + done.
    + simpl. rewrite lookup_insert_ne by lia. exact Hpl.
    + done.
    + simpl. by intros ?%elem_of_nil.
    + simpl. by intros ?%elem_of_nil.
Qed.

Lemma wf_step ro s e : wf s → wf (step ro s e).1.
Proof.
  intros Hwf. destruct e as [ws [| | | |]| |]; simpl; try done.
  - by apply wf_handleJoinGame.
  - by apply wf_handleSetupComplete.
  - by rewrite wf_handleFire.
  - by apply wf_handleFireResult.
  - by apply wf_handleDisconnection.
Qed.

Lemma reachable_wf s : reachable s → wf s.
Proof. induction 1; [apply wf_initial|by apply wf_step]. Qed.

(** ** Sessions seen from a connection *)

Lemma findIndex_pair_0 p0 p1 : findIndex p0 [p0; p1] = 0.
Proof. unfold findIndex. simpl. by rewrite decide_True. Qed.

Lemma findIndex_pair_1 p0 p1 : p0 ≠ p1 → findIndex p1 [p0; p1] = 1.
Proof.
  intros. unfold findIndex. simpl. rewrite decide_False by done.
  by rewrite decide_True.
Qed.

(** In a well-formed state, the session of a registered player has that
    player and one other as its pair. *)
Lemma session_shape s ws player gid game :
  wf s → players_get s ws = Some player → Player.gameId player = Some gid →
  activeGames s !! gid = Some game →
  ∃ p0 p1 pl0 pl1,
    Game.players game = [p0; p1] ∧ p0 ≠ p1 ∧
    heap s !! p0 = Some pl0 ∧ heap s !! p1 = Some pl1 ∧
    Player.gameId pl0 = Some gid ∧ Player.gameId pl1 = Some gid ∧
    (Game.currentTurn game = 0 ∨ Game.currentTurn game = 1) ∧
    ((Player.id player = p0 ∧ player = pl0) ∨ (Player.id player = p1 ∧ player = pl1)).
Proof.
  intros Hwf Hget Hgid Hgame.
  destruct (wf_players_get _ _ _ Hwf Hget) as (Hheap & Hws & Hreg).
  destruct (wf_games_players _ Hwf _ _ Hgame)
    as (p0 & p1 & pl0 & pl1 & Hpl & Hne & H0 & H1 & Hg0 & Hg1).
  exists p0, p1, pl0, pl1. repeat split; try done.
  - eapply wf_games_turn; eauto.
  - pose proof (wf_member _ Hwf _ _ _ _ Hheap Hgid Hgame) as Hin.
    rewrite Hpl in Hin. apply elem_of_cons in Hin as [Hin|Hin].
    + left. split; [done|]. rewrite Hin in Hheap. congruence.
    + apply list_elem_of_singleton in Hin. right. split; [done|].
      rewrite Hin in Hheap. congruence.
Qed.


Lemma session_of_Some s ws player gid game :
  session_of s ws = Some (player, gid, game) ↔
  players_get s ws = Some player ∧ Player.gameId player = Some gid ∧
  activeGames s !! gid = Some game.
Proof.
  unfold session_of. split.
  - destruct (players_get s ws) as [pl|]; simpl; [|done].
    destruct (Player.gameId pl) as [g|] eqn:?; simpl; [|done].
    destruct (activeGames s !! g) as [gm|] eqn:?; simpl; [|done].
    intros ?. by simplify_eq.
  - intros (-> & Hg & Hgame). simpl. rewrite Hg. simpl. by rewrite Hgame.
Qed.

(** Runs stay within the reachable states. *)
Lemma reachable_run s es : reachable s → reachable (run s es).1.
Proof.
  revert s. induction es as [|[ro e] es IH]; intros s Hs; [done|].
  simpl. destruct (step ro s e) as [s1 out1] eqn:Hstep.
  specialize (IH s1). destruct (run s1 es) as [s2 out2]. simpl in *.
  apply IH. change s1 with (s1, out1).1. rewrite <- Hstep. by constructor.
Qed.

(** *** [handleFire] *)

Lemma handleFire_state ro s ws coordinates :
  (handleFire ro s ws coordinates).1 = s.
Proof. apply wf_handleFire. Qed.

Lemma handleFire_rejected ro s ws coordinates :
  on_turn s ws = false →
  ∃ m, handleFire ro s ws coordinates = (s, sendError ro ws m).
Proof.
  unfold on_turn, session_of, handleFire.
  destruct (players_get s ws) as [player|]; simpl; [|eauto].
  destruct (Player.gameId player) as [gid|]; simpl; [|eauto].
  destruct (activeGames s !! gid) as [game|]; simpl; [|eauto].
  destruct (decide (Game.status game = in_progress)) as [Hst|Hst].
  - rewrite (bool_decide_true (Game.status game = _)) by done.
    rewrite (bool_decide_false (Game.status game ≠ _)) by naive_solver. simpl.
    intros Hidx. apply bool_decide_eq_false in Hidx.
    rewrite bool_decide_true by done. eauto.
  - intros _. rewrite (bool_decide_true (Game.status game ≠ _)) by done. eauto.
Qed.

Lemma handleFire_accepted ro s ws coordinates :
  wf s → on_turn s ws = true →
  ∃ player gid game opponent opl,
    session_of s ws = Some (player, gid, game) ∧
    opponent ∈ Game.players game ∧ opponent ≠ Player.id player ∧
    heap s !! opponent = Some opl ∧
    handleFire ro s ws coordinates
    = (s, sendMessage ro (Player.ws opl) (opponent_fire coordinates)).
Proof.
  intros Hwf. unfold on_turn.
  destruct (session_of s ws) as [[[player gid] game]|] eqn:Hsess; [|done].
  intros [Hst Hidx]%andb_prop.
  apply bool_decide_eq_true in Hst. apply bool_decide_eq_true in Hidx.
  apply session_of_Some in Hsess as (Hget & Hgid & Hgame).
  destruct (session_shape _ _ _ _ _ Hwf Hget Hgid Hgame)
    as (p0 & p1 & pl0 & pl1 & Hpl & Hne & H0 & H1 & Hg0 & Hg1 & Hturn & Hme).
  unfold handleFire. rewrite Hget, Hgid, Hgame.
  rewrite bool_decide_false by naive_solver.
  rewrite bool_decide_false by naive_solver.
  rewrite Hpl. exists player, gid, game.
  destruct Hme as [[Hid ->]|[Hid ->]]; rewrite Hid.
  - exists p1, pl1. rewrite findIndex_pair_0. unfold sendTo. simpl. rewrite H1.
    split; [done|]. split; [rewrite Hpl; repeat constructor|].
    split; [congruence|done].
  - exists p0, pl0. rewrite findIndex_pair_1 by done. unfold sendTo. simpl. rewrite H0.
    split; [done|]. split; [rewrite Hpl; repeat constructor|].
    split; [congruence|done].
Qed.

(** *** Sessions are not revived *)

Lemma step_uuidNext ro s e : (uuidNext s ≤ uuidNext (step ro s e).1)%nat.
Proof.
  destruct e as [ws [| | | |]| |]; simpl; try lia.
  - rewrite handleJoinGame_unfold. destruct (waitingPlayers s); simpl; lia.
  - unfold handleSetupComplete.
    repeat match goal with
           | |- context [match ?x with _ => _ end] => destruct x; simpl; try lia
           end.
  - rewrite handleFire_state. lia.
  - unfold handleFireResult, checkAllShipsSunk.
    repeat match goal with
           | |- context [_ && false] => rewrite andb_false_r
           | |- context [match ?x with _ => _ end] => destruct x; simpl; try lia
           end.
  - unfold handleDisconnection.
    destruct (players_get s ws) as [player|]; [|simpl; lia].
    set (s1 := if bool_decide _ then _ else s).
    assert (uuidNext s1 = uuidNext s) as <- by (subst s1; by case_bool_decide).
    clearbody s1. destruct (Player.gameId player) as [gid|]; [|simpl; lia].
    destruct (activeGames s1 !! gid); simpl; lia.
Qed.

Lemma handleDisconnection_fields ro s ws :
  let s' := (handleDisconnection ro s ws).1 in
  heap s' = heap s ∧ uuidNext s' = uuidNext s ∧
  (∀ gid, activeGames s !! gid = None → activeGames s' !! gid = None).
Proof.
  unfold handleDisconnection.
  destruct (players_get s ws) as [player|]; [|done].
  set (s1 := if bool_decide _ then _ else s).
  assert (heap s1 = heap s ∧ uuidNext s1 = uuidNext s ∧ activeGames s1 = activeGames s)
    as (<- & <- & <-) by (subst s1; by case_bool_decide).
  clearbody s1. destruct (Player.gameId player) as [gid|]; [|done].
  destruct (activeGames s1 !! gid); simpl; [|done].
  repeat split; try done. intros g Hg. rewrite lookup_delete. by case_decide.
Qed.

Lemma handleFireResult_fields ro s ws coordinates result shipSunk :
  let s' := (handleFireResult ro s ws coordinates result shipSunk).1 in
  heap s' = heap s ∧
  (∀ gid, activeGames s !! gid = None → activeGames s' !! gid = None).
Proof.
  unfold handleFireResult, checkAllShipsSunk.
  destruct (players_get s ws) as [player|]; [|done].
  destruct (Player.gameId player) as [gid|]; [|done].
  destruct (activeGames s !! gid) as [game|] eqn:Hgame; [|done].
  destruct (at_index _ _); [|done].
  rewrite andb_false_r. simpl. split; [done|].
  intros g Hg. rewrite lookup_insert_ne; [done|]. intros ->. congruence.
Qed.

(** A session that has left [activeGames] never comes back: later sessions
    get later identifiers. *)
Lemma step_game_gone ro s e (gid : Uuid) :
  activeGames s !! gid = None → (gid < uuidNext s)%nat →
  activeGames (step ro s e).1 !! gid = None.
Proof.
  intros Hgone Hlt. destruct e as [ws [| | | |]| |]; simpl; try done.
  - rewrite handleJoinGame_unfold. destruct (waitingPlayers s); simpl; [done|].
    rewrite lookup_insert_ne; [done|lia].
  - unfold handleSetupComplete.
    destruct (players_get s ws) as [player|]; [|done].
    destruct (Player.gameId player) as [g|]; [|done].
    destruct (activeGames s !! g) as [game|] eqn:Hgame; [|done].
    destruct (validateShipPlacement_run _); [|done].
    match goal with |- context [if ?b then _ else _] => destruct b end; [|done].
    simpl. rewrite lookup_insert_ne; [done|]. intros ->. congruence.
  - by rewrite handleFire_state.
  - by apply handleFireResult_fields.
  - by apply handleDisconnection_fields.
Qed.

Lemma run_game_gone s es (gid : Uuid) :
  activeGames s !! gid = None → (gid < uuidNext s)%nat →
  activeGames (run s es).1 !! gid = None.
Proof.
  revert s. induction es as [|[ro e] es IH]; intros s Hgone Hlt; [done|].
  simpl. pose proof (step_game_gone ro s e gid Hgone Hlt) as H1.
  pose proof (step_uuidNext ro s e) as H2.
  destruct (step ro s e) as [s1 out1]. specialize (IH s1).
  destruct (run s1 es) as [s2 out2]. simpl in *. apply IH; [done|lia].
Qed.


(** ** Example runs *)

Lemma reachable_s_waiting : reachable s_waiting.
Proof. apply reachable_run, reachable_initial. Qed.
Lemma reachable_s_setup : reachable s_setup.
Proof. apply reachable_run, reachable_initial. Qed.
Lemma reachable_s_battle : reachable s_battle.
Proof. apply reachable_run, reachable_s_setup. Qed.

(** *** Placement validator on a six-ship fleet *)

(** C3: a fleet of six ships is accepted, though it is no legal placement:
    the five kinds, each a straight run of its length, and a one-cell ship
    of type "constructor", whose length check reads the arity of an
    inherited function. *)
Theorem C3_six_ships_accepted :
  length fleet_with_constructor = 6%nat ∧
  placement_legal fleet_rows ∧
  expectedLength "constructor" = Some 1 ∧
  validateShipPlacement fleet_with_constructor = true ∧
  ¬ placement_legal fleet_with_constructor.
Proof.
  split; [reflexivity|]. split.
  { apply validateShipPlacement_kinds_legal; [|by vm_compute].
    unfold kinds, fleet_rows. cbn. repeat constructor. }
  split; [by vm_compute|]. split; [by vm_compute|].
  intros [Hlen _]. discriminate Hlen.
Qed.

(** *** Win detection *)

(** C1: the defender reports the hit that sinks its last ship: the other
    sixteen ship cells were hit before, every shot was in turn (no [error]
    was sent) and every verdict relayed.  The server relays the verdict,
    passes the turn, and sends no [game_end]; the session stays in progress
    with no winner. *)
Theorem C1_last_ship_sunk_no_game_end :
  let before := run initial (two_joins ++ two_setups ++ sink_all_but_one) in
  let r := handleFireResult allOpen s_last_shot 0%nat (4, 1) "hit" (Some "destroyer") in
  before.1 = s_last_shot ∧
  filter (λ o : Out, is_error o.2) before.2 = [] ∧
  length (filter (λ o : Out, is_hit o.2) before.2) = 16%nat ∧
  r.2 = [ (1%nat, shot_result (4, 1) "hit" (Some "destroyer"));
          (1%nat, turn_change false); (0%nat, turn_change true) ] ∧
  (Game.status <$> activeGames r.1 !! 2%nat) = Some in_progress ∧
  (Game.winner <$> activeGames r.1 !! 2%nat) = Some None ∧
  filter (λ o : Out, is_game_end o.2) (before.2 ++ r.2) = [].
Proof. vm_compute. done. Qed.

(** No [fire_result] ever produces a [game_end]. *)
Lemma handleFireResult_no_game_end ro s ws coordinates result shipSunk (o : Out) :
  o ∈ (handleFireResult ro s ws coordinates result shipSunk).2 →
  is_game_end o.2 = false.
Proof.
  unfold handleFireResult, checkAllShipsSunk.
  assert (Hm : ∀ c e, is_game_end e = false → o ∈ sendMessage ro c e →
                 is_game_end o.2 = false).
  { intros c e He. unfold sendMessage. destruct (ro c); [|by intros ?%elem_of_nil].
    by intros ->%list_elem_of_singleton. }
  assert (Ht : ∀ s' (p : Uuid) e, is_game_end e = false → o ∈ sendTo ro s' p e →
                 is_game_end o.2 = false).
  { intros s' p e He. unfold sendTo. destruct (heap s' !! p); [|by intros ?%elem_of_nil].
    by apply Hm. }
  destruct (players_get s ws) as [player|]; [|by apply Hm].
  destruct (Player.gameId player) as [gid|]; [|by apply Hm].
  destruct (activeGames s !! gid) as [game|]; [|by apply Hm].
  destruct (at_index _ _) as [opponent|]; [|by apply Hm].
  rewrite andb_false_r. simpl.
  intros [Ho|Ho]%elem_of_app.
  - by eapply Ht in Ho.
  - unfold announceTurn in Ho. apply list_elem_of_join in Ho as (l & Ho & Hl).
    apply elem_of_lookup_imap in Hl as (i & p & -> & _).
    by eapply Ht in Ho.
Qed.

(** *** Matchmaking *)

(** C2, as stated, fails: with "A" waiting on connection 0, the join of "B"
    on connection 1 forms the session [[B, A]]. *)
Lemma C2_counterexample : ¬ waiter_moves_first allOpen s_waiting 1%nat "B".
Proof.
  intros H. destruct (H 0%nat [] eq_refl) as (gid & game & newcomer & wpl & Hg & Hpl & _).
  assert (Hmap : activeGames (handleJoinGame allOpen s_waiting 1%nat "B").1
                 = {[ 2%nat := Game.mk 2%nat [1%nat; 0%nat] 0 setup None ]})
    by (vm_compute; reflexivity).
  rewrite Hmap in Hg. apply lookup_singleton_Some in Hg as [_ <-].
  simpl in Hpl. discriminate Hpl.
Qed.

(** C2, amended: a join while the queue is non-empty dequeues its head (the
    queue is appended to at the tail), and the session has the new arrival
    at index 0 and the dequeued waiter at index 1; [currentTurn] is 0.  The
    envelopes sent are, in this order, a [game_start] with turn order
    "first" and the waiter's name to the new arrival, and a [game_start]
    with turn order "second" and the new arrival's name to the waiter, each
    one if the connection it goes to is open. *)
Theorem C2_join_pairs_newcomer_first ro s ws playerName waiter rest :
  reachable s → waitingPlayers s = waiter :: rest →
  ∃ wpl,
    heap s !! waiter = Some wpl ∧
    waitingPlayers (handleJoinGame ro s ws playerName).1 = rest ∧
    players (handleJoinGame ro s ws playerName).1 !! ws = Some (uuidNext s) ∧
    activeGames (handleJoinGame ro s ws playerName).1 !! S (uuidNext s)
    = Some (Game.mk (S (uuidNext s)) [uuidNext s; waiter] 0 setup None) ∧
    (handleJoinGame ro s ws playerName).2
    = (if ro ws
       then [(ws, game_start (S (uuidNext s)) (Player.name wpl) "first")]
       else [])
      ++ (if ro (Player.ws wpl)
          then [(Player.ws wpl, game_start (S (uuidNext s)) playerName "second")]
          else []).
Proof.
  intros Hwf%reachable_wf Hq.
  destruct (wf_queue _ Hwf waiter) as (wpl & Hw & Hg); [rewrite Hq; left|].
  pose proof (wf_heap_fresh _ Hwf _ _ Hw) as Hlt.
  exists wpl. split; [done|].
  rewrite handleJoinGame_unfold, Hq. unfold createGame, registered, sendTo. simpl.
  rewrite lookup_insert_eq.
  repeat split.
  - by rewrite lookup_insert_eq.
  - rewrite lookup_alter_ne by lia. rewrite lookup_alter_eq, lookup_insert_eq. simpl.
    rewrite lookup_alter_eq, lookup_alter_ne by lia. rewrite lookup_insert_ne by lia.
    rewrite Hw. simpl. done.
Qed.

(** With "A" waiting on connection 0, the join of "B" on connection 1. *)
Lemma C2_witness :
  waitingPlayers (handleJoinGame allOpen s_waiting 1%nat "B").1 = [] ∧
  players (handleJoinGame allOpen s_waiting 1%nat "B").1 !! 1%nat = Some 1%nat ∧
  activeGames (handleJoinGame allOpen s_waiting 1%nat "B").1 !! 2%nat
  = Some (Game.mk 2%nat [1%nat; 0%nat] 0 setup None) ∧
  (handleJoinGame allOpen s_waiting 1%nat "B").2
  = [ (1%nat, game_start 2%nat "A" "first");
      (0%nat, game_start 2%nat "B" "second") ].
Proof.
  destruct (C2_join_pairs_newcomer_first allOpen s_waiting 1%nat "B" 0%nat [])
    as (wpl & Hw & Hq & Hp & Hg & Hout).
  - apply reachable_run, reachable_initial.
  - reflexivity.
  - assert (wpl = Player.mk 0%nat "A" 0%nat None None false) as ->
      by (vm_compute in Hw; congruence).
    split; [exact Hq|]. split; [exact Hp|]. split; [exact Hg|].
    rewrite Hout. reflexivity.
Defined.

(** *** [gameId] and session membership *)




(** *** One connection, one player *)

(** C8, as stated, fails: the second [join_game] on connection 0 creates a
    second player object on that connection and pairs it with the first. *)
Lemma C8_counterexample : ¬ connection_exclusive s_twice.
Proof.
  intros H.
  assert (Hgame : activeGames s_twice !! 2%nat
                  = Some (Game.mk 2%nat [1%nat; 0%nat] 0 setup None))
    by (vm_compute; reflexivity).
  assert (H0 : ∃ pl, heap s_twice !! 0%nat = Some pl ∧ Player.ws pl = 0%nat)
    by (eexists; split; vm_compute; reflexivity).
  assert (H1 : ∃ pl, heap s_twice !! 1%nat = Some pl ∧ Player.ws pl = 0%nat)
    by (eexists; split; vm_compute; reflexivity).
  destruct H0 as (pl0 & H0 & Hw0). destruct H1 as (pl1 & H1 & Hw1).
  assert (0%nat = 1%nat) as Heq; [|discriminate Heq].
  apply (H 0%nat 1%nat pl0 pl1); try done.
  - right; right. exists 2%nat, (Game.mk 2%nat [1%nat; 0%nat] 0 setup None).
    split; [done|]. simpl. by right; left.
  - right; right. exists 2%nat, (Game.mk 2%nat [1%nat; 0%nat] 0 setup None).
    split; [done|]. simpl. by left.
  - congruence.
Qed.

(** C8, amended: the registry holds one player per connection at a time,
    and that player is bound to the connection; a [join_game] on a
    connection that has a player creates a new player object on the same
    connection and registers it in place of the old one, which stays in the
    heap, bound to the connection, in its session if it has one, and is
    paired with the new one if it was waiting. *)
Theorem C8_rejoin_replaces_registration ro s ws playerName old :
  reachable s → players s !! ws = Some old →
  (uuidNext s ≠ old) ∧
  players (handleJoinGame ro s ws playerName).1 !! ws = Some (uuidNext s) ∧
  (∃ pl, heap (handleJoinGame ro s ws playerName).1 !! uuidNext s = Some pl ∧
         Player.ws pl = ws ∧ Player.name pl = playerName) ∧
  (∃ pl, heap (handleJoinGame ro s ws playerName).1 !! old = Some pl ∧
         Player.ws pl = ws) ∧
  (∀ c p, players (handleJoinGame ro s ws playerName).1 !! c = Some p →
     ∃ pl, heap (handleJoinGame ro s ws playerName).1 !! p = Some pl ∧
           Player.ws pl = c) ∧
  (old ∈ waitingPlayers s →
     member (handleJoinGame ro s ws playerName).1 old (S (uuidNext s)) ∧
     member (handleJoinGame ro s ws playerName).1 (uuidNext s) (S (uuidNext s))) ∧
  (∀ gid, member s old gid → member (handleJoinGame ro s ws playerName).1 old gid).
Proof.
  intros Hreach Hold. pose proof (reachable_wf _ Hreach) as Hwf.
  pose proof (wf_handleJoinGame ro s ws playerName Hwf) as Hwf'.
  destruct (wf_registry _ Hwf _ _ Hold) as (opl & Hopl & Hows).
  pose proof (wf_heap_fresh _ Hwf _ _ Hopl) as Hlt.
  assert (Hqlt : ∀ w, w ∈ waitingPlayers s → w ≠ uuidNext s).
  { intros w (wpl & Hw & _)%(wf_queue _ Hwf).
    pose proof (wf_heap_fresh _ Hwf _ _ Hw). lia. }
  assert (Hreg : players (handleJoinGame ro s ws playerName).1 !! ws = Some (uuidNext s)).
  { rewrite handleJoinGame_unfold. destruct (waitingPlayers s); simpl;
      by rewrite lookup_insert_eq. }
  split; [lia|]. split; [done|]. split.
  { destruct (wf_registry _ Hwf' _ _ Hreg) as (pl & Hpl & Hw). exists pl.
    split; [done|]. split; [done|]. revert Hpl.
    rewrite handleJoinGame_unfold. destruct (waitingPlayers s); simpl.
    - rewrite lookup_insert_eq. by intros [= <-].
    - rewrite lookup_alter_ne by (apply Hqlt; left).
      rewrite lookup_alter_eq, lookup_insert_eq. by intros [= <-]. }
  split.
  { rewrite handleJoinGame_unfold. destruct (waitingPlayers s) as [|w rest]; simpl.
    - exists opl. by rewrite lookup_insert_ne by lia.
    - destruct (decide (w = old)) as [->|Hne].
      + rewrite lookup_alter_eq, lookup_alter_ne by lia.
        rewrite lookup_insert_ne by lia. rewrite Hopl. simpl. eauto.
      + rewrite !lookup_alter_ne by (done || lia).
        rewrite lookup_insert_ne by lia. eauto. }
  split; [apply (wf_registry _ Hwf')|]. split.
  - intros Hin. pose proof (wf_queue_length _ Hwf) as Hlen.
    rewrite handleJoinGame_unfold.
    destruct (waitingPlayers s) as [|w [|w' rest]]; simpl in *; try lia.
    + by apply elem_of_nil in Hin.
    + apply list_elem_of_singleton in Hin as ->.
      unfold member; simpl.
      split; eexists; (split; [by rewrite lookup_insert_eq|]); simpl.
      * by right; left.
      * by left.
  - intros gid (game & Hgame & Hin).
    destruct (wf_games_key _ Hwf _ _ Hgame) as [_ Hglt].
    exists game. split; [|done].
    rewrite handleJoinGame_unfold. destruct (waitingPlayers s); simpl; [done|].
    rewrite lookup_insert_ne by lia. done.
Qed.

Lemma C8_witness :
  players (handleJoinGame allOpen s_waiting 0%nat "A").1 !! 0%nat = Some 1%nat ∧
  member (handleJoinGame allOpen s_waiting 0%nat "A").1 0%nat 2%nat ∧
  member (handleJoinGame allOpen s_waiting 0%nat "A").1 1%nat 2%nat.
Proof.
  destruct (C8_rejoin_replaces_registration allOpen s_waiting 0%nat "A" 0%nat)
    as (_ & Hreg & _ & _ & _ & Hq & _).
  - apply reachable_run, reachable_initial.
  - reflexivity.
  - split; [exact Hreg|]. apply Hq. vm_compute. left.
Defined.

(** *** Fire requests *)

(** C5: a fire request from a connection whose player is not the one to
    move in a session in progress (the other player, a session not in
    progress, no session at all) is answered with one [error] envelope to
    the sender, and the server state, [currentTurn] included, is unchanged. *)
Theorem C5_fire_out_of_turn_rejected ro s ws coordinates :
  ro ws = true → on_turn s ws = false →
  ∃ m, handleFire ro s ws coordinates = (s, [(ws, error m)]).
Proof.
  intros Hopen Hoff.
  destruct (handleFire_rejected ro s ws coordinates Hoff) as (m & ->).
  exists m. unfold sendError, sendMessage. by rewrite Hopen.
Qed.

(** In the session in progress with [currentTurn = 0], connection 0 holds
    index 1. *)
Lemma C5_witness :
  ∃ m, handleFire allOpen s_battle 0%nat (3, 4) = (s_battle, [(0%nat, error m)]).
Proof.
  apply (C5_fire_out_of_turn_rejected allOpen s_battle 0%nat (3, 4)).
  - reflexivity.
  - vm_compute. reflexivity.
Defined.

(** C9: no fire message changes the server state; for an accepted one
    (sender to move, session in progress) the one envelope sent is an
    [opponent_fire] with the same coordinates to the connection of the
    other member of the session, if that connection is open, and nothing is
    sent otherwise; the same request again is handled the same way. *)
Theorem C9_fire_is_a_pure_relay ro s ws coordinates :
  (handleFire ro s ws coordinates).1 = s ∧
  handleFire ro (handleFire ro s ws coordinates).1 ws coordinates
  = handleFire ro s ws coordinates ∧
  (reachable s → on_turn s ws = true →
   ∃ player gid game opponent opl,
     session_of s ws = Some (player, gid, game) ∧
     opponent ∈ Game.players game ∧ opponent ≠ Player.id player ∧
     heap s !! opponent = Some opl ∧
     (handleFire ro s ws coordinates).2
     = if ro (Player.ws opl)
       then [(Player.ws opl, opponent_fire coordinates)]
       else []).
Proof.
  split; [apply handleFire_state|]. split; [by rewrite handleFire_state|].
  intros Hwf%reachable_wf Hon.
  destruct (handleFire_accepted ro s ws coordinates Hwf Hon)
    as (player & gid & game & opponent & opl & Hs & Hin & Hne & Hopl & ->).
  exists player, gid, game, opponent, opl. done.
Qed.

(** In the session in progress, "B" on connection 1 is to move and fires at
    [[3, 4]], twice. *)
Lemma C9_witness :
  handleFire allOpen s_battle 1%nat (3, 4)
  = (s_battle, [(0%nat, opponent_fire (3, 4))]) ∧
  handleFire allOpen (handleFire allOpen s_battle 1%nat (3, 4)).1 1%nat (3, 4)
  = (s_battle, [(0%nat, opponent_fire (3, 4))]).
Proof.
  destruct (C9_fire_is_a_pure_relay allOpen s_battle 1%nat (3, 4))
    as (Hst & Hagain & Hacc).
  destruct Hacc as (player & gid & game & opponent & opl & Hs & Hin & Hne & Hopl & Hout).
  - apply reachable_run, reachable_run, reachable_initial.
  - vm_compute. reflexivity.
  - assert (Heq : (player, gid, game)
                 = (Player.mk 1%nat "B" 1%nat (Some 2%nat) (Some fleet_rows) true,
                    2%nat, Game.mk 2%nat [1%nat; 0%nat] 0 in_progress None))
      by (apply (inj Some); rewrite <- Hs; vm_compute; reflexivity).
    injection Heq as -> -> ->.
    assert (opponent = 0%nat) as ->.
    { cbn in Hin, Hne. apply elem_of_cons in Hin as [->|Hin]; [done|].
      by apply list_elem_of_singleton in Hin. }
    assert (opl = Player.mk 0%nat "A" 0%nat (Some 2%nat) (Some fleet_rows) true) as ->
      by (apply (inj Some); rewrite <- Hopl; vm_compute; reflexivity).
    assert (Hfire : handleFire allOpen s_battle 1%nat (3, 4)
                    = (s_battle, [(0%nat, opponent_fire (3, 4))])).
    { rewrite (surjective_pairing (handleFire allOpen s_battle 1%nat (3, 4))).
      by rewrite Hst, Hout. }
    split; [exact Hfire|]. by rewrite Hagain.
Defined.

(** *** Shot results *)





(** *** Disconnection *)

Lemma find_other_0 p0 p1 : p0 ≠ p1 → find (λ p, p ≠ p0) [p0; p1] = Some p1.
Proof.
  intros. unfold find. simpl. rewrite decide_False by naive_solver.
  rewrite decide_True by done. done.
Qed.

Lemma find_other_1 p0 p1 : p0 ≠ p1 → find (λ p, p ≠ p1) [p0; p1] = Some p0.
Proof. intros. unfold find. simpl. by rewrite decide_True. Qed.

(** Closing a connection whose session is no longer in [activeGames] sends
    nothing. *)
Lemma handleDisconnection_gone ro s ws player gid :
  players_get s ws = Some player → Player.gameId player = Some gid →
  activeGames s !! gid = None → (handleDisconnection ro s ws).2 = [].
Proof.
  intros Hget Hgid Hgone. unfold handleDisconnection. rewrite Hget, Hgid.
  set (s1 := if bool_decide _ then _ else s).
  assert (activeGames s1 = activeGames s) as Heq
    by (subst s1; by case_bool_decide).
  rewrite Heq, Hgone. done.
Qed.

(** C7, as stated, fails: in the battle of "A" and "B", connection 0 sends
    a second [join_game] and then closes.  "A" is a party of the session in
    progress and its connection has closed, yet no envelope is sent, and
    the session stays in [activeGames]. *)
Lemma C7_counterexample : ¬ disconnect_ends_session allOpen s_rejoined 0%nat.
Proof.
  intros H.
  destruct (H 2%nat (Game.mk 2%nat [1%nat; 0%nat] 0 in_progress None) 0%nat
              (Player.mk 0%nat "A" 0%nat (Some 2%nat) (Some fleet_rows) true))
    as (opponent & opl & _ & _ & _ & Hout & _).
  - vm_compute. reflexivity.
  - reflexivity.
  - cbn. apply elem_of_cons. right. apply elem_of_cons. by left.
  - vm_compute. reflexivity.
  - reflexivity.
  - assert (Hnil : (handleDisconnection allOpen s_rejoined 0%nat).2 = [])
      by (vm_compute; reflexivity).
    rewrite Hnil in Hout. discriminate Hout.
Qed.

(** C7, amended: the teardown follows the player that the registry holds
    for the closing connection.  When that player belongs to a session in
    progress, the only envelope sent is one [game_end] for the other
    member, naming it as winner with reason "opponent_disconnected" (none
    if the other member's connection is not open); the session leaves
    [activeGames], and whatever happens next, closing a connection whose
    player belonged to that session sends nothing.  When the registry holds
    no player with a live session for the connection (never joined, still
    waiting, session gone, or a player of a session replaced in the
    registry by a later [join_game] on the same connection), closing it
    sends nothing and removes no session. *)
Theorem C7_disconnect_ends_session_once ro s ws :
  reachable s →
  (∀ player gid game,
     session_of s ws = Some (player, gid, game) →
     Game.status game = in_progress →
     ∃ opponent opl,
       opponent ∈ Game.players game ∧ opponent ≠ Player.id player ∧
       heap s !! opponent = Some opl ∧ Player.gameId opl = Some gid ∧
       (handleDisconnection ro s ws).2
       = (if ro (Player.ws opl)
          then [(Player.ws opl,
                 game_end (Player.name opl) (Some "opponent_disconnected"))]
          else []) ∧
       activeGames (handleDisconnection ro s ws).1 = delete gid (activeGames s) ∧
       (∀ es ro' ws' player',
          players_get (run (handleDisconnection ro s ws).1 es).1 ws' = Some player' →
          Player.gameId player' = Some gid →
          (handleDisconnection ro' (run (handleDisconnection ro s ws).1 es).1 ws').2
          = [])) ∧
  (session_of s ws = None →
   (handleDisconnection ro s ws).2 = [] ∧
   activeGames (handleDisconnection ro s ws).1 = activeGames s).
Proof.
  intros Hreach. split.
  { intros player gid game. revert Hreach.
    intros Hwf%reachable_wf (Hget & Hgid & Hgame)%session_of_Some _.
    destruct (session_shape _ _ _ _ _ Hwf Hget Hgid Hgame)
      as (p0 & p1 & pl0 & pl1 & Hpl & Hne & H0 & H1 & Hg0 & Hg1 & _ & Hme).
    destruct (wf_games_key _ Hwf _ _ Hgame) as [_ Hlt].
    assert (Hrun : ∃ opponent opl,
      opponent ∈ Game.players game ∧ opponent ≠ Player.id player ∧
      heap s !! opponent = Some opl ∧ Player.gameId opl = Some gid ∧
      handleDisconnection ro s ws
      = (set_players (delete ws (players s))
           (set_activeGames (delete gid (activeGames s))
              (if bool_decide (findIndex (Player.id player) (waitingPlayers s) ≠ -1)
               then set_waitingPlayers
                      (splice1 (findIndex (Player.id player) (waitingPlayers s))
                         (waitingPlayers s)) s
               else s)),
         sendMessage ro (Player.ws opl)
           (game_end (Player.name opl) (Some "opponent_disconnected")))).
    { unfold handleDisconnection. rewrite Hget, Hgid.
      set (s1 := if bool_decide _ then _ else s).
      assert (activeGames s1 = activeGames s ∧ heap s1 = heap s ∧ players s1 = players s)
        as (Ha & Hh & Hp) by (subst s1; by case_bool_decide).
      rewrite Ha, Hgame, Hpl. unfold sendTo. rewrite Hh.
      destruct Hme as [[Hid ->]|[Hid ->]]; rewrite Hid.
      - exists p1, pl1. rewrite find_other_0 by done. rewrite H1. simpl.
        split; [by right; left|]. split; [congruence|].
        split; [done|]. split; [done|]. by rewrite Hp.
      - exists p0, pl0. rewrite find_other_1 by done. rewrite H0. simpl.
        split; [by left|]. split; [done|].
        split; [done|]. split; [done|]. by rewrite Hp. }
    destruct Hrun as (opponent & opl & Hin & Hno & Hopl & Hog & Heq).
    exists opponent, opl. rewrite Heq. simpl.
    split; [done|]. split; [done|]. split; [done|]. split; [done|]. split; [done|].
    split.
    { by case_bool_decide. }
    intros es ro' ws' player' Hget' Hgid'.
    eapply handleDisconnection_gone; [done..|].
    apply run_game_gone; simpl.
    - by rewrite lookup_delete_eq.
    - by case_bool_decide. }
  intros Hnone. unfold session_of in Hnone. unfold handleDisconnection.
  destruct (players_get s ws) as [player|]; [|done]. cbn in Hnone.
  set (s1 := if bool_decide _ then _ else s).
  assert (activeGames s1 = activeGames s) as Ha by (subst s1; by case_bool_decide).
  destruct (Player.gameId player) as [gid|]; cbn in Hnone; [|done].
  rewrite Ha. destruct (activeGames s !! gid); [done|]. done.
Qed.

(** In the battle, connection 0 closes, then connection 1; and, after a
    second [join_game] on connection 0, connection 0 closes. *)
Lemma C7_witness :
  (handleDisconnection allOpen s_battle 0%nat).2
  = [(1%nat, game_end "B" (Some "opponent_disconnected"))] ∧
  activeGames (handleDisconnection allOpen s_battle 0%nat).1 = ∅ ∧
  (handleDisconnection allOpen (handleDisconnection allOpen s_battle 0%nat).1 1%nat).2 = [] ∧
  (handleDisconnection allOpen s_rejoined 0%nat).2 = [] ∧
  activeGames (handleDisconnection allOpen s_rejoined 0%nat).1 = activeGames s_rejoined.
Proof.
  destruct (C7_disconnect_ends_session_once allOpen s_battle 0%nat) as [Hsome _].
  { apply reachable_run, reachable_run, reachable_initial. }
  destruct (C7_disconnect_ends_session_once allOpen s_rejoined 0%nat) as [_ Hnone].
  { apply reachable_run, reachable_run, reachable_run, reachable_initial. }
  destruct (Hsome (Player.mk 0%nat "A" 0%nat (Some 2%nat) (Some fleet_rows) true) 2%nat
              (Game.mk 2%nat [1%nat; 0%nat] 0 in_progress None))
    as (opponent & opl & Hin & Hne & Hopl & _ & Hout & Hgames & Hlater).
  - vm_compute. reflexivity.
  - reflexivity.
  - assert (opponent = 1%nat) as ->.
    { cbn in Hin, Hne. apply elem_of_cons in Hin as [->|Hin]; [done|].
      apply list_elem_of_singleton in Hin. done. }
    assert (opl = Player.mk 1%nat "B" 1%nat (Some 2%nat) (Some fleet_rows) true) as ->
      by (apply (inj Some); rewrite <- Hopl; vm_compute; reflexivity).
    split; [exact Hout|]. split; [rewrite Hgames; vm_compute; reflexivity|].
    split; [|apply Hnone; vm_compute; reflexivity].
    apply (Hlater [] allOpen 1%nat
             (Player.mk 1%nat "B" 1%nat (Some 2%nat) (Some fleet_rows) true)).
    + vm_compute. reflexivity.
    + reflexivity.
Defined.

(** * Further properties *)

(** ** More on the validator *)

Lemma sortCells_perm l l' : l ≡ₚ l' → sortCells l = sortCells l'.
Proof.
  intros Hp. apply sortCells_unique.
  - apply (Sorted_merge_sort cellLe).
  - unfold sortCells. by rewrite merge_sort_Permutation.
Qed.

Lemma validateShipContinuity_perm l l' :
  l ≡ₚ l' → (validateShipContinuity l).1 = (validateShipContinuity l').1.
Proof.
  intros Hp. unfold validateShipContinuity.
  rewrite (Permutation_length Hp). case_bool_decide; [done|].
  by rewrite (sortCells_perm _ _ Hp).
Qed.

Lemma validateShipContinuity_snd l :
  (validateShipContinuity l).2
  = if bool_decide (Z.of_nat (length l) <= 1) then l else sortCells l.
Proof.
  unfold validateShipContinuity. case_bool_decide; [done|].
  destruct (sortCells l); [done|]. by destruct (_ && _).
Qed.

Lemma validateShipContinuity_snd_perm l : (validateShipContinuity l).2 ≡ₚ l.
Proof.
  rewrite validateShipContinuity_snd. case_bool_decide; [done|].
  apply (merge_sort_Permutation cellLe).
Qed.

Lemma validateShipContinuity_snd_sorted l :
  Sorted cellLe (validateShipContinuity l).2.
Proof.
  rewrite validateShipContinuity_snd. case_bool_decide as Hl.
  - destruct l as [|x [|y l]]; [constructor|repeat constructor|simpl in Hl; lia].
  - apply (Sorted_merge_sort cellLe).
Qed.

Lemma validateShipContinuity_snd_idemp l :
  (validateShipContinuity (validateShipContinuity l).2).2
  = (validateShipContinuity l).2.
Proof.
  rewrite (validateShipContinuity_snd (_.2)).
  case_bool_decide; [done|]. apply sortCells_unique; [|done].
  apply validateShipContinuity_snd_sorted.
Qed.

Lemma shipsLoop_ships counts occ ships counts' ships' :
  shipsLoop counts occ ships = Some (counts', ships') →
  ships' = sortedShip <$> ships.
Proof.
  revert counts occ counts' ships'.
  induction ships as [|ship ships IH]; intros counts occ counts' ships'.
  - by intros [= <- <-].
  - cbn [shipsLoop].
    destruct (expectedLength _); [|done].
    destruct (_ || _); [done|].
    destruct (positionsLoop _ _); [|done].
    rewrite fmap_cons. unfold sortedShip at 1.
    destruct (validateShipContinuity _) as [[] sorted]; [|done]. cbn [negb snd].
    match goal with |- context [shipsLoop ?c ?o ships] =>
      destruct (shipsLoop c o ships) as [[c' s']|] eqn:Hrec end; [|done].
    intros [= <- <-]. f_equal. by eapply IH.
Qed.

Lemma validateShipPlacement_run_Some ships ships' :
  validateShipPlacement_run ships = Some ships' →
  validateShipPlacement ships = true ∧ ships' = sortedShip <$> ships.
Proof.
  unfold validateShipPlacement. intros Hrun. rewrite Hrun. split; [done|].
  unfold validateShipPlacement_run in Hrun.
  destruct (shipsLoop ∅ ∅ ships) as [[c s']|] eqn:Hloop; [|done].
  destruct (countsLoop c); [|done]. injection Hrun as <-.
  by eapply shipsLoop_ships.
Qed.

Lemma validateShipPlacement_run_true ships :
  validateShipPlacement ships = true →
  validateShipPlacement_run ships = Some (sortedShip <$> ships).
Proof.
  unfold validateShipPlacement.
  destruct (validateShipPlacement_run ships) as [ships'|] eqn:Hrun; [|done].
  intros _. f_equal. by apply validateShipPlacement_run_Some in Hrun as [_ ->].
Qed.

Lemma shipOK_same a b : same_ship a b → shipOK a → shipOK b.
Proof.
  intros [Ht Hp] (n & He & Hn & Hl & Hc). exists n.
  rewrite <- Ht, <- (Permutation_length Hp).
  by rewrite <- (validateShipContinuity_perm _ _ Hp).
Qed.

Lemma cells_same ships ships' :
  Forall2 same_ship ships ships' → cells ships ≡ₚ cells ships'.
Proof.
  induction 1 as [|a b l l' [_ Hp] _ IH]; [done|].
  rewrite !cells_cons. by rewrite Hp, IH.
Qed.

Lemma count_same k ships ships' :
  Forall2 same_ship ships ships' → count k ships = count k ships'.
Proof.
  induction 1 as [|a b l l' [Ht _] _ IH]; [done|].
  rewrite !count_cons, Ht, IH. done.
Qed.

Lemma validateShipPlacement_same_1 ships ships' :
  Forall2 same_ship ships ships' →
  validateShipPlacement ships = true → validateShipPlacement ships' = true.
Proof.
  intros Hs (Hok & Hnd & Hbd & Hcount)%validateShipPlacement_spec.
  apply validateShipPlacement_spec.
  pose proof (cells_same _ _ Hs) as Hcells. repeat split.
  - clear -Hs Hok. induction Hs; [constructor|].
    apply Forall_cons in Hok as [? ?]. constructor; [by eapply shipOK_same|auto].
  - by rewrite <- Hcells.
  - by rewrite <- Hcells.
  - intros k Hk. rewrite <- (count_same k _ _ Hs). by apply Hcount.
Qed.

Lemma same_ship_sym ships ships' :
  Forall2 same_ship ships ships' → Forall2 same_ship ships' ships.
Proof.
  induction 1 as [|a b l l' [Ht Hp] _ IH]; constructor; [|done].
  split; [done|by symmetry].
Qed.

Lemma validateShipPlacement_perm_1 ships ships' :
  ships ≡ₚ ships' →
  validateShipPlacement ships = true → validateShipPlacement ships' = true.
Proof.
  intros Hp (Hok & Hnd & Hbd & Hcount)%validateShipPlacement_spec.
  apply validateShipPlacement_spec.
  assert (Hcells : cells ships ≡ₚ cells ships') by (unfold cells; by rewrite Hp).
  repeat split.
  - by rewrite <- Hp.
  - by rewrite <- Hcells.
  - by rewrite <- Hcells.
  - intros k Hk. unfold count. rewrite <- Hp. by apply Hcount.
Qed.

Lemma sortedShip_same ships : Forall2 same_ship ships (sortedShip <$> ships).
Proof.
  induction ships as [|ship ships IH]; [constructor|].
  rewrite fmap_cons. constructor; [|done]. split; [done|].
  simpl. symmetry. apply validateShipContinuity_snd_perm.
Qed.

Lemma sortedShip_idemp ship : sortedShip (sortedShip ship) = sortedShip ship.
Proof. unfold sortedShip. simpl. by rewrite validateShipContinuity_snd_idemp. Qed.

(** X1: the verdict does not depend on the order of the ships, nor on the
    order in which a ship lists its cells. *)
Theorem validateShipPlacement_order_independent ships ships' :
  (ships ≡ₚ ships' ∨ Forall2 same_ship ships ships') →
  validateShipPlacement ships = validateShipPlacement ships'.
Proof.
  intros H. apply eq_true_iff_eq. destruct H as [Hp|Hs]; split.
  - by apply validateShipPlacement_perm_1.
  - apply validateShipPlacement_perm_1. by symmetry.
  - by apply validateShipPlacement_same_1.
  - by apply validateShipPlacement_same_1, same_ship_sym.
Qed.

Lemma validateShipPlacement_order_independent_witness :
  validateShipPlacement fleet_rows = validateShipPlacement (reverse fleet_rows).
Proof.
  apply (validateShipPlacement_order_independent fleet_rows (reverse fleet_rows)).
  left. symmetry. apply reverse_Permutation.
Defined.

Lemma validateShipPlacement_run_fixed ships ships' :
  validateShipPlacement_run ships = Some ships' →
  validateShipPlacement_run ships' = Some ships'.
Proof.
  intros [Hok ->]%validateShipPlacement_run_Some.
  rewrite validateShipPlacement_run_true.
  - f_equal. rewrite <- list_fmap_compose. apply list_fmap_ext.
    intros _ ship _. apply sortedShip_idemp.
  - eapply validateShipPlacement_same_1; [apply sortedShip_same|done].
Qed.

(** X2: an accepted fleet comes out of the validator with every ship's
    cells sorted (by row, then column) and otherwise unchanged, and that
    fleet is accepted again and comes out as it is. *)
Theorem validateShipPlacement_run_normal_form ships ships' :
  validateShipPlacement_run ships = Some ships' →
  Forall2 same_ship ships ships' ∧
  Forall (λ ship, Sorted cellLe (Ship.positions ship)) ships' ∧
  validateShipPlacement_run ships' = Some ships'.
Proof.
  intros Hrun. pose proof (validateShipPlacement_run_fixed _ _ Hrun) as Hfixed.
  apply validateShipPlacement_run_Some in Hrun as [Hok ->]. repeat split.
  - apply sortedShip_same.
  - apply Forall_fmap, Forall_true. intros ship. simpl.
    apply validateShipContinuity_snd_sorted.
  - exact Hfixed.
Qed.

Lemma validateShipPlacement_run_normal_form_witness :
  Forall2 same_ship fleet_shuffled fleet_rows ∧
  Forall (λ ship, Sorted cellLe (Ship.positions ship)) fleet_rows ∧
  validateShipPlacement_run fleet_rows = Some fleet_rows.
Proof.
  apply (validateShipPlacement_run_normal_form fleet_shuffled fleet_rows).
  vm_compute. reflexivity.
Defined.

(** X3: whatever the types of its ships, an accepted fleet with integer
    coordinates has each of the five kinds exactly once, no empty ship, all
    rows and columns within 0..9, no cell twice, and every ship of two cells
    or more is a straight run.  (Integer coordinates are what [Cell] holds;
    the validator does not test for them.) *)
Theorem validateShipPlacement_accepted_sound ships :
  validateShipPlacement ships = true →
  (∀ k, k ∈ kinds → count k ships = 1%nat) ∧
  Forall in_bounds (cells ships) ∧ NoDup (cells ships) ∧
  Forall (λ ship, Ship.positions ship ≠ [] ∧
                  ((2 ≤ length (Ship.positions ship))%nat →
                   straight_run (Ship.positions ship))) ships.
Proof.
  intros (Hok & Hnd & Hbd & Hcount)%validateShipPlacement_spec.
  repeat split; try done.
  eapply Forall_impl; [exact Hok|]. intros ship (n & _ & Hn & Hl & Hc). split.
  - intros Hnil. rewrite Hnil in Hl. simpl in Hl. lia.
  - intros Hlen. by apply validateShipContinuity_spec.
Qed.

Lemma validateShipPlacement_accepted_sound_witness :
  (∀ k, k ∈ kinds → count k fleet_with_constructor = 1%nat) ∧
  Forall in_bounds (cells fleet_with_constructor) ∧
  NoDup (cells fleet_with_constructor) ∧
  Forall (λ ship, Ship.positions ship ≠ [] ∧
                  ((2 ≤ length (Ship.positions ship))%nat →
                   straight_run (Ship.positions ship))) fleet_with_constructor.
Proof.
  apply (validateShipPlacement_accepted_sound fleet_with_constructor).
  vm_compute. reflexivity.
Defined.

Lemma transposeCell_involutive cell : transposeCell (transposeCell cell) = cell.
Proof. by destruct cell. Qed.

Global Instance transposeCell_inj : Inj (=) (=) transposeCell.
Proof. intros [a b] [c d] [= -> ->]. done. Qed.

Lemma transpose_row_of r c n : transposeCell <$> row_of r c n = col_of c r n.
Proof.
  unfold row_of, col_of. rewrite <- list_fmap_compose. by apply list_fmap_ext.
Qed.

Lemma transpose_col_of r c n : transposeCell <$> col_of r c n = row_of c r n.
Proof.
  unfold row_of, col_of. rewrite <- list_fmap_compose. by apply list_fmap_ext.
Qed.

Lemma straight_run_transpose l : straight_run l → straight_run (transposeCell <$> l).
Proof.
  intros (r & c & [H|H]); exists c, r; rewrite length_fmap.
  - right. by rewrite H, transpose_row_of at 1.
  - left. by rewrite H, transpose_col_of at 1.
Qed.

Lemma validateShipContinuity_transpose l :
  (validateShipContinuity l).1 = true →
  (validateShipContinuity (transposeCell <$> l)).1 = true.
Proof.
  destruct (decide (2 ≤ length l)%nat) as [Hlen|Hlen].
  - intros Hok%validateShipContinuity_spec; [|done].
    apply validateShipContinuity_spec; [by rewrite length_fmap|].
    by apply straight_run_transpose.
  - intros _. unfold validateShipContinuity. rewrite length_fmap.
    rewrite bool_decide_true by lia. done.
Qed.

Lemma cells_transpose ships :
  cells (transposeShip <$> ships) = transposeCell <$> cells ships.
Proof.
  induction ships as [|ship ships IH]; [done|].
  rewrite fmap_cons, !cells_cons, fmap_app, IH. done.
Qed.

Lemma count_transpose k ships : count k (transposeShip <$> ships) = count k ships.
Proof.
  induction ships as [|ship ships IH]; [done|].
  rewrite fmap_cons, !count_cons, IH. done.
Qed.

Lemma validateShipPlacement_transpose_1 ships :
  validateShipPlacement ships = true →
  validateShipPlacement (transposeShip <$> ships) = true.
Proof.
  intros (Hok & Hnd & Hbd & Hcount)%validateShipPlacement_spec.
  apply validateShipPlacement_spec. repeat split.
  - apply Forall_fmap. eapply Forall_impl; [exact Hok|].
    intros ship (n & He & Hn & Hl & Hc). exists n. simpl.
    rewrite length_fmap. repeat split; try done.
    by apply validateShipContinuity_transpose.
  - rewrite cells_transpose. apply NoDup_fmap_2; [apply transposeCell_inj|done].
  - rewrite cells_transpose. apply Forall_fmap.
    eapply Forall_impl; [exact Hbd|]. intros [r c]. unfold in_bounds. simpl. lia.
  - intros k Hk. rewrite count_transpose. by apply Hcount.
Qed.

Lemma transposeShip_involutive (ships : list Ship.t) :
  transposeShip <$> (transposeShip <$> ships) = ships.
Proof.
  rewrite <- list_fmap_compose. rewrite <- (list_fmap_id ships) at 2.
  apply list_fmap_ext. intros _ [t ps] _. unfold transposeShip. simpl. f_equal.
  rewrite <- list_fmap_compose. rewrite <- (list_fmap_id ps) at 2.
  apply list_fmap_ext. intros _ cell _. apply transposeCell_involutive.
Qed.

(** X4: the verdict is the same for a fleet and for its mirror image on
    the diagonal, where every horizontal ship is vertical and conversely. *)
Theorem validateShipPlacement_transpose ships :
  validateShipPlacement (transposeShip <$> ships) = validateShipPlacement ships.
Proof.
  apply eq_true_iff_eq. split.
  - intros H%validateShipPlacement_transpose_1.
    by rewrite transposeShip_involutive in H.
  - apply validateShipPlacement_transpose_1.
Qed.

Lemma validateShipPlacement_five_kinds_witness :
  validateShipPlacement fleet_rows = true ↔ placement_legal fleet_rows.
Proof.
  apply (validateShipPlacement_five_kinds fleet_rows).
  unfold kinds, fleet_rows. cbn. repeat constructor.
Defined.

(** ** What is sent, and to whom *)

Section outputs.
Context (ro : Conn → bool) (Q : Out → Prop).

Lemma Forall_sendMessage c envelope :
  (∀ c, ro c = true → Q (c, envelope)) → Forall Q (sendMessage ro c envelope).
Proof.
  intros H. unfold sendMessage. destruct (ro c) eqn:Hc; [|constructor].
  repeat constructor. by apply H.
Qed.

Lemma Forall_sendTo s (p : Uuid) envelope :
  (∀ c, ro c = true → Q (c, envelope)) → Forall Q (sendTo ro s p envelope).
Proof.
  intros H. unfold sendTo. destruct (heap s !! p); [|constructor].
  by apply Forall_sendMessage.
Qed.

Lemma Forall_announceTurn s game :
  (∀ b c, ro c = true → Q (c, turn_change b)) → Forall Q (announceTurn ro s game).
Proof.
  intros H. unfold announceTurn. apply Forall_forall. intros o Ho.
  apply list_elem_of_join in Ho as (l & Ho & Hl).
  apply elem_of_lookup_imap in Hl as (i & p & -> & _).
  revert o Ho. apply Forall_forall, Forall_sendTo. apply H.
Qed.

Lemma Forall_createGame s p1 p2 :
  (∀ g n t c, ro c = true → Q (c, game_start g n t)) →
  Forall Q (createGame ro s p1 p2).2.
Proof.
  intros H. unfold createGame. simpl. apply Forall_app. split; apply Forall_sendTo; apply H.
Qed.

(** Each handler either stops with one [sendError] to the sender and the
    state as it was, or sends envelopes that are no errors. *)
Lemma handler_outcome s ws message :
  (∀ g n t c, ro c = true → Q (c, game_start g n t)) →
  (∀ b c, ro c = true → Q (c, turn_change b)) →
  (∀ xy c, ro c = true → Q (c, opponent_fire xy)) →
  (∀ xy r k c, ro c = true → Q (c, shot_result xy r k)) →
  (∃ m, handleClientMessage ro s ws message = (s, sendError ro ws m)) ∨
  Forall Q (handleClientMessage ro s ws message).2.
Proof.
  intros Hgs Htc Hof Hsr. destruct message as [name|ships|c|c r k|t]; simpl.
  - right. unfold handleJoinGame. simpl.
    destruct (waitingPlayers s); [constructor|]. apply Forall_createGame; auto.
  - unfold handleSetupComplete.
    destruct (players_get s ws) as [player|]; [|eauto].
    destruct (Player.gameId player) as [gid|]; [|eauto].
    destruct (activeGames s !! gid) as [game|]; [|eauto].
    destruct (validateShipPlacement_run ships) as [ships'|]; [|eauto].
    right. match goal with |- context [if ?b then _ else _] => destruct b end;
      [|constructor].
    apply Forall_announceTurn; auto.
  - unfold handleFire.
    destruct (players_get s ws) as [player|]; [|eauto].
    destruct (Player.gameId player) as [gid|]; [|eauto].
    destruct (activeGames s !! gid) as [game|]; [|eauto].
    case_bool_decide; [eauto|]. case_bool_decide; [eauto|].
    destruct (at_index _ _); [|unfold caught; eauto].
    right. apply Forall_sendTo; auto.
  - unfold handleFireResult, checkAllShipsSunk.
    destruct (players_get s ws) as [player|]; [|eauto].
    destruct (Player.gameId player) as [gid|]; [|eauto].
    destruct (activeGames s !! gid) as [game|]; [|eauto].
    destruct (at_index _ _); [|unfold caught; eauto].
    right. rewrite andb_false_r. simpl. apply Forall_app. split.
    + apply Forall_sendTo; auto.
    + apply Forall_announceTurn; auto.
  - eauto.
Qed.
End outputs.

(** X6: an [error] envelope in the reply to a message means that nothing
    else was sent, to nobody else, and that the server state is as it was. *)
Theorem error_reply_changes_nothing ro s ws message (o : Out) :
  o ∈ (handleClientMessage ro s ws message).2 → is_error o.2 = true →
  ∃ m, handleClientMessage ro s ws message = (s, [(ws, error m)]).
Proof.
  intros Ho Herr.
  destruct (handler_outcome ro (λ o, is_error o.2 = false) s ws message
              (λ _ _ _ _ _, eq_refl) (λ _ _ _, eq_refl) (λ _ _ _, eq_refl)
              (λ _ _ _ _ _, eq_refl))
    as [(m & Heq)|Hall].
  - exists m. rewrite Heq in Ho |- *. unfold sendError, sendMessage in *.
    destruct (ro ws); [done|]. by apply elem_of_nil in Ho.
  - rewrite Forall_forall in Hall. rewrite (Hall o Ho) in Herr. done.
Qed.

Lemma error_reply_changes_nothing_witness :
  ∃ m, handleClientMessage allOpen s_battle 0%nat (fire (3, 4))
       = (s_battle, [(0%nat, error m)]).
Proof.
  apply (error_reply_changes_nothing allOpen s_battle 0%nat (fire (3, 4))
           (0%nat, error "Not your turn")).
  - vm_compute. left.
  - reflexivity.
Defined.

(** X7: nothing is ever sent on a connection that is not open. *)
Theorem nothing_sent_on_closed_socket ro s e (o : Out) :
  o ∈ (step ro s e).2 → ro o.1 = true.
Proof.
  revert o. apply Forall_forall. destruct e as [ws message|ws|ws]; simpl.
  - destruct (handler_outcome ro (λ o, ro o.1 = true) s ws message
                (λ _ _ _ _ H, H) (λ _ _ H, H) (λ _ _ H, H) (λ _ _ _ _ H, H))
      as [(m & ->)|Hall]; [|done].
    apply Forall_sendMessage; auto.
  - apply Forall_sendMessage; auto.
  - unfold handleDisconnection.
    destruct (players_get s ws) as [player|]; [|constructor].
    set (s1 := if bool_decide _ then _ else s). clearbody s1.
    destruct (Player.gameId player) as [gid|]; [|constructor].
    destruct (activeGames s1 !! gid) as [game|]; [|constructor]. simpl.
    destruct (find _ _); [|constructor].
    apply Forall_sendTo; auto.
Qed.

Lemma nothing_sent_on_closed_socket_witness :
  (step (onlyOpen 1%nat) s_battle (on_message 1%nat (fire (3, 4)))).2 = [] ∧
  onlyOpen 0%nat (0%nat, opponent_fire (3, 4)).1 = true.
Proof.
  split; [vm_compute; reflexivity|].
  apply (nothing_sent_on_closed_socket (onlyOpen 0%nat) s_battle
           (on_message 1%nat (fire (3, 4))) (0%nat, opponent_fire (3, 4))).
  vm_compute. left.
Defined.

(** ** Invariants of the reachable states *)

(** X8: the wait queue never holds more than one player, and a waiting
    player has no session: its [gameId] is null and no live session has it
    as a member. *)
Theorem queue_holds_one_unpaired_player s :
  reachable s →
  (length (waitingPlayers s) ≤ 1)%nat ∧
  ∀ p, p ∈ waitingPlayers s →
    (∃ player, heap s !! p = Some player ∧ Player.gameId player = None) ∧
    ∀ gid, ¬ member s p gid.
Proof.
  intros Hwf%reachable_wf. split; [by apply wf_queue_length|].
  intros p Hp. destruct (wf_queue _ Hwf _ Hp) as (pl & Hpl & Hg).
  split; [eauto|]. intros gid (game & Hgame & Hin).
  destruct (wf_games_players _ Hwf _ _ Hgame)
    as (p0 & p1 & pl0 & pl1 & Hps & _ & H0 & H1 & Hg0 & Hg1).
  rewrite Hps in Hin. apply elem_of_cons in Hin as [->|Hin].
  - congruence.
  - apply list_elem_of_singleton in Hin as ->. congruence.
Qed.

Lemma queue_holds_one_unpaired_player_witness :
  (length (waitingPlayers s_waiting) ≤ 1)%nat ∧
  ∀ p, p ∈ waitingPlayers s_waiting →
    (∃ player, heap s_waiting !! p = Some player ∧ Player.gameId player = None) ∧
    ∀ gid, ¬ member s_waiting p gid.
Proof.
  apply (queue_holds_one_unpaired_player s_waiting).
  apply reachable_run, reachable_initial.
Defined.

(** X9: a session in [activeGames] is stored under its own id, has two
    distinct players, a [currentTurn] of 0 or 1, is in setup or in
    progress, and has no winner. *)
Theorem live_session_shape s gid game :
  reachable s → activeGames s !! gid = Some game →
  Game.id game = gid ∧
  (∃ p0 p1, Game.players game = [p0; p1] ∧ p0 ≠ p1) ∧
  (Game.currentTurn game = 0 ∨ Game.currentTurn game = 1) ∧
  (Game.status game = setup ∨ Game.status game = in_progress) ∧
  Game.winner game = None.
Proof.
  intros Hwf%reachable_wf Hgame.
  destruct (wf_games_key _ Hwf _ _ Hgame) as [Hid _].
  destruct (wf_games_players _ Hwf _ _ Hgame) as (p0 & p1 & _ & _ & Hps & Hne & _).
  destruct (wf_games_open _ Hwf _ _ Hgame) as [Hst Hw].
  repeat split; try done.
  - by exists p0, p1.
  - by eapply wf_games_turn.
  - destruct (Game.status game); [by left|by right|done].
Qed.

Lemma live_session_shape_witness :
  ∃ game, activeGames s_battle !! 2%nat = Some game ∧ Game.id game = 2%nat ∧
          Game.winner game = None.
Proof.
  eexists. split; [vm_compute; reflexivity|].
  destruct (live_session_shape s_battle 2%nat
              (Game.mk 2%nat [1%nat; 0%nat] 0 in_progress None))
    as (Hid & _ & _ & _ & Hw).
  - apply reachable_run, reachable_run, reachable_initial.
  - vm_compute. reflexivity.
  - split; [exact Hid|exact Hw].
Defined.

(** X10: the player registered for a connection is bound to it, so no
    player is registered for two connections. *)
Theorem registry_is_injective s c1 c2 (p : Uuid) :
  reachable s → players s !! c1 = Some p → players s !! c2 = Some p →
  c1 = c2 ∧ ∃ player, players_get s c1 = Some player ∧ Player.ws player = c1 ∧
                      Player.id player = p.
Proof.
  intros Hwf%reachable_wf H1 H2.
  destruct (wf_registry _ Hwf _ _ H1) as (pl1 & Hp1 & Hw1).
  destruct (wf_registry _ Hwf _ _ H2) as (pl2 & Hp2 & Hw2).
  split; [congruence|]. exists pl1. unfold players_get. rewrite H1. simpl.
  split; [done|]. split; [done|]. by eapply wf_heap_id.
Qed.

Lemma registry_is_injective_witness :
  ∃ player, players_get s_battle 1%nat = Some player ∧ Player.ws player = 1%nat ∧
            Player.id player = 1%nat.
Proof.
  destruct (registry_is_injective s_battle 1%nat 1%nat 1%nat) as [_ H].
  - apply reachable_run, reachable_run, reachable_initial.
  - vm_compute. reflexivity.
  - vm_compute. reflexivity.
  - exact H.
Defined.

Lemma fleets_ok_initial : fleets_ok initial.
Proof. split; simpl; intros *; by rewrite lookup_empty. Qed.

(** A change of the heap and of the sessions that keeps [fleets_ok]: old
    records keep their fleet, new ones have none, and sessions are the old
    ones or not in progress. *)
Lemma fleets_ok_extend s s' :
  fleets_ok s →
  (∀ p pl', heap s' !! p = Some pl' →
     (Player.setupComplete pl' = false ∧ Player.ships pl' = None) ∨
     ∃ pl, heap s !! p = Some pl ∧ Player.ships pl' = Player.ships pl ∧
           Player.setupComplete pl' = Player.setupComplete pl) →
  (∀ p pl, heap s !! p = Some pl →
     ∃ pl', heap s' !! p = Some pl' ∧
            Player.setupComplete pl' = Player.setupComplete pl) →
  (∀ gid g', activeGames s' !! gid = Some g' → Game.status g' = in_progress →
     ∃ g, activeGames s !! gid = Some g ∧ Game.status g = in_progress ∧
          Game.players g = Game.players g') →
  fleets_ok s'.
Proof.
  intros [Hs Hn Hp] Hback Hfwd Hgames. split.
  - intros p pl' Hpl' Hc. destruct (Hback _ _ Hpl') as [[Hf _]|(pl & Hpl & He & Hc')].
    + congruence.
    + rewrite He. eapply Hs; [done|congruence].
  - intros p pl' Hpl' Hc. destruct (Hback _ _ Hpl') as [[_ Hf]|(pl & Hpl & He & Hc')].
    + done.
    + rewrite He. eapply Hn; [done|congruence].
  - intros gid g' p Hg' Hst Hin.
    destruct (Hgames _ _ Hg' Hst) as (g & Hg & Hst' & Hps).
    rewrite <- Hps in Hin. destruct (Hp _ _ _ Hg Hst' Hin) as (pl & Hpl & Hc).
    destruct (Hfwd _ _ Hpl) as (pl' & Hpl' & Hc'). exists pl'. split; congruence.
Qed.

Lemma handleJoinGame_heap_back ro s ws playerName (p : Uuid) pl' :
  heap (handleJoinGame ro s ws playerName).1 !! p = Some pl' →
  (Player.setupComplete pl' = false ∧ Player.ships pl' = None) ∨
  ∃ pl, heap s !! p = Some pl ∧ Player.ships pl' = Player.ships pl ∧
        Player.setupComplete pl' = Player.setupComplete pl.
Proof.
  rewrite handleJoinGame_unfold.
  destruct (waitingPlayers s) as [|opp rest]; simpl.
  - rewrite lookup_insert. case_decide; [intros [= <-]; by left|]. eauto.
  - destruct (decide (p = uuidNext s)) as [->|Hn].
    + intros Heq. left. revert Heq.
      destruct (decide (opp = uuidNext s)) as [->|Ho].
      * rewrite !lookup_alter_eq, lookup_insert_eq. by intros [= <-].
      * rewrite lookup_alter_ne by done. rewrite lookup_alter_eq, lookup_insert_eq.
        by intros [= <-].
    + intros Heq. right. revert Heq.
      destruct (decide (p = opp)) as [->|Ho].
      * rewrite lookup_alter_eq, lookup_alter_ne by done.
        rewrite lookup_insert_ne by done.
        destruct (heap s !! opp) as [pl|]; [|done]. intros [= <-]. by exists pl.
      * rewrite !lookup_alter_ne by done. rewrite lookup_insert_ne by done. eauto.
Qed.

Lemma fleets_ok_handleJoinGame ro s ws playerName :
  wf s → fleets_ok s → fleets_ok (handleJoinGame ro s ws playerName).1.
Proof.
  intros Hwf Hok. eapply fleets_ok_extend; [exact Hok|..].
  - apply handleJoinGame_heap_back.
  - intros p pl Hpl. pose proof (wf_heap_fresh _ Hwf _ _ Hpl) as Hlt.
    rewrite handleJoinGame_unfold.
    destruct (waitingPlayers s) as [|opp rest]; simpl.
    + exists pl. by rewrite lookup_insert_ne by lia.
    + destruct (decide (p = opp)) as [->|Ho].
      * rewrite lookup_alter_eq, lookup_alter_ne by lia.
        rewrite lookup_insert_ne by lia. rewrite Hpl. simpl. eauto.
      * rewrite !lookup_alter_ne by (done || lia).
        rewrite lookup_insert_ne by lia. eauto.
  - intros gid g'. rewrite handleJoinGame_unfold.
    destruct (waitingPlayers s) as [|opp rest]; simpl; [eauto|].
    rewrite lookup_insert. case_decide; [by intros [= <-]|]. eauto.
Qed.

Lemma fleets_ok_handleSetupComplete ro s ws ships :
  wf s → fleets_ok s → fleets_ok (handleSetupComplete ro s ws ships).1.
Proof.
  intros Hwf Hok. unfold handleSetupComplete.
  destruct (players_get s ws) as [player|] eqn:Hget; [|done].
  destruct (Player.gameId player) as [gid|] eqn:Hgid; [|done].
  destruct (activeGames s !! gid) as [game|] eqn:Hgame; [|done].
  destruct (validateShipPlacement_run ships) as [ships'|] eqn:Hrun; [|done].
  destruct (wf_players_get _ _ _ Hwf Hget) as (Hheap & _).
  pose proof (validateShipPlacement_run_fixed _ _ Hrun) as Hrun'.
  assert (Hvalid : validateShipPlacement ships' = true)
    by (unfold validateShipPlacement; by rewrite Hrun').
  set (h' := <[Player.id player := Player.set_setup ships' player]> (heap s)).
  assert (Hbase : fleets_ok (set_heap h' s)).
  { destruct Hok as [Hs Hn Hp]. split; simpl.
    - intros p pl. subst h'. rewrite lookup_insert. case_decide.
      + intros [= <-] _. by exists ships'.
      + eauto.
    - intros p pl. subst h'. rewrite lookup_insert. case_decide.
      + by intros [= <-].
      + eauto.
    - intros g0 g p Hg Hst Hin. destruct (Hp _ _ _ Hg Hst Hin) as (pl & Hpl & Hc).
      subst h'. rewrite lookup_insert. case_decide; [|eauto].
      eexists. split; [done|]. done. }
  match goal with |- context [if ?b then _ else _] => destruct b eqn:Hall end;
    [|done].
  simpl. destruct Hbase as [Hs Hn Hp]. split; simpl; [done|done|].
  intros g0 g p. rewrite lookup_insert. case_decide; [|by apply Hp].
  intros [= <-] _ Hin. simpl in Hin.
  rewrite forallb_forall in Hall. specialize (Hall p).
  rewrite <- list_elem_of_In in Hall. specialize (Hall Hin). simpl in Hall.
  destruct (h' !! p) as [pl|]; [|done]. by exists pl.
Qed.

Lemma fleets_ok_step ro s e : wf s → fleets_ok s → fleets_ok (step ro s e).1.
Proof.
  intros Hwf Hok. destruct e as [ws [| | | |]| |]; simpl; try done.
  - by apply fleets_ok_handleJoinGame.
  - by apply fleets_ok_handleSetupComplete.
  - by rewrite handleFire_state.
  - eapply fleets_ok_extend; [exact Hok|..].
    + intros p pl'.
      destruct (handleFireResult_fields ro s ws coordinates result shipSunk) as [-> _].
      eauto.
    + intros p pl.
      destruct (handleFireResult_fields ro s ws coordinates result shipSunk) as [-> _].
      eauto.
    + unfold handleFireResult, checkAllShipsSunk.
      destruct (players_get s ws) as [player|]; [|eauto].
      destruct (Player.gameId player) as [gid|]; [|eauto].
      destruct (activeGames s !! gid) as [game|] eqn:Hgame; [|eauto].
      destruct (at_index _ _); [|eauto].
      rewrite andb_false_r. simpl. intros g0 g'. rewrite lookup_insert.
      case_decide; [|eauto]. intros [= <-]. subst g0. simpl. eauto.
  - eapply fleets_ok_extend; [exact Hok|..].
    + intros p pl'. destruct (handleDisconnection_fields ro s ws) as [-> _]. eauto.
    + intros p pl. destruct (handleDisconnection_fields ro s ws) as [-> _]. eauto.
    + intros g0 g' Hg' Hst.
      destruct (handleDisconnection_fields ro s ws) as (_ & _ & Hgone).
      destruct (activeGames s !! g0) as [g|] eqn:Hg.
      2:{ rewrite (Hgone _ Hg) in Hg'. done. }
      assert (g' = g) as ->; [|eauto].
      revert Hg'. unfold handleDisconnection.
      destruct (players_get s ws) as [player|]; [|simpl; congruence].
      set (s1 := if bool_decide _ then _ else s).
      assert (activeGames s1 = activeGames s) as Ha
        by (subst s1; by case_bool_decide).
      clearbody s1. destruct (Player.gameId player) as [gid|];
        [|simpl; congruence].
      destruct (activeGames s1 !! gid); simpl; [|congruence].
      rewrite lookup_delete. case_decide; [done|]. congruence.
Qed.

Lemma reachable_fleets_ok s : reachable s → fleets_ok s.
Proof.
  induction 1 as [|ro s e Hs IH]; [apply fleets_ok_initial|].
  apply fleets_ok_step; [by apply reachable_wf|done].
Qed.

(** X11: a session is in progress only if both its players have a stored
    fleet that the validator accepts; and whoever is marked
    [setupComplete] holds such a fleet, whoever is not holds none. *)
Theorem in_progress_needs_both_fleets s :
  reachable s →
  (∀ gid game p, activeGames s !! gid = Some game →
     Game.status game = in_progress → p ∈ Game.players game →
     ∃ player fleet, heap s !! p = Some player ∧
       Player.setupComplete player = true ∧ Player.ships player = Some fleet ∧
       validateShipPlacement fleet = true) ∧
  (∀ p player, heap s !! p = Some player →
     if Player.setupComplete player
     then ∃ fleet, Player.ships player = Some fleet ∧ validateShipPlacement fleet = true
     else Player.ships player = None).
Proof.
  intros [Hs Hn Hp]%reachable_fleets_ok. split.
  - intros gid game p Hg Hst Hin. destruct (Hp _ _ _ Hg Hst Hin) as (pl & Hpl & Hc).
    destruct (Hs _ _ Hpl Hc) as (fleet & Hf & Hv). by exists pl, fleet.
  - intros p player Hpl. destruct (Player.setupComplete player) eqn:Hc; eauto.
Qed.

Lemma in_progress_needs_both_fleets_witness :
  ∃ player fleet, heap s_battle !! 0%nat = Some player ∧
    Player.setupComplete player = true ∧ Player.ships player = Some fleet ∧
    validateShipPlacement fleet = true.
Proof.
  destruct (in_progress_needs_both_fleets s_battle) as [H _].
  - apply reachable_run, reachable_run, reachable_initial.
  - apply (H 2%nat (Game.mk 2%nat [1%nat; 0%nat] 0 in_progress None) 0%nat).
    + vm_compute. reflexivity.
    + reflexivity.
    + simpl. right. left.
Defined.

(** ** Matchmaking and disconnection *)

Lemma handleJoinGame_count ro s ws playerName :
  wf s →
  (length (waitingPlayers (handleJoinGame ro s ws playerName).1)
   + 2 * size (activeGames (handleJoinGame ro s ws playerName).1)
   = length (waitingPlayers s) + 2 * size (activeGames s) + 1)%nat.
Proof.
  intros Hwf. rewrite handleJoinGame_unfold.
  pose proof (wf_queue_length _ Hwf) as Hlen.
  destruct (waitingPlayers s) as [|opp [|? ?]]; simpl in *; [lia| |lia].
  rewrite map_size_insert_None; [lia|].
  destruct (activeGames s !! S (uuidNext s)) as [g|] eqn:Hg; [|done].
  destruct (wf_games_key _ Hwf _ _ Hg). lia.
Qed.

Lemma run_joins_count s l :
  reachable s →
  (length (waitingPlayers (run s (joins l)).1)
   + 2 * size (activeGames (run s (joins l)).1)
   = length (waitingPlayers s) + 2 * size (activeGames s) + length l)%nat.
Proof.
  revert s. induction l as [|[ws name] l IH]; intros s Hs; [simpl; lia|].
  cbn [joins fmap list_fmap run fst snd step handleClientMessage].
  pose proof (handleJoinGame_count allOpen s ws name (reachable_wf _ Hs)) as H1.
  assert (Hs1 : reachable (handleJoinGame allOpen s ws name).1)
    by apply (reachable_step allOpen s (on_message ws (join_game name)) Hs).
  specialize (IH _ Hs1). fold (joins l) in *.
  destruct (handleJoinGame allOpen s ws name) as [s1 out1]. cbn [fst snd] in *.
  destruct (run s1 (joins l)) as [s2 out2]. cbn [fst snd] in *. cbn [length]. lia.
Qed.

(** X12: joins are paired in arrival order, two by two: after [n] joins on
    a new server (and nothing else) there are [n / 2] sessions and
    [n mod 2] waiting players. *)
Theorem joins_pair_two_by_two l :
  (length (waitingPlayers (run initial (joins l)).1)
   + 2 * size (activeGames (run initial (joins l)).1) = length l)%nat ∧
  (length (waitingPlayers (run initial (joins l)).1) ≤ 1)%nat.
Proof.
  split.
  - rewrite (run_joins_count initial l reachable_initial). simpl.
    rewrite map_size_empty. lia.
  - apply wf_queue_length, reachable_wf, reachable_run, reachable_initial.
Qed.

(** X13: when the connection of the waiting player closes, nothing is
    sent, the queue becomes empty, the connection is unregistered and the
    sessions stay as they are. *)
Theorem disconnect_while_waiting ro s ws player :
  reachable s → players_get s ws = Some player →
  Player.id player ∈ waitingPlayers s →
  (handleDisconnection ro s ws).2 = [] ∧
  waitingPlayers (handleDisconnection ro s ws).1 = [] ∧
  players (handleDisconnection ro s ws).1 = delete ws (players s) ∧
  activeGames (handleDisconnection ro s ws).1 = activeGames s.
Proof.
  intros Hwf%reachable_wf Hget Hin.
  destruct (wf_queue _ Hwf _ Hin) as (pl & Hpl & Hg).
  destruct (wf_players_get _ _ _ Hwf Hget) as (Hheap & _).
  assert (pl = player) as -> by congruence.
  pose proof (wf_queue_length _ Hwf) as Hlen.
  unfold handleDisconnection. rewrite Hget, Hg.
  destruct (waitingPlayers s) as [|w [|? ?]] eqn:Hq; simpl in Hlen; [|clear Hlen|lia].
  { by apply elem_of_nil in Hin. }
  apply list_elem_of_singleton in Hin as <-.
  unfold findIndex. simpl. rewrite decide_True by done. simpl.
  done.
Qed.

Lemma disconnect_while_waiting_witness :
  (handleDisconnection allOpen s_waiting 0%nat).2 = [] ∧
  waitingPlayers (handleDisconnection allOpen s_waiting 0%nat).1 = [] ∧
  players (handleDisconnection allOpen s_waiting 0%nat).1
  = delete 0%nat (players s_waiting) ∧
  activeGames (handleDisconnection allOpen s_waiting 0%nat).1 = activeGames s_waiting.
Proof.
  apply (disconnect_while_waiting allOpen s_waiting 0%nat
           (Player.mk 0%nat "A" 0%nat None None false)).
  - apply reachable_run, reachable_initial.
  - vm_compute. reflexivity.
  - vm_compute. left.
Defined.

(** X14: closing a connection a second time does nothing: no envelope, no
    change of state. *)
Theorem disconnection_twice ro ro' s ws :
  handleDisconnection ro' (handleDisconnection ro s ws).1 ws
  = ((handleDisconnection ro s ws).1, []).
Proof.
  assert (Hnone : ∀ s0, players_get s0 ws = None →
            handleDisconnection ro' s0 ws = (s0, [])).
  { intros s0 H0. unfold handleDisconnection. by rewrite H0. }
  destruct (players_get s ws) as [player|] eqn:Hget.
  - apply Hnone. unfold handleDisconnection. rewrite Hget.
    set (s1 := if bool_decide _ then _ else s). clearbody s1.
    assert (∀ s2, players_get (set_players (delete ws (players s2)) s2) ws = None)
      as Hdel.
    { intros s2. unfold players_get. simpl. by rewrite lookup_delete_eq. }
    destruct (Player.gameId player) as [gid|]; [|apply Hdel].
    destruct (activeGames s1 !! gid); simpl; [|apply Hdel].
    apply (Hdel (set_activeGames _ s1)).
  - unfold handleDisconnection at 2 3. rewrite Hget. by apply Hnone.
Qed.

(** X15: a session message ([setup_complete], [fire], [fire_result]) from a
    connection that has no live session (never joined, still waiting, or
    session gone) gets one [error] back and changes nothing. *)
Theorem game_message_without_session ro s ws message :
  ro ws = true → session_of s ws = None → is_game_message message = true →
  ∃ m, handleClientMessage ro s ws message = (s, [(ws, error m)]).
Proof.
  intros Hopen Hnone Hmsg.
  assert (Herr : ∀ m, sendError ro ws m = [(ws, error m)])
    by (intros m; unfold sendError, sendMessage; by rewrite Hopen).
  unfold session_of in Hnone.
  destruct message as [?|ships|c|c r k|?]; try done; simpl;
    [unfold handleSetupComplete|unfold handleFire|unfold handleFireResult];
    destruct (players_get s ws) as [player|]; simpl in Hnone;
    try (eexists; by rewrite Herr);
    destruct (Player.gameId player) as [gid|]; simpl in Hnone;
    try (eexists; by rewrite Herr);
    destruct (activeGames s !! gid) as [game|]; simpl in Hnone;
    try done; eexists; by rewrite Herr.
Qed.

Lemma game_message_without_session_witness :
  ∃ m, handleClientMessage allOpen s_forfeit 1%nat (fire_result (0, 0) "miss" None)
       = (s_forfeit, [(1%nat, error m)]).
Proof.
  apply (game_message_without_session allOpen s_forfeit 1%nat
           (fire_result (0, 0) "miss" None)).
  - reflexivity.
  - vm_compute. reflexivity.
  - reflexivity.
Defined.

(** ** Setup and turns *)









(** X19: an event leaves every live session but the sender's as it is. *)
Theorem other_sessions_untouched ro s e (gid : Uuid) game :
  reachable s → activeGames s !! gid = Some game →
  (∀ player game', session_of s (event_conn e) ≠ Some (player, gid, game')) →
  activeGames (step ro s e).1 !! gid = Some game.
Proof.
  intros Hwf%reachable_wf Hgame Hother.
  destruct (wf_games_key _ Hwf _ _ Hgame) as [_ Hlt].
  assert (Hsess : ∀ player g, players_get s (event_conn e) = Some player →
            Player.gameId player = Some g → is_Some (activeGames s !! g) → g ≠ gid).
  { intros player g Hget Hg [game' Hgame'] ->.
    apply (Hother player game'). by apply session_of_Some. }
  destruct e as [ws [| | | |]| |]; simpl in *; try done.
  - rewrite handleJoinGame_unfold. destruct (waitingPlayers s); simpl; [done|].
    rewrite lookup_insert_ne by lia. done.
  - unfold handleSetupComplete.
    destruct (players_get s ws) as [player|]; [|done].
    destruct (Player.gameId player) as [g|] eqn:Hgid; [|done].
    destruct (activeGames s !! g) as [game'|] eqn:Hg; [|done].
    destruct (validateShipPlacement_run _); [|done].
    match goal with |- context [if ?b then _ else _] => destruct b end; [|done].
    simpl. rewrite lookup_insert_ne; [done|].
    apply (Hsess player g); [done|done|by rewrite Hg].
  - by rewrite handleFire_state.
  - unfold handleFireResult, checkAllShipsSunk.
    destruct (players_get s ws) as [player|]; [|done].
    destruct (Player.gameId player) as [g|] eqn:Hgid; [|done].
    destruct (activeGames s !! g) as [game'|] eqn:Hg; [|done].
    destruct (at_index _ _); [|done].
    rewrite andb_false_r. simpl. rewrite lookup_insert_ne; [done|].
    apply (Hsess player g); [done|done|by rewrite Hg].
  - unfold handleDisconnection.
    destruct (players_get s ws) as [player|]; [|done].
    set (s1 := if bool_decide _ then _ else s).
    assert (activeGames s1 = activeGames s) as Ha
      by (subst s1; by case_bool_decide).
    clearbody s1. destruct (Player.gameId player) as [g|] eqn:Hgid;
      [|simpl; congruence].
    destruct (activeGames s1 !! g) as [game'|] eqn:Hg; simpl; [|congruence].
    rewrite lookup_delete_ne; [congruence|].
    apply (Hsess player g); [done|done|]. by rewrite <- Ha, Hg.
Qed.

Lemma other_sessions_untouched_witness :
  activeGames (step allOpen s_two_sessions (on_close 0%nat)).1 !! 5%nat
  = Some (Game.mk 5%nat [4%nat; 3%nat] 0 setup None) ∧
  activeGames (step allOpen s_two_sessions (on_close 0%nat)).1 !! 2%nat = None.
Proof.
  split; [|vm_compute; reflexivity].
  apply (other_sessions_untouched allOpen s_two_sessions (on_close 0%nat) 5%nat).
  - apply reachable_run, reachable_initial.
  - vm_compute. reflexivity.
  - intros player game' H. vm_compute in H. discriminate H.
Defined.



(** ** The client's board *)

Lemma at_Some {A} (l : list A) i x :
  Agent.at_ l i = Some x ↔ 0 <= i ∧ l !! Z.to_nat i = Some x.
Proof. unfold Agent.at_. case_bool_decide; naive_solver. Qed.

Lemma cellAt_Some board cell c :
  Agent.cellAt board cell = Some c ↔
  0 <= cell.1 ∧ 0 <= cell.2 ∧
  ∃ row, board !! Z.to_nat cell.1 = Some row ∧ row !! Z.to_nat cell.2 = Some c.
Proof.
  unfold Agent.cellAt. split.
  - intros (row & [? ?]%at_Some & [? ?]%at_Some)%bind_Some. eauto.
  - intros (? & ? & row & ? & ?). apply bind_Some. exists row.
    by rewrite !at_Some.
Qed.

Lemma cellAt_in_bounds board cell :
  board_shape board → is_Some (Agent.cellAt board cell) ↔ in_bounds cell.
Proof.
  intros [Hlen Hrows]. unfold in_bounds. split.
  - intros [c (H1 & H2 & row & Hrow & Hc)%cellAt_Some].
    pose proof (lookup_lt_Some _ _ _ Hrow) as Hr.
    rewrite Forall_forall in Hrows.
    pose proof (Hrows row (list_elem_of_lookup_2 _ _ _ Hrow)) as Hl.
    pose proof (lookup_lt_Some _ _ _ Hc) as Hc'. lia.
  - intros (H1 & H2 & H3 & H4).
    destruct (lookup_lt_is_Some_2 board (Z.to_nat cell.1)) as [row Hrow]; [lia|].
    rewrite Forall_forall in Hrows.
    pose proof (Hrows row (list_elem_of_lookup_2 _ _ _ Hrow)) as Hl.
    destruct (lookup_lt_is_Some_2 row (Z.to_nat cell.2)) as [c Hc]; [lia|].
    exists c. apply cellAt_Some. eauto.
Qed.

Lemma board_shape_alter board f i j :
  board_shape board → board_shape (alter (alter f j) i board).
Proof.
  intros [Hlen Hrows]. split; [by rewrite length_alter|].
  rewrite Forall_forall in Hrows. apply Forall_forall. intros row Hin.
  apply list_elem_of_lookup_1 in Hin as [k Hk].
  destruct (decide (i = k)) as [->|Hne].
  - rewrite list_lookup_alter_eq in Hk.
    apply fmap_Some in Hk as (row0 & Hr & ->). rewrite length_alter.
    apply Hrows. by eapply list_elem_of_lookup_2.
  - rewrite list_lookup_alter_ne in Hk by done.
    apply Hrows. by eapply list_elem_of_lookup_2.
Qed.

Lemma board_shape_empty : board_shape Agent.createEmptyBoard.
Proof. split; [done|]. unfold Agent.createEmptyBoard. simpl. repeat constructor. Qed.

(** Reading a cell after a write at [cell]. *)
Lemma cellAt_alter board f cell cell' :
  0 <= cell.1 → 0 <= cell.2 →
  Agent.cellAt (alter (alter f (Z.to_nat cell.2)) (Z.to_nat cell.1) board) cell'
  = if decide (cell' = cell) then f <$> Agent.cellAt board cell'
    else Agent.cellAt board cell'.
Proof.
  intros H1 H2. destruct cell as [r c], cell' as [r' c']. cbn [fst snd] in *.
  unfold Agent.cellAt, Agent.at_. cbn [fst snd].
  destruct (decide (r' = r)) as [->|Hr].
  - rewrite (bool_decide_true (0 <= r)) by done. rewrite list_lookup_alter_eq.
    destruct (board !! Z.to_nat r) as [row|]; cbn [fmap option_fmap option_map mbind option_bind];
      [|by case_decide].
    destruct (decide (c' = c)) as [->|Hc].
    + rewrite (bool_decide_true (0 <= c)) by done. rewrite list_lookup_alter_eq.
      by rewrite decide_True.
    + rewrite decide_False by congruence.
      destruct (bool_decide (0 <= c')) eqn:E; [|done].
      apply bool_decide_eq_true in E. rewrite list_lookup_alter_ne; [done|lia].
  - rewrite decide_False by congruence.
    destruct (bool_decide (0 <= r')) eqn:E; [|done].
    apply bool_decide_eq_true in E. rewrite list_lookup_alter_ne; [done|lia].
Qed.

Lemma setCell_Some board cell f :
  is_Some (Agent.cellAt board cell) →
  ∃ board', Agent.setCell board cell f = Some board' ∧
    (board_shape board → board_shape board') ∧
    ∀ cell', Agent.cellAt board' cell'
             = if decide (cell' = cell) then f <$> Agent.cellAt board cell'
               else Agent.cellAt board cell'.
Proof.
  intros [c Hc]. unfold Agent.setCell. rewrite Hc. eexists. split; [done|].
  apply cellAt_Some in Hc as (H1 & H2 & _). split.
  - apply board_shape_alter.
  - intros cell'. by apply cellAt_alter.
Qed.

Lemma run_cells_S row col o n :
  run_cells row col o (S n)
  = run_cells row col o n ++ [Agent.cellOf row col o (Z.of_nat n)].
Proof. unfold run_cells. by rewrite seq_S, fmap_app. Qed.

Lemma run_cells_spec row col o n :
  run_cells row col o n
  = if bool_decide (o = "horizontal") then row_of row col n else col_of row col n.
Proof.
  unfold run_cells, Agent.cellOf, row_of, col_of. by case_bool_decide.
Qed.

Lemma elem_of_run_cells row col o n cell :
  cell ∈ run_cells row col o n ↔
  ∃ k : nat, (k < n)%nat ∧ cell = Agent.cellOf row col o (Z.of_nat k).
Proof.
  unfold run_cells. rewrite list_elem_of_fmap. split.
  - intros (k & -> & Hk%elem_of_seq). exists k. split; [lia|done].
  - intros (k & Hk & ->). exists k. split; [done|]. apply elem_of_seq. lia.
Qed.

(** The loop of [canPlaceShip] says yes exactly when every cell exists and
    is free, and raises exactly when it meets a missing cell first. *)
Lemma canPlaceLoop_true board cellOf (i : nat) n :
  Agent.canPlaceLoop board cellOf (Z.of_nat i) n = Some true ↔
  ∀ k : nat, (i ≤ k < i + n)%nat →
    ∃ c, Agent.cellAt board (cellOf (Z.of_nat k)) = Some c ∧ Agent.hasShip c = false.
Proof.
  revert i. induction n as [|n IH]; intros i.
  - simpl. split; [intros _ k ?; lia|done].
  - cbn [Agent.canPlaceLoop].
    replace (Z.of_nat i + 1) with (Z.of_nat (S i)) by lia. split.
    + destruct (Agent.cellAt board (cellOf (Z.of_nat i))) as [c|] eqn:Hc; [|done].
      destruct (Agent.hasShip c) eqn:Hs; [done|].
      intros Hrest k Hk. destruct (decide (k = i)) as [->|Hne]; [eauto|].
      apply (proj1 (IH (S i)) Hrest). lia.
    + intros Hall. destruct (Hall i ltac:(lia)) as (c & -> & ->).
      apply IH. intros k Hk. apply Hall. lia.
Qed.

Lemma placeLoop_spec board cellOf type sid (i : nat) n ps :
  (∀ k : nat, (i ≤ k < i + n)%nat →
     is_Some (Agent.cellAt board (cellOf (Z.of_nat k)))) →
  ∃ board',
    Agent.placeLoop board cellOf type sid (Z.of_nat i) n ps
    = (board', ps ++ ((λ k : nat, cellOf (Z.of_nat k)) <$> seq i n), true) ∧
    (board_shape board → board_shape board') ∧
    ∀ cell, Agent.cellAt board' cell
            = if decide (cell ∈ (λ k : nat, cellOf (Z.of_nat k)) <$> seq i n)
              then Agent.markCell type sid <$> Agent.cellAt board cell
              else Agent.cellAt board cell.
Proof.
  revert board i ps. induction n as [|n IH]; intros board i ps Hall.
  - exists board. cbn [Agent.placeLoop seq fmap list_fmap]. rewrite app_nil_r.
    split; [done|]. split; [done|].
    intros cell. destruct (decide (cell ∈ [])) as [Hin|]; [|done].
    by apply elem_of_nil in Hin.
  - cbn [Agent.placeLoop].
    destruct (setCell_Some board (cellOf (Z.of_nat i)) (Agent.markCell type sid))
      as (board1 & -> & Hshape1 & Hread1); [apply Hall; lia|].
    replace (Z.of_nat i + 1) with (Z.of_nat (S i)) by lia.
    destruct (IH board1 (S i) (ps ++ [cellOf (Z.of_nat i)])) as (board' & -> & Hshape & Hread).
    { intros k Hk. rewrite Hread1. destruct (Hall k ltac:(lia)) as [c Hc].
      rewrite Hc. case_decide; simpl; eauto. }
    exists board'. split; [|split].
    + cbn [seq]. by rewrite fmap_cons, <- app_assoc.
    + auto.
    + intros cell. rewrite Hread, Hread1. cbn [seq]. rewrite fmap_cons.
      set (rest := _ <$> seq (S i) n).
      destruct (decide (cell = cellOf (Z.of_nat i))) as [->|Hne].
      * destruct (decide (cellOf (Z.of_nat i) ∈ cellOf (Z.of_nat i) :: rest)) as [_|Hn];
          [|exfalso; apply Hn; left].
        destruct (decide (cellOf (Z.of_nat i) ∈ rest)); [|done].
        destruct (Agent.cellAt board (cellOf (Z.of_nat i))); done.
      * destruct (decide (cell ∈ rest)) as [Hin|Hin];
          destruct (decide (cell ∈ cellOf (Z.of_nat i) :: rest)) as [Hin'|Hin'];
          try done.
        -- exfalso. apply Hin'. by right.
        -- exfalso. apply elem_of_cons in Hin' as [?|?]; done.
Qed.

Lemma length_run_cells row col o n : length (run_cells row col o n) = n.
Proof. unfold run_cells. by rewrite length_fmap, length_seq. Qed.

Lemma run_cells_NoDup row col o n : NoDup (run_cells row col o n).
Proof.
  rewrite run_cells_spec. case_bool_decide; [apply row_of_NoDup|apply col_of_NoDup].
Qed.

Lemma canPlaceLoop_run board row col o n :
  Agent.canPlaceLoop board (Agent.cellOf row col o) 0 n = Some true ↔
  ∀ cell, cell ∈ run_cells row col o n →
    ∃ c, Agent.cellAt board cell = Some c ∧ Agent.hasShip c = false.
Proof.
  rewrite (canPlaceLoop_true board (Agent.cellOf row col o) 0 n). split.
  - intros H cell (k & Hk & ->)%elem_of_run_cells. apply H. lia.
  - intros H k Hk. apply H, elem_of_run_cells. exists k. split; [lia|done].
Qed.

Lemma canPlaceLoop_is_Some board cellOf i n :
  (∀ k : nat, (k < n)%nat → is_Some (Agent.cellAt board (cellOf (i + Z.of_nat k)))) →
  is_Some (Agent.canPlaceLoop board cellOf i n).
Proof.
  revert i. induction n as [|n IH]; intros i Hall; [by eexists|].
  cbn [Agent.canPlaceLoop].
  destruct (Hall 0%nat ltac:(lia)) as [c Hc].
  replace (i + Z.of_nat 0) with i in Hc by lia. rewrite Hc.
  destruct (Agent.hasShip c); [by eexists|].
  apply IH. intros k Hk. replace (i + 1 + Z.of_nat k) with (i + Z.of_nat (S k)) by lia.
  apply Hall. lia.
Qed.

(** What [canPlaceShip] answering yes means, on any board. *)
Lemma canPlaceShip_true board row col length o :
  Agent.canPlaceShip board row col length o = Some true →
  ∀ cell, cell ∈ run_cells row col o (Z.to_nat length) →
    ∃ c, Agent.cellAt board cell = Some c ∧ Agent.hasShip c = false.
Proof.
  unfold Agent.canPlaceShip.
  destruct (bool_decide (o = "horizontal"));
    (destruct (bool_decide (_ > 10)); [done|]); apply canPlaceLoop_run.
Qed.

Lemma placeShip_run agent row col type length o now :
  (∀ cell, cell ∈ run_cells row col o (Z.to_nat length) →
     is_Some (Agent.cellAt (Agent.ownBoard agent) cell)) →
  ∃ board',
    Agent.placeShip agent row col type length o now
    = (Agent.mk board'
         (Agent.placedShips agent ++
          [Agent.mkShip (type, now) type (run_cells row col o (Z.to_nat length)) o]),
       true) ∧
    (board_shape (Agent.ownBoard agent) → board_shape board') ∧
    ∀ cell, Agent.cellAt board' cell
            = if decide (cell ∈ run_cells row col o (Z.to_nat length))
              then Agent.markCell type (type, now) <$> Agent.cellAt (Agent.ownBoard agent) cell
              else Agent.cellAt (Agent.ownBoard agent) cell.
Proof.
  intros Hall. unfold Agent.placeShip.
  destruct (placeLoop_spec (Agent.ownBoard agent) (Agent.cellOf row col o) type
              (type, now) 0 (Z.to_nat length) [])
    as (board' & Hloop & Hshape & Hread).
  { intros k Hk. apply Hall, elem_of_run_cells. exists k. split; [lia|done]. }
  change (Z.of_nat 0) with 0 in Hloop. rewrite Hloop. exists board'.
  split; [done|]. split; [done|]. exact Hread.
Qed.

Lemma allCells_snoc agent board ship :
  allCells (Agent.mk board (Agent.placedShips agent ++ [ship]))
  = allCells agent ++ Agent.positions ship.
Proof.
  unfold allCells. cbn [Agent.placedShips].
  rewrite fmap_app, join_app. simpl. by rewrite app_nil_r.
Qed.

Lemma elem_of_allCells agent cell :
  cell ∈ allCells agent ↔
  ∃ ship, ship ∈ Agent.placedShips agent ∧ cell ∈ Agent.positions ship.
Proof.
  unfold allCells. rewrite list_elem_of_join. split.
  - intros (l & Hcell & (ship & -> & Hship)%list_elem_of_fmap). eauto.
  - intros (ship & Hship & Hcell). exists (Agent.positions ship).
    split; [done|]. apply list_elem_of_fmap. eauto.
Qed.

Lemma placed_ok_empty : placed_ok (Agent.mk Agent.createEmptyBoard []).
Proof.
  split; cbn [Agent.ownBoard Agent.placedShips].
  - apply board_shape_empty.
  - constructor.
  - constructor.
  - intros cell c (H1 & H2 & row & Hrow & Hc)%cellAt_Some.
    unfold Agent.createEmptyBoard in Hrow.
    apply lookup_replicate in Hrow as [-> _].
    apply lookup_replicate in Hc as [-> _]. simpl.
    split; [done|]. by intros ?%elem_of_nil.
  - by intros ship cell ?%elem_of_nil.
  - constructor.
Qed.

Lemma placed_ok_placeShip agent board' row col type length o now :
  placed_ok agent →
  (∀ cell, cell ∈ run_cells row col o (Z.to_nat length) →
     ∃ c, Agent.cellAt (Agent.ownBoard agent) cell = Some c ∧ Agent.hasShip c = false) →
  (board_shape (Agent.ownBoard agent) → board_shape board') →
  (∀ cell, Agent.cellAt board' cell
           = if decide (cell ∈ run_cells row col o (Z.to_nat length))
             then Agent.markCell type (type, now) <$> Agent.cellAt (Agent.ownBoard agent) cell
             else Agent.cellAt (Agent.ownBoard agent) cell) →
  placed_ok (Agent.mk board'
     (Agent.placedShips agent ++
      [Agent.mkShip (type, now) type (run_cells row col o (Z.to_nat length)) o])).
Proof.
  intros [Hshape Hruns Hnodup Hmarks Hids Htypes] Hfree Hshape' Hread.
  set (run := run_cells row col o (Z.to_nat length)) in *.
  assert (Hdisj : ∀ cell, cell ∈ allCells agent → cell ∉ run).
  { intros cell Hin Hrun. destruct (Hfree cell Hrun) as (c & Hc & Hs).
    apply (Hmarks cell c Hc) in Hin. congruence. }
  split; cbn [Agent.ownBoard Agent.placedShips].
  - auto.
  - apply Forall_app. split; [done|]. constructor; [|constructor].
    cbn [Agent.positions]. exists row, col. unfold run.
    rewrite length_run_cells, run_cells_spec. case_bool_decide; auto.
  - rewrite allCells_snoc. cbn [Agent.positions]. apply NoDup_app.
    split; [done|]. split; [done|]. apply run_cells_NoDup.
  - intros cell c. rewrite allCells_snoc, Hread. cbn [Agent.positions].
    rewrite elem_of_app. case_decide as Hrun.
    + intros (c0 & Hc0 & ->)%fmap_Some. simpl. naive_solver.
    + intros Hc. rewrite (Hmarks cell c Hc). naive_solver.
  - intros ship cell [Hship | ->%list_elem_of_singleton]%elem_of_app Hcell.
    + destruct (Hids ship cell Hship Hcell) as (c & Hc & Hid).
      exists c. split; [|done]. rewrite Hread, decide_False; [done|].
      apply Hdisj, elem_of_allCells. eauto.
    + cbn [Agent.positions Agent.id] in *.
      destruct (Hfree cell Hcell) as (c & Hc & _).
      exists (Agent.markCell type (type, now) c). split; [|done].
      rewrite Hread, decide_True by done. by rewrite Hc.
  - apply Forall_app. split; [done|]. by repeat constructor.
Qed.

Lemma tryPlace_cases agent row col type length o now :
  (Agent.tryPlace agent row col type length o now = (agent, false)) ∨
  (∃ board',
     Agent.tryPlace agent row col type length o now
     = (Agent.mk board'
          (Agent.placedShips agent ++
           [Agent.mkShip (type, now) type (run_cells row col o (Z.to_nat length)) o]),
        true) ∧
     Agent.canPlaceShip (Agent.ownBoard agent) row col length o = Some true ∧
     (placed_ok agent →
      placed_ok (Agent.mk board'
          (Agent.placedShips agent ++
           [Agent.mkShip (type, now) type (run_cells row col o (Z.to_nat length)) o])))).
Proof.
  unfold Agent.tryPlace.
  destruct (Agent.canPlaceShip _ row col length o) as [[]|] eqn:Hcan; [|by left..].
  right. pose proof (canPlaceShip_true _ _ _ _ _ Hcan) as Hfree.
  destruct (placeShip_run agent row col type length o now)
    as (board' & -> & Hshape & Hread).
  { intros cell Hcell. destruct (Hfree cell Hcell) as (c & -> & _). by eexists. }
  exists board'. split; [done|]. split; [done|].
  intros Hok. by apply placed_ok_placeShip.
Qed.

(** X21 ([canPlaceShip]).  On a board that is consistent with the list of
    placed ships, and for a start cell of the board, [canPlaceShip] raises
    nothing; it answers yes exactly when the whole run lies on the board
    and none of its cells belongs to a ship placed so far. *)
Theorem canPlaceShip_spec agent row col length o :
  placed_ok agent → in_bounds (row, col) →
  ∃ b, Agent.canPlaceShip (Agent.ownBoard agent) row col length o = Some b ∧
       (b = true ↔
        Forall in_bounds (run_cells row col o (Z.to_nat length)) ∧
        ∀ cell, cell ∈ run_cells row col o (Z.to_nat length) → cell ∉ allCells agent).
Proof.
  intros Hok (Hr0 & Hr1 & Hc0 & Hc1). cbn [fst snd] in *.
  pose proof (ok_shape _ Hok) as Hshape.
  assert (Hyes : ∀ b,
    Agent.canPlaceLoop (Agent.ownBoard agent) (Agent.cellOf row col o) 0
      (Z.to_nat length) = Some b →
    b = true ↔
      Forall in_bounds (run_cells row col o (Z.to_nat length)) ∧
      ∀ cell, cell ∈ run_cells row col o (Z.to_nat length) → cell ∉ allCells agent).
  { intros b Hb. split.
    - intros ->. pose proof (proj1 (canPlaceLoop_run _ _ _ _ _) Hb) as Hb'.
      clear Hb. rename Hb' into Hb. split.
      + apply Forall_forall. intros cell Hcell.
        destruct (Hb cell Hcell) as (c & Hc & _).
        apply (cellAt_in_bounds _ _ Hshape). by eexists.
      + intros cell Hcell Hin. destruct (Hb cell Hcell) as (c & Hc & Hs).
        apply (ok_marks _ Hok cell c Hc) in Hin. congruence.
    - intros [Hbd Hfree]. destruct b; [done|]. exfalso.
      assert (Agent.canPlaceLoop (Agent.ownBoard agent) (Agent.cellOf row col o) 0
                (Z.to_nat length) = Some true) as Hyes; [|congruence].
      apply (proj2 (canPlaceLoop_run _ _ _ _ _)). intros cell Hcell.
      rewrite Forall_forall in Hbd.
      destruct (proj2 (cellAt_in_bounds _ cell Hshape) (Hbd cell Hcell)) as [c Hc].
      exists c. split; [done|]. destruct (Agent.hasShip c) eqn:Hs; [|done].
      exfalso. apply (Hfree cell Hcell). by apply (ok_marks _ Hok cell c Hc). }
  assert (Hover : ∀ k : nat, (k < Z.to_nat length)%nat →
    ¬ in_bounds (Agent.cellOf row col o (Z.of_nat k)) →
    ¬ (Forall in_bounds (run_cells row col o (Z.to_nat length)) ∧
       ∀ cell, cell ∈ run_cells row col o (Z.to_nat length) → cell ∉ allCells agent)).
  { intros k Hk Hout [Hbd _]. rewrite Forall_forall in Hbd. apply Hout, Hbd.
    apply elem_of_run_cells. eauto. }
  unfold Agent.canPlaceShip.
  destruct (bool_decide (o = "horizontal")) eqn:Ho.
  - destruct (bool_decide (col + length > 10)) eqn:Hfit.
    + apply bool_decide_eq_true in Hfit. exists false. split; [done|].
      split; [done|]. intros H. exfalso.
      apply (Hover (Z.to_nat (length - 1))); [lia| |done].
      unfold Agent.cellOf, in_bounds. rewrite Ho. cbn [fst snd]. lia.
    + apply bool_decide_eq_false in Hfit.
      destruct (canPlaceLoop_is_Some (Agent.ownBoard agent)
                  (Agent.cellOf row col o) 0 (Z.to_nat length)) as [b Hb].
      { intros k Hk. apply (cellAt_in_bounds _ _ Hshape).
        unfold Agent.cellOf, in_bounds. rewrite Ho. cbn [fst snd]. lia. }
      exists b. split; [done|]. by apply Hyes.
  - destruct (bool_decide (row + length > 10)) eqn:Hfit.
    + apply bool_decide_eq_true in Hfit. exists false. split; [done|].
      split; [done|]. intros H. exfalso.
      apply (Hover (Z.to_nat (length - 1))); [lia| |done].
      unfold Agent.cellOf, in_bounds. rewrite Ho. cbn [fst snd]. lia.
    + apply bool_decide_eq_false in Hfit.
      destruct (canPlaceLoop_is_Some (Agent.ownBoard agent)
                  (Agent.cellOf row col o) 0 (Z.to_nat length)) as [b Hb].
      { intros k Hk. apply (cellAt_in_bounds _ _ Hshape).
        unfold Agent.cellOf, in_bounds. rewrite Ho. cbn [fst snd]. lia. }
      exists b. split; [done|]. by apply Hyes.
Qed.

(** X22 ([placeShip] behind [canPlaceShip], as in [handleDrop],
    [handleCellClick] and [randomPlacement]).  A guarded placement either
    changes nothing, or appends exactly one ship, whose cells are the run
    from the start cell; in both cases the board stays consistent with the
    list of ships: ten by ten, ships straight, their cells pairwise
    distinct and marked with their ship. *)
Theorem tryPlace_keeps_placed_ok agent row col type length o now :
  placed_ok agent →
  placed_ok (Agent.tryPlace agent row col type length o now).1 ∧
  if (Agent.tryPlace agent row col type length o now).2
  then Agent.placedShips (Agent.tryPlace agent row col type length o now).1
       = Agent.placedShips agent ++
         [Agent.mkShip (type, now) type (run_cells row col o (Z.to_nat length)) o]
  else (Agent.tryPlace agent row col type length o now).1 = agent.
Proof.
  intros Hok.
  destruct (tryPlace_cases agent row col type length o now)
    as [-> | (board' & -> & _ & Hok')]; cbn [fst snd]; auto.
Qed.

Lemma NoDup_join_disjoint {A} (ls : list (list A)) i j a b :
  NoDup (mjoin ls) → i ≠ j → ls !! i = Some a → ls !! j = Some b → a ## b.
Proof.
  revert i j. induction ls as [|l ls IH]; intros i j Hnd Hij Hi Hj; [done|].
  simpl in Hnd. apply NoDup_app in Hnd as (Hl & Hdisj & Hrest).
  destruct i as [|i], j as [|j]; simpl in *; simplify_eq.
  - intros x Hx Hx'. apply (Hdisj x Hx). apply list_elem_of_join.
    exists b. split; [done|]. by eapply list_elem_of_lookup_2.
  - intros x Hx Hx'. apply (Hdisj x Hx'). apply list_elem_of_join.
    exists a. split; [done|]. by eapply list_elem_of_lookup_2.
  - apply (IH i j); auto.
Qed.

Lemma cells_fleet_of agent : cells (fleet_of agent) = allCells agent.
Proof.
  unfold cells, fleet_of, allCells. by rewrite <- list_fmap_compose.
Qed.

(** A consistent board with one ship of each asked type and length is a
    legal placement. *)
Lemma fleet_of_legal agent :
  placed_ok agent →
  entry_of <$> Agent.placedShips agent ≡ₚ asked Agent.shipTypes →
  placement_legal (fleet_of agent).
Proof.
  intros [Hshape Hruns Hnodup Hmarks Hids Htypes] Hperm.
  assert (Hlen : length (Agent.placedShips agent) = 5%nat).
  { apply Permutation_length in Hperm. by rewrite length_fmap in Hperm. }
  unfold placement_legal. split_and!.
  - unfold fleet_of. by rewrite length_fmap.
  - unfold fleet_of. rewrite <- list_fmap_compose.
    change (Ship.type ∘ _) with (fst ∘ entry_of).
    rewrite list_fmap_compose, Hperm. done.
  - unfold fleet_of. apply Forall_fmap, Forall_forall. intros ship Hship.
    cbn [Ship.type Ship.positions compose].
    assert (entry_of ship ∈ asked Agent.shipTypes) as Hin.
    { rewrite <- Hperm. apply list_elem_of_fmap. eauto. }
    unfold entry_of, asked, Agent.shipTypes in Hin. cbn in Hin.
    unfold inventory.
    repeat (apply elem_of_cons in Hin as [[= -> Hn]|Hin];
            [replace (length (Agent.positions ship)) with (Z.to_nat (Z.of_nat
               (length (Agent.positions ship)))) by lia; rewrite Hn;
             set_solver|]).
    by apply elem_of_nil in Hin.
  - rewrite cells_fleet_of. apply Forall_forall. intros cell Hcell.
    apply elem_of_allCells in Hcell as (ship & Hship & Hcell).
    destruct (Hids ship cell Hship Hcell) as (c & Hc & _).
    apply (cellAt_in_bounds _ _ Hshape). by eexists.
  - intros i j si sj Hij Hi Hj.
    apply (NoDup_join_disjoint (Ship.positions <$> fleet_of agent) i j).
    + fold (cells (fleet_of agent)). by rewrite cells_fleet_of.
    + done.
    + by rewrite list_lookup_fmap, Hi.
    + by rewrite list_lookup_fmap, Hj.
  - unfold fleet_of. apply Forall_fmap. eapply Forall_impl; [exact Hruns|].
    intros ship (r & c & [H|H]); exists r, c; cbn [Ship.positions compose];
      [left|right]; by rewrite <- H.
Qed.

Lemma completeSetup_fleet agent :
  length (Agent.placedShips agent) = 5%nat →
  Agent.completeSetup agent = Some (setup_complete (fleet_of agent)).
Proof.
  intros Hlen. unfold Agent.completeSetup. rewrite Hlen.
  rewrite bool_decide_false; [done|]. intros H. by apply H.
Qed.

Lemma completeSetup_Some agent message :
  Agent.completeSetup agent = Some message →
  length (Agent.placedShips agent) = 5%nat ∧ message = setup_complete (fleet_of agent).
Proof.
  unfold Agent.completeSetup.
  destruct (decide (length (Agent.placedShips agent) = length Agent.shipTypes))
    as [Hlen|Hlen].
  - rewrite bool_decide_false by (intros H; by apply H).
    intros [= <-]. done.
  - by rewrite bool_decide_true.
Qed.

Lemma sublist_same_length {A} (l k : list A) :
  l `sublist_of` k → (length k ≤ length l)%nat → l = k.
Proof.
  induction 1 as [|x l k Hsub IH|x l k Hsub IH]; cbn [length]; intros Hlen.
  - done.
  - f_equal. apply IH. lia.
  - apply sublist_length in Hsub. lia.
Qed.

(** One [while] loop of [randomPlacement] keeps the board consistent and
    places at most one ship, of the type and length it was asked for. *)
Lemma placeAttempts_spec draws k agent type length attempts :
  placed_ok agent → 0 <= length →
  placed_ok (Agent.placeAttempts draws k agent type length attempts).1.1 ∧
  ∃ added,
    Agent.placedShips (Agent.placeAttempts draws k agent type length attempts).1.1
    = Agent.placedShips agent ++ added ∧
    entry_of <$> added `sublist_of` [(type, length)].
Proof.
  intros Hok Hlen. revert k. induction attempts as [|attempts IH]; intros k.
  - cbn [Agent.placeAttempts fst]. split; [done|]. exists [].
    rewrite app_nil_r. split; [done|]. apply sublist_nil_l.
  - cbn [Agent.placeAttempts].
    set (d := draws k).
    set (o := if Agent.horizontal d then "horizontal" else "vertical").
    destruct (Agent.canPlaceShip (Agent.ownBoard agent) (Agent.row d) (Agent.col d)
                length o) as [[]|] eqn:Hcan.
    + pose proof (canPlaceShip_true _ _ _ _ _ Hcan) as Hfree.
      destruct (placeShip_run agent (Agent.row d) (Agent.col d) type length o
                  (Agent.now d)) as (board' & -> & Hshape & Hread).
      { intros cell Hcell. destruct (Hfree cell Hcell) as (c & -> & _). by eexists. }
      cbn [fst snd Agent.placedShips]. split.
      * by apply placed_ok_placeShip.
      * eexists [_]. split; [done|]. cbn. unfold entry_of. cbn.
        rewrite length_run_cells, Z2Nat.id by done. done.
    + apply IH.
    + cbn [fst]. split; [done|]. exists []. rewrite app_nil_r.
      split; [done|]. apply sublist_nil_l.
Qed.

Lemma placeAll_spec draws k agent types :
  placed_ok agent → Forall (λ e, 0 <= Expected.length e.2) types →
  placed_ok (Agent.placeAll draws k agent types) ∧
  ∃ added,
    Agent.placedShips (Agent.placeAll draws k agent types)
    = Agent.placedShips agent ++ added ∧
    entry_of <$> added `sublist_of` asked types.
Proof.
  revert k agent. induction types as [|[type config] types IH];
    intros k agent Hok Hlens.
  - cbn [Agent.placeAll]. split; [done|]. exists []. rewrite app_nil_r.
    split; [done|]. apply sublist_nil_l.
  - cbn [Agent.placeAll]. apply Forall_cons in Hlens as [Hlen Hlens].
    cbn [snd] in Hlen.
    destruct (placeAttempts_spec draws k agent type (Expected.length config) 100
                Hok Hlen) as (Hok1 & added1 & Hadd1 & Hsub1).
    destruct (Agent.placeAttempts draws k agent type (Expected.length config) 100)
      as [[agent1 k1] thrown]. cbn [fst] in *.
    destruct thrown.
    + split; [done|]. exists added1. split; [done|].
      change (asked ((type, config) :: types))
        with ([(type, Expected.length config)] ++ asked types).
      by apply sublist_inserts_r.
    + destruct (IH k1 agent1 Hok1 Hlens) as (Hok2 & added2 & Hadd2 & Hsub2).
      split; [done|]. exists (added1 ++ added2). split.
      * by rewrite Hadd2, Hadd1, <- app_assoc.
      * rewrite fmap_app.
        change (asked ((type, config) :: types))
          with ([(type, Expected.length config)] ++ asked types).
        by apply sublist_app.
Qed.

Lemma randomPlacement_ok draws :
  placed_ok (Agent.randomPlacement draws) ∧
  entry_of <$> Agent.placedShips (Agent.randomPlacement draws)
    `sublist_of` asked Agent.shipTypes.
Proof.
  destruct (placeAll_spec draws 0 (Agent.mk Agent.createEmptyBoard []) Agent.shipTypes)
    as (Hok & added & Hadd & Hsub).
  - apply placed_ok_empty.
  - unfold Agent.shipTypes. repeat constructor; cbn; lia.
  - split; [done|]. unfold Agent.randomPlacement. by rewrite Hadd.
Qed.

Lemma placed_ok_randomPlacement draws : placed_ok (Agent.randomPlacement draws).
Proof. apply randomPlacement_ok. Qed.

(** X23 ([completeSetup], with [placeShip] and the server's
    [validateShipPlacement]).  When the board is consistent with the list of
    ships and the ships are one of each type of [shipTypes], each with as
    many cells as its type asks, [completeSetup] hands [sendMessage] a
    [setup_complete] whose fleet the server's validator accepts. *)
Theorem completeSetup_accepted agent :
  placed_ok agent →
  entry_of <$> Agent.placedShips agent ≡ₚ asked Agent.shipTypes →
  ∃ ships, Agent.completeSetup agent = Some (setup_complete ships) ∧
           validateShipPlacement ships = true.
Proof.
  intros Hok Hperm. exists (fleet_of agent). split.
  - apply completeSetup_fleet. apply Permutation_length in Hperm.
    by rewrite length_fmap in Hperm.
  - by apply validateShipPlacement_legal, fleet_of_legal.
Qed.

(** X24 ([randomPlacement], with [clearAllPlacements], [completeSetup] and
    the server's [validateShipPlacement]).  Whatever the random draws, if
    [completeSetup] hands [sendMessage] a message after [randomPlacement],
    it is a [setup_complete] whose fleet has the five types in the order of
    [shipTypes], and the server's validator accepts it. *)
Theorem randomPlacement_accepted draws message :
  Agent.completeSetup (Agent.randomPlacement draws) = Some message →
  ∃ ships, message = setup_complete ships ∧
           Ship.type <$> ships = Agent.shipTypes.*1 ∧
           validateShipPlacement ships = true.
Proof.
  intros [Hlen ->]%completeSetup_Some.
  destruct (randomPlacement_ok draws) as [Hok Hsub].
  assert (entry_of <$> Agent.placedShips (Agent.randomPlacement draws)
          = asked Agent.shipTypes) as Heq.
  { apply sublist_same_length; [done|]. by rewrite length_fmap, Hlen. }
  exists (fleet_of (Agent.randomPlacement draws)). split; [done|]. split.
  - unfold fleet_of. rewrite <- list_fmap_compose.
    change (Ship.type ∘ _) with (fst ∘ entry_of).
    by rewrite list_fmap_compose, Heq.
  - apply validateShipPlacement_legal, fleet_of_legal; [done|]. by rewrite Heq.
Qed.

Lemma everyHit_spec board ps :
  (∀ cell, cell ∈ ps → is_Some (Agent.cellAt board cell)) →
  ∃ b, Agent.everyHit board ps = Some b ∧
       (b = true ↔ ∀ cell, cell ∈ ps →
                     ∃ c, Agent.cellAt board cell = Some c ∧ Agent.isHit c = true).
Proof.
  induction ps as [|cell ps IH]; intros Hall.
  - exists true. split; [done|]. split; [|done]. by intros _ cell ?%elem_of_nil.
  - cbn [Agent.everyHit].
    destruct (Hall cell ltac:(left)) as [c Hc]. rewrite Hc.
    destruct (Agent.isHit c) eqn:Hhit.
    + destruct IH as (b & Hb & Hiff); [intros; apply Hall; by right|].
      exists b. split; [done|]. rewrite Hiff. split.
      * intros H cell' [->|?]%elem_of_cons; eauto.
      * intros H cell' Hin. apply H. by right.
    + exists false. split; [done|]. split; [done|].
      intros H. destruct (H cell ltac:(left)) as (c' & Hc' & Hhit'). congruence.
Qed.

Lemma NoDup_fmap_eq {A B} (f : A → B) (l : list A) x y :
  NoDup (f <$> l) → x ∈ l → y ∈ l → f x = f y → x = y.
Proof.
  intros Hnd (i & Hi)%list_elem_of_lookup_1 (j & Hj)%list_elem_of_lookup_1 Hf.
  assert (i = j) as ->; [|congruence].
  eapply NoDup_lookup; [exact Hnd|..].
  - by rewrite list_lookup_fmap, Hi.
  - by rewrite list_lookup_fmap, Hj, Hf.
Qed.

Lemma ship_of_cell_unique agent ship ship' cell :
  NoDup (allCells agent) →
  ship ∈ Agent.placedShips agent → ship' ∈ Agent.placedShips agent →
  cell ∈ Agent.positions ship → cell ∈ Agent.positions ship' → ship = ship'.
Proof.
  intros Hnd (i & Hi)%list_elem_of_lookup_1 (j & Hj)%list_elem_of_lookup_1 Hc Hc'.
  destruct (decide (i = j)) as [->|Hij]; [congruence|]. exfalso.
  apply (NoDup_join_disjoint (Agent.positions <$> Agent.placedShips agent) i j
           (Agent.positions ship) (Agent.positions ship') Hnd Hij) with cell;
    [by rewrite list_lookup_fmap, Hi|by rewrite list_lookup_fmap, Hj|done|done].
Qed.

Lemma cellAt_hitBoard board coordinates cell :
  is_Some (Agent.cellAt board coordinates) →
  Agent.cellAt (hitBoard board coordinates) cell
  = if decide (cell = coordinates) then Agent.hitCell <$> Agent.cellAt board cell
    else Agent.cellAt board cell.
Proof.
  intros [c (H1 & H2 & _)%cellAt_Some]. by apply cellAt_alter.
Qed.

Lemma handleOpponentFire_None agent coordinates :
  Agent.cellAt (Agent.ownBoard agent) coordinates = None →
  Agent.handleOpponentFire agent coordinates = (agent, None).
Proof. unfold Agent.handleOpponentFire. by intros ->. Qed.

Lemma handleOpponentFire_fst agent coordinates :
  is_Some (Agent.cellAt (Agent.ownBoard agent) coordinates) →
  (Agent.handleOpponentFire agent coordinates).1
  = Agent.mk (hitBoard (Agent.ownBoard agent) coordinates) (Agent.placedShips agent).
Proof.
  intros [c Hc]. unfold Agent.handleOpponentFire. rewrite Hc.
  repeat case_match; done.
Qed.

Lemma placed_ok_hitBoard agent coordinates :
  placed_ok agent → is_Some (Agent.cellAt (Agent.ownBoard agent) coordinates) →
  placed_ok (Agent.mk (hitBoard (Agent.ownBoard agent) coordinates)
                      (Agent.placedShips agent)).
Proof.
  intros [Hshape Hruns Hnodup Hmarks Hids Htypes] Hsome.
  split; cbn [Agent.ownBoard Agent.placedShips]; try done.
  - by apply board_shape_alter.
  - intros cell c. rewrite cellAt_hitBoard by done. case_decide.
    + intros (c0 & Hc0 & ->)%fmap_Some. apply (Hmarks cell c0 Hc0).
    + apply Hmarks.
  - intros ship cell Hship Hcell.
    destruct (Hids ship cell Hship Hcell) as (c & Hc & Hid).
    rewrite cellAt_hitBoard, Hc by done. case_decide; eauto.
Qed.

Lemma wasHit_hitBoard agent coordinates cell :
  is_Some (Agent.cellAt (Agent.ownBoard agent) coordinates) →
  wasHit (Agent.mk (hitBoard (Agent.ownBoard agent) coordinates)
                   (Agent.placedShips agent)) cell
  ↔ wasHit agent cell ∨ cell = coordinates.
Proof.
  intros Hsome. unfold wasHit. cbn [Agent.ownBoard].
  rewrite cellAt_hitBoard by done. case_decide as Heq.
  - subst cell. destruct Hsome as [c Hc]. rewrite Hc. split; [auto|].
    intros _. by eexists.
  - naive_solver.
Qed.

Lemma placed_ok_handleOpponentFire agent coordinates :
  placed_ok agent → placed_ok (Agent.handleOpponentFire agent coordinates).1.
Proof.
  intros Hok.
  destruct (Agent.cellAt (Agent.ownBoard agent) coordinates) as [c|] eqn:Hc.
  - rewrite handleOpponentFire_fst by (by exists c).
    apply placed_ok_hitBoard; [done|by exists c].
  - by rewrite handleOpponentFire_None.
Qed.

(** X25 ([handleOpponentFire], [isShipSunk]).  On a consistent board whose
    ships have distinct ids, a shot at a cell of the board hands
    [sendMessage] one [fire_result] for these coordinates: "hit" exactly
    when the cell belongs to a placed ship, "miss" otherwise; and it names
    a sunk ship exactly when the cell belongs to a ship all of whose other
    cells had been hit before, naming the type of that ship. *)
Theorem handleOpponentFire_verdict agent coordinates :
  placed_ok agent → NoDup (Agent.id <$> Agent.placedShips agent) →
  in_bounds coordinates →
  ∃ result shipSunk,
    (Agent.handleOpponentFire agent coordinates).2
    = Some (fire_result coordinates result shipSunk) ∧
    ((coordinates ∈ allCells agent ∧ result = "hit") ∨
     ((coordinates ∉ allCells agent) ∧ result = "miss" ∧ shipSunk = None)) ∧
    ∀ t, shipSunk = Some t ↔
         ∃ ship, ship ∈ Agent.placedShips agent ∧
                 coordinates ∈ Agent.positions ship ∧ Agent.type ship = t ∧
                 ∀ cell, cell ∈ Agent.positions ship → cell ≠ coordinates →
                         wasHit agent cell.
Proof.
  intros Hok Hnd Hbd.
  pose proof Hok as [Hshape Hruns Hnodup Hmarks Hids Htypes].
  destruct (proj2 (cellAt_in_bounds _ coordinates Hshape) Hbd) as [c Hc].
  assert (Hsome : is_Some (Agent.cellAt (Agent.ownBoard agent) coordinates))
    by (by exists c).
  unfold Agent.handleOpponentFire. rewrite Hc.
  change (alter (alter Agent.hitCell _) _ _)
    with (hitBoard (Agent.ownBoard agent) coordinates).
  cbn [Agent.placedShips Agent.ownBoard].
  destruct (Agent.hasShip c) eqn:Hs.
  - pose proof (proj1 (Hmarks _ _ Hc) Hs) as Hin.
    pose proof Hin as (ship0 & Hship0 & Hcell0)%elem_of_allCells.
    destruct (Hids ship0 coordinates Hship0 Hcell0) as (c' & Hc' & Hid).
    assert (c' = c) as -> by congruence.
    destruct (list_find (λ s, Some (Agent.id s) = Agent.shipId c)
                (Agent.placedShips agent)) as [[i ship]|] eqn:Hfind.
    2:{ exfalso. apply list_find_None in Hfind.
        rewrite Forall_forall in Hfind. apply (Hfind ship0 Hship0). by rewrite Hid. }
    apply list_find_Some in Hfind as (Hi & Hsid & _).
    assert (ship = ship0) as ->.
    { apply (NoDup_fmap_eq Agent.id (Agent.placedShips agent)); [done| |done|].
      - by eapply list_elem_of_lookup_2.
      - rewrite Hid in Hsid. congruence. }
    unfold Agent.isShipSunk. cbn [Agent.ownBoard].
    destruct (everyHit_spec (hitBoard (Agent.ownBoard agent) coordinates)
                (Agent.positions ship0)) as (b & -> & Hb).
    { intros cell Hcell. destruct (Hids ship0 cell Hship0 Hcell) as (c0 & Hc0 & _).
      rewrite cellAt_hitBoard, Hc0 by done. case_decide; by eexists. }
    assert (Hall : b = true ↔
      ∀ cell, cell ∈ Agent.positions ship0 → cell ≠ coordinates → wasHit agent cell).
    { rewrite Hb. split.
      - intros H cell Hcell Hne. destruct (H cell Hcell) as (c0 & Hc0 & Hhit).
        rewrite cellAt_hitBoard, decide_False in Hc0 by done. by exists c0.
      - intros H cell Hcell. rewrite cellAt_hitBoard by done.
        case_decide as Heq.
        + subst cell. rewrite Hc. by eexists.
        + apply (H cell Hcell Heq). }
    destruct b; cbn [snd]; eexists _, _; (split; [done|]); (split; [by left|]).
    + intros t. split.
      * intros [= <-]. exists ship0. split_and!; try done. by apply Hall.
      * intros (ship & Hship & Hcell & <- & _).
        by rewrite (ship_of_cell_unique agent ship ship0 coordinates).
    + intros t. split; [done|].
      intros (ship & Hship & Hcell & _ & Hhits).
      assert (ship = ship0) as -> by (by apply (ship_of_cell_unique agent _ _ coordinates)).
      apply Hall in Hhits. done.
  - cbn [snd]. eexists _, _. split; [done|].
    assert (coordinates ∉ allCells agent) as Hout.
    { intros Hin. apply (Hmarks _ _ Hc) in Hin. congruence. }
    split; [by right|]. intros t. split; [done|].
    intros (ship & Hship & Hcell & _). exfalso. apply Hout, elem_of_allCells. eauto.
Qed.

(** X26 ([handleOpponentFire]).  A shot leaves the ships where they are and
    the board consistent; afterwards the cells marked as hit are those
    marked before and, when it lies on the board, the cell shot at.  A shot
    at coordinates off the board raises a [TypeError]: nothing changes and
    no [fire_result] is handed to [sendMessage]. *)
Theorem handleOpponentFire_marks agent coordinates :
  placed_ok agent →
  placed_ok (Agent.handleOpponentFire agent coordinates).1 ∧
  Agent.placedShips (Agent.handleOpponentFire agent coordinates).1
  = Agent.placedShips agent ∧
  (∀ cell, wasHit (Agent.handleOpponentFire agent coordinates).1 cell
           ↔ wasHit agent cell ∨ (cell = coordinates ∧ in_bounds coordinates)) ∧
  (¬ in_bounds coordinates →
   Agent.handleOpponentFire agent coordinates = (agent, None)).
Proof.
  intros Hok. pose proof (ok_shape _ Hok) as Hshape.
  destruct (Agent.cellAt (Agent.ownBoard agent) coordinates) as [c|] eqn:Hc.
  - assert (Hsome : is_Some (Agent.cellAt (Agent.ownBoard agent) coordinates))
      by (by exists c).
    pose proof (proj1 (cellAt_in_bounds _ _ Hshape) Hsome) as Hbd.
    split; [by apply placed_ok_handleOpponentFire|].
    rewrite handleOpponentFire_fst by done. split_and!.
    + done.
    + intros cell. rewrite wasHit_hitBoard by done. naive_solver.
    + done.
  - assert (Hout : ¬ in_bounds coordinates).
    { intros [? Hsome]%(cellAt_in_bounds _ _ Hshape). congruence. }
    rewrite handleOpponentFire_None by done. cbn [fst]. split_and!; try done.
    naive_solver.
Qed.

Lemma canPlaceShip_spec_witness :
  ∃ b, Agent.canPlaceShip (Agent.ownBoard agent_rows) 4 2 3 "vertical" = Some b ∧
       (b = true ↔
        Forall in_bounds (run_cells 4 2 "vertical" (Z.to_nat 3)) ∧
        ∀ cell, cell ∈ run_cells 4 2 "vertical" (Z.to_nat 3) → cell ∉ allCells agent_rows).
Proof.
  apply (canPlaceShip_spec agent_rows 4 2 3 "vertical").
  - apply placed_ok_randomPlacement.
  - unfold in_bounds. simpl. lia.
Defined.

Lemma tryPlace_keeps_placed_ok_witness :
  placed_ok (Agent.tryPlace agent_rows 5 2 "cruiser" 3 "vertical" 2000).1 ∧
  if (Agent.tryPlace agent_rows 5 2 "cruiser" 3 "vertical" 2000).2
  then Agent.placedShips (Agent.tryPlace agent_rows 5 2 "cruiser" 3 "vertical" 2000).1
       = Agent.placedShips agent_rows ++
         [Agent.mkShip ("cruiser", 2000) "cruiser"
            (run_cells 5 2 "vertical" (Z.to_nat 3)) "vertical"]
  else (Agent.tryPlace agent_rows 5 2 "cruiser" 3 "vertical" 2000).1 = agent_rows.
Proof.
  apply (tryPlace_keeps_placed_ok agent_rows 5 2 "cruiser" 3 "vertical" 2000).
  apply placed_ok_randomPlacement.
Defined.

Lemma completeSetup_accepted_witness :
  ∃ ships, Agent.completeSetup agent_rows = Some (setup_complete ships) ∧
           validateShipPlacement ships = true.
Proof.
  apply (completeSetup_accepted agent_rows).
  - apply placed_ok_randomPlacement.
  - vm_compute. reflexivity.
Defined.

Lemma randomPlacement_accepted_witness :
  ∃ ships, setup_complete fleet_rows = setup_complete ships ∧
           Ship.type <$> ships = Agent.shipTypes.*1 ∧
           validateShipPlacement ships = true.
Proof.
  apply (randomPlacement_accepted draws_rows (setup_complete fleet_rows)).
  vm_compute. reflexivity.
Defined.

Lemma handleOpponentFire_verdict_witness :
  ∃ result shipSunk,
    (Agent.handleOpponentFire agent_rows_shot (4, 1)).2
    = Some (fire_result (4, 1) result shipSunk) ∧
    (((4, 1) ∈ allCells agent_rows_shot ∧ result = "hit") ∨
     (((4, 1) ∉ allCells agent_rows_shot) ∧ result = "miss" ∧ shipSunk = None)) ∧
    ∀ t, shipSunk = Some t ↔
         ∃ ship, ship ∈ Agent.placedShips agent_rows_shot ∧
                 (4, 1) ∈ Agent.positions ship ∧ Agent.type ship = t ∧
                 ∀ cell, cell ∈ Agent.positions ship → cell ≠ (4, 1) →
                         wasHit agent_rows_shot cell.
Proof.
  apply (handleOpponentFire_verdict agent_rows_shot (4, 1)).
  - apply placed_ok_handleOpponentFire, placed_ok_randomPlacement.
  - apply (@bool_decide_unpack _ (NoDup_dec _)). vm_compute. exact I.
  - unfold in_bounds. simpl. lia.
Defined.

Lemma handleOpponentFire_marks_witness :
  placed_ok (Agent.handleOpponentFire agent_rows (4, 0)).1 ∧
  Agent.placedShips (Agent.handleOpponentFire agent_rows (4, 0)).1
  = Agent.placedShips agent_rows ∧
  (∀ cell, wasHit (Agent.handleOpponentFire agent_rows (4, 0)).1 cell
           ↔ wasHit agent_rows cell ∨ (cell = (4, 0) ∧ in_bounds (4, 0))) ∧
  (¬ in_bounds (4, 0) →
   Agent.handleOpponentFire agent_rows (4, 0) = (agent_rows, None)).
Proof.
  apply (handleOpponentFire_marks agent_rows (4, 0)).
  apply placed_ok_randomPlacement.
Defined.
